(** * vibe-stats: collection and aggregation pipeline

    A shallow embedding of [vibe_stats/aggregator.py], [vibe_stats/models.py],
    [vibe_stats/github/client.py] and [vibe_stats/github/rate_limit.py].

    Conventions of the embedding:
    - Python [int] is [Z]; Python [float] (hours, percentages, timestamps
      used as seconds) is [Q], computed exactly; [round(x, 1)] is rounding
      to one decimal, ties to even, on the exact rational.
    - A Python [dict] whose iteration order is observable (it is later
      listed or sorted) is an association list in insertion order.
    - [sorted(..., key=k, reverse=True)] and [list.sort(key=k, reverse=True)]
      are a stable descending insertion sort: elements with equal keys keep
      their original order, as in Python.
    - JSON payloads the code reads with [.get(key, default)] are records
      whose fields already hold the value or the default. *)

From Stdlib Require Import ZArith QArith Qround Qminmax List String Ascii Bool Lia.
From Stdlib Require Import Permutation Sorted Lqa.
Import ListNotations.
Open Scope string_scope.
Open Scope Z_scope.

(* ------------------------------------------------------------------ *)
(** ** Generic helpers *)

(** Python [sum] over a list of ints. *)
Definition sum_Z (l : list Z) : Z := fold_right Z.add 0 l.

(** Python [sum] over a list of floats. *)
Definition sum_Q (l : list Q) : Q := fold_right Qplus 0%Q l.

(** Insertion of [x] into a list already sorted descending by [key],
    after every element whose key is at least [key x] (stability). *)
Fixpoint insert_desc {A} (key : A -> Z) (x : A) (l : list A) : list A :=
  match l with
  | [] => [x]
  | y :: l' => if key y <? key x then x :: l else y :: insert_desc key x l'
  end.

(** [sorted(l, key=key, reverse=True)]: stable, descending. *)
Definition sort_desc {A} (key : A -> Z) (l : list A) : list A :=
  fold_left (fun acc x => insert_desc key x acc) l [].

(** Python [l[:n]]. *)
Definition take {A} (n : nat) (l : list A) : list A := firstn n l.

(** Association lists standing for Python dicts (insertion order kept). *)
Fixpoint alist_get {V} (k : string) (m : list (string * V)) : option V :=
  match m with
  | [] => None
  | (k', v) :: m' => if String.eqb k k' then Some v else alist_get k m'
  end.

(** [d[k] = v]: overwrite in place when present, append otherwise. *)
Fixpoint alist_set {V} (k : string) (v : V) (m : list (string * V))
  : list (string * V) :=
  match m with
  | [] => [(k, v)]
  | (k', v') :: m' =>
      if String.eqb k k' then (k', v) :: m' else (k', v') :: alist_set k v m'
  end.

(** [d[k] = d.get(k, 0) + n] for an int-valued dict. *)
Definition alist_add (k : string) (n : Z) (m : list (string * Z))
  : list (string * Z) :=
  match alist_get k m with
  | Some v => alist_set k (v + n) m
  | None => alist_set k n m
  end.

(** The same for dicts keyed by small ints (hour, weekday). *)
Fixpoint zmap_add (k n : Z) (m : list (Z * Z)) : list (Z * Z) :=
  match m with
  | [] => [(k, n)]
  | (k', v) :: m' => if k =? k' then (k', v + n) :: m' else (k', v) :: zmap_add k n m'
  end.

(** [round(x, 1)] on the exact value: nearest tenth, ties to even. *)
Definition round1 (x : Q) : Q :=
  let y := (x * 10)%Q in
  let f := Qfloor y in
  let r := (y - inject_Z f)%Q in
  let down := (inject_Z f / 10)%Q in
  let up := (inject_Z (f + 1) / 10)%Q in
  if Qlt_le_dec r (1 # 2) then down
  else if Qeq_dec r (1 # 2) then (if Z.even f then down else up)
  else up.

(* ------------------------------------------------------------------ *)
(** ** Data model ([models.py]) *)

Record LanguageStats := mkLanguageStats {
  language : string;
  bytes : Z;
  percentage : Q
}.

Record ContributorStats := mkContributorStats {
  username : string;
  commits : Z;
  additions : Z;
  deletions : Z
}.

Record CommitPatternStats := mkCommitPatternStats {
  cp_feat : Z; cp_fix : Z; cp_refactor : Z; cp_docs : Z; cp_test : Z;
  cp_chore : Z; cp_style : Z; cp_ci : Z; cp_other : Z; cp_total : Z;
  hourly_distribution : list (Z * Z);
  weekday_distribution : list (Z * Z)
}.

Record PRInsights := mkPRInsights {
  pr_total_analyzed : Z;
  avg_merge_hours : option Q;
  median_merge_hours : option Q;
  avg_close_hours : option Q;
  draft_count : Z;
  top_authors : list (string * Z)
}.

Record IssueInsights := mkIssueInsights {
  issue_total_analyzed : Z;
  label_distribution : list (string * Z);
  top_reporters : list (string * Z)
}.

Record ContributorTrend := mkContributorTrend {
  trend_username : string;
  first_active_week : string;
  last_active_week : string;
  active_weeks : Z;
  total_weeks : Z
}.

Record RepoStats := mkRepoStats {
  rs_name : string;
  rs_full_name : string;
  rs_total_commits : Z;
  rs_total_additions : Z;
  rs_total_deletions : Z;
  rs_open_prs : Z;
  rs_merged_prs : Z;
  rs_open_issues : Z;
  rs_languages : list LanguageStats;
  rs_contributors : list ContributorStats;
  rs_stars : Z;
  rs_forks : Z;
  rs_size_kb : Z;
  rs_is_archived : bool;
  rs_primary_language : option string;
  rs_description : option string;
  rs_created_at : option string;
  rs_pushed_at : option string;
  rs_visibility : option string;
  rs_commit_patterns : option CommitPatternStats;
  rs_pr_insights : option PRInsights;
  rs_issue_insights : option IssueInsights;
  rs_contributor_trends : list ContributorTrend
}.

Record OrgReport := mkOrgReport {
  org : string;
  period_start : option string;
  period_end : option string;
  total_repos : Z;
  total_commits : Z;
  total_additions : Z;
  total_deletions : Z;
  total_open_prs : Z;
  total_merged_prs : Z;
  total_open_issues : Z;
  org_languages : list LanguageStats;
  org_contributors : list ContributorStats;
  repos : list RepoStats;
  failed_repos : list string;
  total_stars : Z;
  total_forks : Z;
  archived_repos : Z;
  org_commit_patterns : option CommitPatternStats;
  org_pr_insights : option PRInsights;
  org_issue_insights : option IssueInsights;
  org_contributor_trends : list ContributorTrend
}.

(* ------------------------------------------------------------------ *)
(** ** Raw API payloads read by the collector *)

(** One entry of a weekly-stats record: [w.get("w", 0)], ["a"], ["d"], ["c"]. *)
Record Week := mkWeek { w_w : Z; w_a : Z; w_d : Z; w_c : Z }.

(** One element of the contributor-stats payload.  [rc_author] is [None]
    when [c.get("author")] is falsy, and [Some login] otherwise, where
    [login] is [None] when the author has no ["login"] key. *)
Record RawContributor := mkRawContributor {
  rc_author : option (option string);
  rc_weeks : list Week
}.

Definition login_of (l : option string) : string :=
  match l with Some s => s | None => "unknown" end.

(* ------------------------------------------------------------------ *)
(** ** Per-repository collector: contributors ([_collect_repo_stats]) *)

(** The two [continue] guards of the week loop. *)
Definition week_kept (since_ts until_ts : option Z) (w : Week) : bool :=
  negb (match since_ts with Some s => w_w w + 7 * 86400 <=? s | None => false end)
  && negb (match until_ts with Some u => w_w w >? u | None => false end).

(** The loop state: [(contributors, total_additions, total_deletions)]. *)
Record ContribAcc := mkContribAcc {
  acc_contributors : list ContributorStats;
  acc_total_additions : Z;
  acc_total_deletions : Z
}.

(** One iteration of [for c in raw_contributors]. *)
Definition contributor_step (since_ts until_ts : option Z)
    (st : ContribAcc) (c : RawContributor) : ContribAcc :=
  match rc_author c with
  | None => st
  | Some login =>
      let filtered_weeks := filter (week_kept since_ts until_ts) (rc_weeks c) in
      let add := sum_Z (map w_a filtered_weeks) in
      let del := sum_Z (map w_d filtered_weeks) in
      let commits_count := sum_Z (map w_c filtered_weeks) in
      if (commits_count =? 0) && (add =? 0) && (del =? 0) then st
      else mkContribAcc
             (acc_contributors st ++
                [mkContributorStats (login_of login) commits_count add del])
             (acc_total_additions st + add)
             (acc_total_deletions st + del)
  end.

(** The contributor block of [_collect_repo_stats]; [None] stands for a
    payload that is not a list (the [isinstance] guard). *)
Definition collect_contributors (since_ts until_ts : option Z)
    (raw : option (list RawContributor)) : ContribAcc :=
  match raw with
  | None => mkContribAcc [] 0 0
  | Some cs =>
      let st := fold_left (contributor_step since_ts until_ts) cs
                  (mkContribAcc [] 0 0) in
      mkContribAcc (sort_desc commits (acc_contributors st))
        (acc_total_additions st) (acc_total_deletions st)
  end.

(* ------------------------------------------------------------------ *)
(** ** Commit pattern analysis ([_analyze_commit_patterns]) *)

(** [\w] on the characters of the model (messages are ASCII strings):
    letters, digits and the underscore. *)
Definition is_word_char (c : ascii) : bool :=
  let n := nat_of_ascii c in
  (Nat.leb 48 n && Nat.leb n 57) || (Nat.leb 65 n && Nat.leb n 90)
  || (Nat.leb 97 n && Nat.leb n 122) || Nat.eqb n 95.

(** The maximal leading run of [\w] characters and the rest of the string. *)
Fixpoint leading_word (s : string) : string * string :=
  match s with
  | EmptyString => (EmptyString, EmptyString)
  | String c s' =>
      if is_word_char c then
        let (w, rest) := leading_word s' in (String c w, rest)
      else (EmptyString, s)
  end.

(** [re.compile(r"^(\w+)[\(:\!]").match(msg)], returning [m.group(1)].
    The greedy [\w+] never backtracks usefully: any shorter run is followed
    by a word character, which is none of [(], [:], [!]; so the match exists
    exactly when the maximal leading run is non-empty and is followed by one
    of those three characters. *)
Definition conventional_prefix (msg : string) : option string :=
  match leading_word msg with
  | (EmptyString, _) => None
  | (w, String c _) =>
      if (Ascii.eqb c "(") || (Ascii.eqb c ":") || (Ascii.eqb c "!")
      then Some w else None
  | (_, EmptyString) => None
  end.

(** [str.lower()] on ASCII. *)
Definition lower_ascii (c : ascii) : ascii :=
  let n := nat_of_ascii c in
  if Nat.leb 65 n && Nat.leb n 90 then ascii_of_nat (n + 32) else c.

Fixpoint lower (s : string) : string :=
  match s with
  | EmptyString => EmptyString
  | String c s' => String (lower_ascii c) (lower s')
  end.

Definition _CONVENTIONAL_TYPES : list string :=
  ["feat"; "fix"; "refactor"; "docs"; "test"; "chore"; "style"; "ci"].

(** A commit as read by the analysis: [commit["commit"]["message"]]
    (the empty string when absent) and the parsed author date as [(hour, weekday)],
    [None] when the date is missing or [fromisoformat] rejects it. *)
Record Commit := mkCommit {
  cm_message : string;
  cm_date : option (Z * Z)
}.

(** The dict key bumped for one message. *)
Definition commit_type (msg : string) : string :=
  match conventional_prefix msg with
  | Some w =>
      let ctype := lower w in
      if existsb (String.eqb ctype) _CONVENTIONAL_TYPES then ctype else "other"
  | None => "other"
  end.

Record PatternAcc := mkPatternAcc {
  pa_counts : list (string * Z);
  pa_hourly : list (Z * Z);
  pa_weekday : list (Z * Z)
}.

Definition pattern_step (st : PatternAcc) (c : Commit) : PatternAcc :=
  let counts := alist_add (commit_type (cm_message c)) 1 (pa_counts st) in
  match cm_date c with
  | Some (hour, wd) =>
      mkPatternAcc counts (zmap_add hour 1 (pa_hourly st)) (zmap_add wd 1 (pa_weekday st))
  | None => mkPatternAcc counts (pa_hourly st) (pa_weekday st)
  end.

Definition count_of (k : string) (m : list (string * Z)) : Z :=
  match alist_get k m with Some v => v | None => 0 end.

Definition _analyze_commit_patterns (cs : list Commit) : CommitPatternStats :=
  let init := mkPatternAcc (map (fun t => (t, 0)) _CONVENTIONAL_TYPES ++ [("other", 0)]) [] [] in
  let st := fold_left pattern_step cs init in
  let counts := pa_counts st in
  mkCommitPatternStats
    (count_of "feat" counts) (count_of "fix" counts) (count_of "refactor" counts)
    (count_of "docs" counts) (count_of "test" counts) (count_of "chore" counts)
    (count_of "style" counts) (count_of "ci" counts) (count_of "other" counts)
    (Z.of_nat (List.length cs)) (pa_hourly st) (pa_weekday st).

(* ------------------------------------------------------------------ *)
(** ** PR insight analysis ([_analyze_pr_insights]) *)

(** A timestamp field of a PR payload: absent or falsy, present but
    rejected by [fromisoformat], or parsed (seconds since the epoch). *)
Inductive Stamp := SAbsent | SBad | SAt (t : Z).

Definition stamp_truthy (s : Stamp) : bool :=
  match s with SAbsent => false | _ => true end.

(** [pr_login] is [pr["user"]["login"]], the empty string when missing. *)
Record PullRequest := mkPullRequest {
  pr_draft : bool;
  pr_login : string;
  pr_state : string;
  pr_created_at : Stamp;
  pr_merged_at : Stamp;
  pr_closed_at : Stamp
}.

Record PRAcc := mkPRAcc {
  pra_merge_hours : list Q;
  pra_close_hours : list Q;
  pra_draft_count : Z;
  pra_author_counts : list (string * Z)
}.

Definition hours_between (t0 t1 : Z) : Q := (inject_Z (t1 - t0) / 3600)%Q.

Definition append_if_nonneg (h : Q) (l : list Q) : list Q :=
  if Qle_bool 0 h then l ++ [h] else l.

Definition pr_step (st : PRAcc) (pr : PullRequest) : PRAcc :=
  let draft := if pr_draft pr then pra_draft_count st + 1 else pra_draft_count st in
  let authors := if String.eqb (pr_login pr) EmptyString then pra_author_counts st
                 else alist_add (pr_login pr) 1 (pra_author_counts st) in
  match pr_created_at pr with
  | SAbsent | SBad => mkPRAcc (pra_merge_hours st) (pra_close_hours st) draft authors
  | SAt created =>
      let mh := match pr_merged_at pr with
                | SAt m => append_if_nonneg (hours_between created m) (pra_merge_hours st)
                | _ => pra_merge_hours st
                end in
      let ch := if stamp_truthy (pr_closed_at pr) && negb (stamp_truthy (pr_merged_at pr))
                then match pr_closed_at pr with
                     | SAt c => append_if_nonneg (hours_between created c) (pra_close_hours st)
                     | _ => pra_close_hours st
                     end
                else pra_close_hours st in
      mkPRAcc mh ch draft authors
  end.

Definition avg_Q (l : list Q) : option Q :=
  match l with
  | [] => None
  | _ => Some (round1 (sum_Q l / inject_Z (Z.of_nat (List.length l))))
  end.

Fixpoint insert_Q (x : Q) (l : list Q) : list Q :=
  match l with
  | [] => [x]
  | y :: l' => if Qle_bool x y then x :: l else y :: insert_Q x l'
  end.

(** [sorted(l)] on floats (ascending). *)
Definition sort_Q (l : list Q) : list Q := fold_right insert_Q [] l.

Definition median_Q (l : list Q) : option Q :=
  match l with
  | [] => None
  | _ =>
      let s := sort_Q l in
      let n := List.length s in
      let mid := Nat.div n 2 in
      Some (round1 (if Nat.even n
                    then ((nth mid s 0 + nth (mid - 1) s 0) / 2)%Q
                    else nth mid s 0%Q))
  end.

Definition _analyze_pr_insights (prs : list PullRequest) : PRInsights :=
  let st := fold_left pr_step prs (mkPRAcc [] [] 0 []) in
  mkPRInsights (Z.of_nat (List.length prs))
    (avg_Q (pra_merge_hours st)) (median_Q (pra_merge_hours st))
    (avg_Q (pra_close_hours st)) (pra_draft_count st)
    (take 10 (sort_desc snd (pra_author_counts st))).

(* ------------------------------------------------------------------ *)
(** ** Issue insight analysis ([_analyze_issue_insights]) *)

(** An element of [issue["labels"]]: a dict (its ["name"], the empty string when
    missing) or any other value (its [str()]). *)
Inductive Label := LabelDict (name : string) | LabelOther (repr : string).

Definition label_name (l : Label) : string :=
  match l with LabelDict n => n | LabelOther r => r end.

(** [is_labels] is [None] when ["labels"] is not a list. *)
Record Issue := mkIssue {
  is_labels : option (list Label);
  is_login : string
}.

Definition issue_step (st : list (string * Z) * list (string * Z)) (i : Issue)
  : list (string * Z) * list (string * Z) :=
  let (labels, reporters) := st in
  let labels' :=
    match is_labels i with
    | Some ls => fold_left (fun m l => if String.eqb (label_name l) EmptyString then m
                                        else alist_add (label_name l) 1 m) ls labels
    | None => labels
    end in
  let reporters' := if String.eqb (is_login i) EmptyString then reporters
                    else alist_add (is_login i) 1 reporters in
  (labels', reporters').

Definition _analyze_issue_insights (issues : list Issue) : IssueInsights :=
  let (labels, reporters) := fold_left issue_step issues ([], []) in
  mkIssueInsights (Z.of_nat (List.length issues)) labels (take 10 (sort_desc snd reporters)).

(* ------------------------------------------------------------------ *)
(** ** Calendar dates ([datetime.fromtimestamp(ts, tz=utc).strftime("%Y-%m-%d")]
       and [datetime.strptime(s, "%Y-%m-%d")]) *)

(** Proleptic Gregorian date of a day count since 1970-01-01. *)
Definition civil_from_days (days : Z) : Z * Z * Z :=
  let z := days + 719468 in
  let era := z / 146097 in
  let doe := z - era * 146097 in
  let yoe := (doe - doe / 1460 + doe / 36524 - doe / 146096) / 365 in
  let y := yoe + era * 400 in
  let doy := doe - (365 * yoe + yoe / 4 - yoe / 100) in
  let mp := (5 * doy + 2) / 153 in
  let d := doy - (153 * mp + 2) / 5 + 1 in
  let m := if mp <? 10 then mp + 3 else mp - 9 in
  ((if m <=? 2 then y + 1 else y), m, d).

(** Day count since 1970-01-01 of a proleptic Gregorian date. *)
Definition days_from_civil (y m d : Z) : Z :=
  let y' := if m <=? 2 then y - 1 else y in
  let era := y' / 400 in
  let yoe := y' - era * 400 in
  let doy := (153 * (if m >? 2 then m - 3 else m + 9) + 2) / 5 + d - 1 in
  let doe := yoe * 365 + yoe / 4 - yoe / 100 + doy in
  era * 146097 + doe - 719468.

Definition digit_char (n : Z) : ascii := ascii_of_nat (48 + Z.to_nat n).

(** Decimal digits of a non-negative int. *)
Fixpoint dec_digits (fuel : nat) (n : Z) (acc : string) : string :=
  match fuel with
  | O => acc
  | S f =>
      let acc' := String (digit_char (n mod 10)) acc in
      if n <? 10 then acc' else dec_digits f (n / 10) acc'
  end.

(** [n] leading zeros before [s]. *)
Fixpoint zero_pad (n : nat) (s : string) : string :=
  match n with
  | O => s
  | S n' => String "0" (zero_pad n' s)
  end.

(** Zero-padded decimal rendering, as [%Y] (4), [%m] and [%d] (2) give it
    for the non-negative years of the epoch timestamps the API returns. *)
Definition pad_int (width : nat) (n : Z) : string :=
  let s := dec_digits 32 (Z.abs n) EmptyString in
  zero_pad (width - String.length s) s.

Definition format_date (ts : Z) : string :=
  let '(y, m, d) := civil_from_days (ts / 86400) in
  pad_int 4 y ++ "-" ++ pad_int 2 m ++ "-" ++ pad_int 2 d.

Definition digit_val (c : ascii) : option Z :=
  let n := nat_of_ascii c in
  if Nat.leb 48 n && Nat.leb n 57 then Some (Z.of_nat n - 48) else None.

(** Reads between [lo] and [hi] digits (greedy) and returns the value and
    the rest of the string. *)
Fixpoint read_digits (hi : nat) (acc : Z) (count : nat) (s : string)
  : Z * nat * string :=
  match hi, s with
  | S h, String c s' =>
      match digit_val c with
      | Some v => read_digits h (acc * 10 + v) (S count) s'
      | None => (acc, count, s)
      end
  | _, _ => (acc, count, s)
  end.

Definition is_leap (y : Z) : bool :=
  (y mod 4 =? 0) && (negb (y mod 100 =? 0) || (y mod 400 =? 0)).

Definition days_in_month (y m : Z) : Z :=
  if m =? 2 then (if is_leap y then 29 else 28)
  else if (m =? 4) || (m =? 6) || (m =? 9) || (m =? 11) then 30 else 31.

(** [datetime.strptime(s, "%Y-%m-%d")] as a day count; [None] is the
    [ValueError].  [%Y] takes four digits, [%m] and [%d] one or two, and
    the date must exist. *)
Definition parse_date (s : string) : option Z :=
  match read_digits 4 0 0 s with
  | (y, 4%nat, String "-" r1) =>
      match read_digits 2 0 0 r1 with
      | (m, S _, String "-" r2) =>
          match read_digits 2 0 0 r2 with
          | (d, S _, EmptyString) =>
              if (1 <=? m) && (m <=? 12) && (1 <=? d) && (d <=? days_in_month y m)
              then Some (days_from_civil y m d) else None
          | _ => None
          end
      | _ => None
      end
  | _ => None
  end.

(** Python [min]/[max] on strings: lexicographic order on characters. *)
Definition str_min (a b : string) : string :=
  match String.compare b a with Lt => b | _ => a end.

Definition str_max (a b : string) : string :=
  match String.compare b a with Gt => b | _ => a end.

(* ------------------------------------------------------------------ *)
(** ** Contributor trend analysis ([_analyze_contributor_trends]) *)

Definition is_active_week (w : Week) : bool :=
  (w_c w >? 0) || (w_a w >? 0) || (w_d w >? 0).

Definition list_min (x : Z) (l : list Z) : Z := fold_left Z.min l x.
Definition list_max (x : Z) (l : list Z) : Z := fold_left Z.max l x.

Definition trend_of (since_ts until_ts : option Z) (c : RawContributor)
  : option ContributorTrend :=
  match rc_author c with
  | None => None
  | Some login =>
      let active := map w_w (filter is_active_week
                               (filter (week_kept since_ts until_ts) (rc_weeks c))) in
      match active with
      | [] => None
      | t :: ts =>
          let first_ts := list_min t ts in
          let last_ts := list_max t ts in
          Some (mkContributorTrend (login_of login) (format_date first_ts)
                  (format_date last_ts) (Z.of_nat (List.length active))
                  (Z.max 1 ((last_ts - first_ts) / (7 * 86400) + 1)))
      end
  end.

Definition _analyze_contributor_trends (raw : list RawContributor)
    (since_ts until_ts : option Z) : list ContributorTrend :=
  let trends := fold_left (fun acc c => match trend_of since_ts until_ts c with
                                        | Some t => (acc ++ [t])%list | None => acc end) raw [] in
  sort_desc active_weeks trends.

(* ------------------------------------------------------------------ *)
(** ** The per-repository collector ([_collect_repo_stats]) *)

(** A repository dict of the [list_repos] payload, read with
    [meta.get(key, default)]. *)
Record RepoEntry := mkRepoEntry {
  re_name : string;
  re_stargazers_count : Z;
  re_forks_count : Z;
  re_size : Z;
  re_archived : bool;
  re_language : option string;
  re_description : option string;
  re_created_at : option string;
  re_pushed_at : option string;
  re_visibility : option string
}.

(** [{"name": repo}] of single-repository mode, seen through the defaults. *)
Definition entry_of_name (n : string) : RepoEntry :=
  mkRepoEntry n 0 0 0 false None None None None None.

(** The five results of [asyncio.gather(..., return_exceptions=True)];
    [None] is an exception, replaced by [[]] or [{}] in the code. *)
Record Fetches := mkFetches {
  f_commits : option (list Commit);
  f_languages : option (list (string * Z));
  f_contributors : option (list RawContributor);
  f_prs : option (list PullRequest);
  f_issues : option (list Issue)
}.

Definition or_empty {A} (x : option (list A)) : list A :=
  match x with Some l => l | None => [] end.

Definition percentage_of (b total : Z) : Q :=
  if total =? 0 then 0%Q else round1 (inject_Z b / inject_Z total * 100)%Q.

Definition collect_languages (lang_bytes : list (string * Z)) : list LanguageStats :=
  match lang_bytes with
  | [] => []
  | _ =>
      let total_bytes := sum_Z (map snd lang_bytes) in
      map (fun lb => mkLanguageStats (fst lb) (snd lb) (percentage_of (snd lb) total_bytes))
          (sort_desc snd lang_bytes)
  end.

Definition pr_counts (prs : list PullRequest) : Z * Z :=
  fold_left (fun (oc : Z * Z) (pr : PullRequest) =>
               let (open_prs, merged_prs) := oc in
               if stamp_truthy (pr_merged_at pr) then (open_prs, merged_prs + 1)
               else if String.eqb (pr_state pr) "open" then (open_prs + 1, merged_prs)
               else (open_prs, merged_prs)) prs (0, 0).

(** [since_ts]/[until_ts] are the parsed window bounds in seconds ([None]
    when absent or unparseable). *)
Definition _collect_repo_stats (owner : string) (meta : RepoEntry)
    (since_ts until_ts : option Z) (f : Fetches) : RepoStats :=
  let cs := or_empty (f_commits f) in
  let lang_bytes := or_empty (f_languages f) in
  let raw_contributors := or_empty (f_contributors f) in
  let prs := or_empty (f_prs f) in
  let issues := or_empty (f_issues f) in
  let '(open_prs, merged_prs) := pr_counts prs in
  let contrib := collect_contributors since_ts until_ts (Some raw_contributors) in
  mkRepoStats (re_name meta) (owner ++ "/" ++ re_name meta)
    (Z.of_nat (List.length cs))
    (acc_total_additions contrib) (acc_total_deletions contrib)
    open_prs merged_prs (Z.of_nat (List.length issues))
    (collect_languages lang_bytes) (acc_contributors contrib)
    (re_stargazers_count meta) (re_forks_count meta) (re_size meta) (re_archived meta)
    (re_language meta) (re_description meta) (re_created_at meta) (re_pushed_at meta)
    (re_visibility meta)
    (Some (_analyze_commit_patterns cs)) (Some (_analyze_pr_insights prs))
    (Some (_analyze_issue_insights issues))
    (_analyze_contributor_trends raw_contributors since_ts until_ts).

(* ------------------------------------------------------------------ *)
(** ** Org-level merge ([aggregate_org_report], after collection) *)

Definition KNOWN_BOTS : list string :=
  ["dependabot"; "renovate"; "github-actions"; "codecov"; "snyk-bot";
   "greenkeeper"; "dependabot-preview"; "renovate-bot"; "allcontributors";
   "imgbot"; "stale"; "mergify"; "sonarcloud"].

Definition ends_with (suffix s : string) : bool :=
  let n := String.length s in
  let k := String.length suffix in
  Nat.leb k n && String.eqb (substring (n - k) k s) suffix.

Definition _is_bot (u : string) : bool :=
  let l := lower u in
  ends_with "[bot]" l || existsb (String.eqb l) KNOWN_BOTS.

Definition _sort_key (sort_by : string) : ContributorStats -> Z :=
  if String.eqb sort_by "additions" then additions
  else if String.eqb sort_by "deletions" then deletions
  else if String.eqb sort_by "lines" then fun c => additions c + deletions c
  else commits.

(** One step of the [contrib_totals] loop. *)
Definition merge_contributor (m : list (string * ContributorStats)) (c : ContributorStats)
  : list (string * ContributorStats) :=
  match alist_get (username c) m with
  | Some e =>
      alist_set (username c)
        (mkContributorStats (username c) (commits e + commits c)
           (additions e + additions c) (deletions e + deletions c)) m
  | None =>
      alist_set (username c)
        (mkContributorStats (username c) (commits c) (additions c) (deletions c)) m
  end.

Definition contrib_totals (rs : list RepoStats) : list (string * ContributorStats) :=
  fold_left (fun m r => fold_left merge_contributor (rs_contributors r) m) rs [].

(** [org_contributors] after the bot and min-commits filters and the sort. *)
Definition org_contributor_list (rs : list RepoStats) (sort_by : string)
    (exclude_bots : bool) (min_commits : Z) : list ContributorStats :=
  let l0 := map snd (contrib_totals rs) in
  let l1 := if exclude_bots then filter (fun c => negb (_is_bot (username c))) l0 else l0 in
  let l2 := if min_commits >? 0 then filter (fun c => commits c >=? min_commits) l1 else l1 in
  sort_desc (_sort_key sort_by) l2.

Definition merge_languages (rs : list RepoStats) : list LanguageStats :=
  let lang_totals :=
    fold_left (fun m r => fold_left (fun m' l => alist_add (language l) (bytes l) m')
                            (rs_languages r) m) rs [] in
  let total_lang_bytes := sum_Z (map snd lang_totals) in
  map (fun lb => mkLanguageStats (fst lb) (snd lb) (percentage_of (snd lb) total_lang_bytes))
      (sort_desc snd lang_totals).

Fixpoint filter_some {A} (l : list (option A)) : list A :=
  match l with
  | [] => []
  | Some x :: l' => x :: filter_some l'
  | None :: l' => filter_some l'
  end.

Definition merge_commit_patterns (rs : list RepoStats) : option CommitPatternStats :=
  match filter_some (map rs_commit_patterns rs) with
  | [] => None
  | all_patterns =>
      let merged_hourly := fold_left (fun m p => fold_left (fun m' hc => zmap_add (fst hc) (snd hc) m')
                                                  (hourly_distribution p) m) all_patterns [] in
      let merged_weekday := fold_left (fun m p => fold_left (fun m' dc => zmap_add (fst dc) (snd dc) m')
                                                   (weekday_distribution p) m) all_patterns [] in
      let s f := sum_Z (map f all_patterns) in
      Some (mkCommitPatternStats (s cp_feat) (s cp_fix) (s cp_refactor) (s cp_docs)
              (s cp_test) (s cp_chore) (s cp_style) (s cp_ci) (s cp_other) (s cp_total)
              merged_hourly merged_weekday)
  end.

(** The [(avg, weight)] pairs of [merge_weighted] / [close_weighted]:
    each repository's average paired with its [total_analyzed]. *)
Definition weighted_pairs (avg : PRInsights -> option Q) (all_pr : list PRInsights)
  : list (Q * Z) :=
  fold_left (fun acc pi => match avg pi with
                           | Some h => (acc ++ [(h, pr_total_analyzed pi)])%list
                           | None => acc end) all_pr [].

Definition weighted_avg (ws : list (Q * Z)) : option Q :=
  let total_w := sum_Z (map snd ws) in
  if total_w >? 0
  then Some (round1 (sum_Q (map (fun hw => fst hw * inject_Z (snd hw))%Q ws) / inject_Z total_w))
  else None.

Definition merge_pr_insights (rs : list RepoStats) : option PRInsights :=
  match filter_some (map rs_pr_insights rs) with
  | [] => None
  | all_pr =>
      let author_totals := fold_left (fun m pi => fold_left (fun m' ac => alist_add (fst ac) (snd ac) m')
                                                   (top_authors pi) m) all_pr [] in
      Some (mkPRInsights (sum_Z (map pr_total_analyzed all_pr))
              (weighted_avg (weighted_pairs avg_merge_hours all_pr))
              None
              (weighted_avg (weighted_pairs avg_close_hours all_pr))
              (sum_Z (map draft_count all_pr))
              (take 10 (sort_desc snd author_totals)))
  end.

Definition merge_issue_insights (rs : list RepoStats) : option IssueInsights :=
  match filter_some (map rs_issue_insights rs) with
  | [] => None
  | all_issues =>
      let merged_labels := fold_left (fun m ii => fold_left (fun m' lc => alist_add (fst lc) (snd lc) m')
                                                   (label_distribution ii) m) all_issues [] in
      let merged_reporters := fold_left (fun m ii => fold_left (fun m' rc => alist_add (fst rc) (snd rc) m')
                                                      (top_reporters ii) m) all_issues [] in
      Some (mkIssueInsights (sum_Z (map issue_total_analyzed all_issues)) merged_labels
              (take 10 (sort_desc snd merged_reporters)))
  end.

(** One step of the [org_trend_map] loop. *)
Definition merge_trend (m : list (string * ContributorTrend)) (t : ContributorTrend)
  : list (string * ContributorTrend) :=
  match alist_get (trend_username t) m with
  | Some existing =>
      let first := str_min (first_active_week existing) (first_active_week t) in
      let last := str_max (last_active_week existing) (last_active_week t) in
      let span_weeks :=
        match parse_date first, parse_date last with
        | Some first_dt, Some last_dt => Z.max 1 ((last_dt - first_dt) / 7 + 1)
        | _, _ => Z.max (total_weeks existing) (total_weeks t)
        end in
      let merged_active := active_weeks existing + active_weeks t in
      alist_set (trend_username t)
        (mkContributorTrend (trend_username t) first last
           (Z.min merged_active span_weeks) span_weeks) m
  | None =>
      alist_set (trend_username t)
        (mkContributorTrend (trend_username t) (first_active_week t) (last_active_week t)
           (active_weeks t) (total_weeks t)) m
  end.

Definition merge_trends (rs : list RepoStats) (org_contributors : list ContributorStats)
    (exclude_bots : bool) (min_commits : Z) : list ContributorTrend :=
  let org_trend_map :=
    fold_left (fun m r => fold_left merge_trend (rs_contributor_trends r) m) rs [] in
  let org_trend_map :=
    if exclude_bots || (min_commits >? 0)
    then filter (fun kv => existsb (fun c => String.eqb (username c) (fst kv)) org_contributors)
                org_trend_map
    else org_trend_map in
  sort_desc active_weeks (map snd org_trend_map).

(** The report built from the successfully collected [repo_stats_list]. *)
Definition build_report (org_name : string) (since until : option string)
    (repo_stats_list : list RepoStats) (failed : list string)
    (sort_by : string) (exclude_bots : bool) (min_commits : Z) : OrgReport :=
  let s f := sum_Z (map f repo_stats_list) in
  let org_contributors := org_contributor_list repo_stats_list sort_by exclude_bots min_commits in
  mkOrgReport org_name since until
    (Z.of_nat (List.length repo_stats_list))
    (s rs_total_commits) (s rs_total_additions) (s rs_total_deletions)
    (s rs_open_prs) (s rs_merged_prs) (s rs_open_issues)
    (merge_languages repo_stats_list) org_contributors repo_stats_list failed
    (s rs_stars) (s rs_forks)
    (Z.of_nat (List.length (filter rs_is_archived repo_stats_list)))
    (merge_commit_patterns repo_stats_list) (merge_pr_insights repo_stats_list)
    (merge_issue_insights repo_stats_list)
    (merge_trends repo_stats_list org_contributors exclude_bots min_commits).

(** Repository-set resolution: [if repo:] (a non-empty name) gives the
    singleton set, otherwise the [list_repos] result; then [if
    exclude_repos:] removes the excluded names. *)
Definition resolve_repos (listed : list RepoEntry) (repo : option string)
    (exclude_repos : list string) : list RepoEntry :=
  let rs := match repo with
            | Some r => if String.eqb r EmptyString then listed else [entry_of_name r]
            | None => listed
            end in
  match exclude_repos with
  | [] => rs
  | _ => filter (fun r => negb (existsb (String.eqb (re_name r)) exclude_repos)) rs
  end.

(** [aggregate_org_report].  [listed] is the [list_repos] result (only
    consulted when no single repository is named).  [collect e] is the
    outcome of [_collect_repo_stats] for the entry [e], [None] when it
    raised.  [asyncio.gather] returns results in the order of the
    entries, while [failed_repos.append] runs in the order the tasks
    finish: [finish_order] is that order. *)
Definition aggregate_org_report (listed : list RepoEntry)
    (collect : RepoEntry -> option RepoStats)
    (finish_order : list RepoEntry -> list RepoEntry)
    (org_name : string) (since until : option string) (repo : option string)
    (exclude_repos : list string) (sort_by : string) (exclude_bots : bool)
    (min_commits : Z) : OrgReport :=
  let rs := resolve_repos listed repo exclude_repos in
  let results := map collect rs in
  let failed := map re_name (filter (fun e => match collect e with None => true | Some _ => false end)
                                    (finish_order rs)) in
  build_report org_name since until (filter_some results) failed sort_by exclude_bots min_commits.

(* ------------------------------------------------------------------ *)
(** ** Rate governor ([github/rate_limit.py]) *)

(** [RateLimitMonitor]: the last seen [X-RateLimit-Remaining] and
    [X-RateLimit-Reset] values and the threshold. *)
Record RateLimitMonitor := mkRateLimitMonitor {
  _remaining : option Z;
  _reset_at : option Q;
  _threshold : Z
}.

(** [RateLimitMonitor()]: both signals unknown, threshold 10. *)
Definition new_monitor : RateLimitMonitor := mkRateLimitMonitor None None 10.

(** [update(response)] with the two headers already converted by [int()]
    and [float()]; an absent header leaves the field unchanged. *)
Definition rl_update (st : RateLimitMonitor) (remaining : option Z) (reset_at : option Q)
  : RateLimitMonitor :=
  mkRateLimitMonitor
    (match remaining with Some r => Some r | None => _remaining st end)
    (match reset_at with Some r => Some r | None => _reset_at st end)
    (_threshold st).

(** [wait_if_needed()] at wall-clock time [now]: [Some d] is the call
    [asyncio.sleep(d)], [None] returns without sleeping. *)
Definition wait_if_needed (st : RateLimitMonitor) (now : Q) : option Q :=
  match _remaining st with
  | Some remaining =>
      if remaining <=? _threshold st then
        match _reset_at st with
        | Some reset_at =>
            let wait_seconds := (Qmax 0 (reset_at - now) + 1)%Q in
            if Qlt_le_dec 0 wait_seconds then Some (Qmin wait_seconds 3600) else None
        | None => None
        end
      else None
  | None => None
  end.

(* ------------------------------------------------------------------ *)
(** ** API client ([github/client.py]) *)

(** JSON values as [response.json()] returns them. *)
#[local] Set Warnings "-register-all".
Inductive json :=
| JNull
| JBool (b : bool)
| JNum (n : Z)
| JStr (s : string)
| JList (l : list json)
| JObj (kvs : list (string * json)).

Definition params := list (string * string).

(** A successful page: its JSON body and its [Link] header (the empty string
    when the header is absent). *)
Record Page := mkPage { page_data : json; page_link : string }.

(** [s.split(sep)] for a one-character separator. *)
Fixpoint split_on (sep : ascii) (s : string) : list string :=
  match s with
  | EmptyString => [EmptyString]
  | String c s' =>
      if Ascii.eqb c sep then EmptyString :: split_on sep s'
      else match split_on sep s' with
           | [] => [String c EmptyString]
           | p :: ps => String c p :: ps
           end
  end.

(** [needle in s]. *)
Fixpoint contains (needle s : string) : bool :=
  String.prefix needle s ||
  match s with EmptyString => false | String _ s' => contains needle s' end.

Fixpoint lstrip (drop : ascii -> bool) (s : string) : string :=
  match s with
  | String c s' => if drop c then lstrip drop s' else s
  | EmptyString => EmptyString
  end.

Fixpoint rev_string (s : string) : string :=
  match s with
  | EmptyString => EmptyString
  | String c s' => rev_string s' ++ String c EmptyString
  end.

Definition strip (drop : ascii -> bool) (s : string) : string :=
  rev_string (lstrip drop (rev_string (lstrip drop s))).

(** Characters removed by [str.strip()] (ASCII whitespace). *)
Definition is_space (c : ascii) : bool :=
  let n := nat_of_ascii c in Nat.eqb n 32 || (Nat.leb 9 n && Nat.leb n 13).

Definition is_angle (c : ascii) : bool := Ascii.eqb c "<" || Ascii.eqb c ">".

(** The literal [rel="next"] (34 is the double quote). *)
Definition REL_NEXT : string :=
  "rel=" ++ String (ascii_of_nat 34) ("next" ++ String (ascii_of_nat 34) EmptyString).

(** The [for part in link_header.split(",")] loop: the URL of the first
    part containing [rel="next"]. *)
Definition next_link (link_header : string) : option string :=
  match find (contains REL_NEXT) (split_on "," link_header) with
  | Some part => Some (strip is_angle (strip is_space (hd EmptyString (split_on ";" part))))
  | None => None
  end.

(** [params.setdefault("per_page", 100)]. *)
Definition setdefault_per_page (p : params) : params :=
  match alist_get "per_page" p with
  | Some _ => p
  | None => (p ++ [("per_page", "100")])%list
  end.

(** How [_paginate] ends: with its results, with the exception of a
    failed [_get], or (in the model only) by running out of fuel. *)
Inductive PageOutcome := PgDone (results : list json) | PgRaised | PgFuel.

Section Paginate.
(** [_get(url, params)] followed by [response.json()] and the [Link]
    header; [None] when [_get] raises. *)
Variable get : string -> params -> option Page.

(** The [while next_url is not None] loop, with the requests it sends
    (in order) and a fuel bound on the number of iterations. *)
Fixpoint paginate_loop (fuel : nat) (next_url : string) (ps : params)
    (results : list json) : list (string * params) * PageOutcome :=
  match fuel with
  | O => ([], PgFuel)
  | S f =>
      match get next_url ps with
      | None => ([(next_url, ps)], PgRaised)
      | Some response =>
          let results' := match page_data response with
                          | JList l => (results ++ l)%list
                          | d => (results ++ [d])%list
                          end in
          match next_link (page_link response) with
          | Some u =>
              let (reqs, out) := paginate_loop f u [] results' in
              ((next_url, ps) :: reqs, out)
          | None => ([(next_url, ps)], PgDone results')
          end
      end
  end.

Definition _paginate (fuel : nat) (url : string) (p : params)
  : list (string * params) * PageOutcome :=
  paginate_loop fuel url (setdefault_per_page p) [].
End Paginate.

(** One [await self._get(url)] in [get_contributor_stats]: a transport
    error, or a response with its status and JSON body. *)
Inductive GetResult := Transport | Response (status : Z) (body : json).

(** Observable effects of [get_contributor_stats]. *)
Inductive Effect := ESleep (seconds : Z) | ECacheSet (value : list json).

Inductive StatsOutcome := SReturn (v : json) | SRaise.

Definition backoff (attempt : nat) : Z := Z.min (2 ^ (Z.of_nat attempt + 1)) 30.

Section ContributorStatsFetch.
Variable retries : nat.
(** The result of [_get] at each attempt. *)
Variable response : nat -> GetResult.
(** [self._cache is not None]. *)
Variable cache_on : bool.

Definition can_retry (attempt : nat) : bool :=
  Z.of_nat attempt <? Z.of_nat retries - 1.

(** [for attempt in range(retries)], from [attempt] with [n] iterations left. *)
Fixpoint stats_loop (n attempt : nat) : list Effect * StatsOutcome :=
  match n with
  | O => ([], SReturn (JList []))
  | S n' =>
      match response attempt with
      | Transport => ([], SRaise)
      | Response status body =>
          if negb ((200 <=? status) && (status <? 300)) then
            (* [raise_for_status] raised an [HTTPStatusError] *)
            if (status =? 202) && can_retry attempt then
              let (es, o) := stats_loop n' (S attempt) in (ESleep (backoff attempt) :: es, o)
            else ([], SRaise)
          else if status =? 204 then ([], SReturn (JList []))
          else if status =? 202 then
            if can_retry attempt then
              let (es, o) := stats_loop n' (S attempt) in (ESleep (backoff attempt) :: es, o)
            else ([], SReturn (JList []))
          else
            let result := match body with JList l => l | _ => [] end in
            ((if cache_on && negb (match result with [] => true | _ => false end)
              then [ECacheSet result] else []),
             SReturn (JList result))
      end
  end.

(** [get_contributor_stats(owner, repo, retries)]; [cached] is what
    [self._cache.get(url)] returns. *)
Definition get_contributor_stats (cached : option json) : list Effect * StatsOutcome :=
  match (if cache_on then cached else None) with
  | Some v => ([], SReturn v)
  | None => stats_loop retries 0
  end.
End ContributorStatsFetch.

(* ------------------------------------------------------------------ *)
(** ** Specification-side definitions (the spec's wording) *)

(** A week is excluded when its 7-day span ends at or before [since] or
    its start is after [until]. *)
Definition week_excluded (since_ts until_ts : option Z) (w : Week) : bool :=
  match since_ts with Some s => w_w w + 7 * 86400 <=? s | None => false end
  || match until_ts with Some u => u <? w_w w | None => false end.

(** The record a contributor contributes: sums over the non-excluded
    weeks, nothing when it has no author or all three sums are zero. *)
Definition window_contributor (since_ts until_ts : option Z) (c : RawContributor)
  : list ContributorStats :=
  match rc_author c with
  | None => []
  | Some login =>
      let kept := filter (fun w => negb (week_excluded since_ts until_ts w)) (rc_weeks c) in
      let cm := sum_Z (map w_c kept) in
      let a := sum_Z (map w_a kept) in
      let d := sum_Z (map w_d kept) in
      if (cm =? 0) && (a =? 0) && (d =? 0) then []
      else [mkContributorStats (login_of login) cm a d]
  end.

(** Sum of one field over the records named [u] of a contributor list. *)
Definition contrib_sum (f : ContributorStats -> Z) (u : string) (l : list ContributorStats) : Z :=
  sum_Z (map f (filter (fun c => String.eqb (username c) u) l)).

(** Sum of one field over every per-repository contributor record named [u]. *)
Definition repo_sum (f : ContributorStats -> Z) (u : string) (rs : list RepoStats) : Z :=
  contrib_sum f u (flat_map rs_contributors rs).

(** The invariant of the [contrib_totals] loop after the records [P]:
    one entry per username of [P], holding that username's sums. *)
Definition totals_inv (m : list (string * ContributorStats)) (P : list ContributorStats) : Prop :=
  NoDup (map fst m) /\
  (forall k, In k (map fst m) <-> In k (map username P)) /\
  (forall k c, In (k, c) m ->
     c = mkContributorStats k (contrib_sum commits k P) (contrib_sum additions k P)
                            (contrib_sum deletions k P)).

(** The filters applied to the org-level contributor list keep [c]. *)
Definition kept_by_filters (exclude_bots : bool) (min_commits : Z) (c : ContributorStats) : bool :=
  negb (exclude_bots && _is_bot (username c)) && (negb (min_commits >? 0) || (commits c >=? min_commits)).

(** The org-level record the spec expects for username [u]: each field is the
    sum of that field over the per-repository records named [u]. *)
Definition merged_record (u : string) (rs : list RepoStats) : ContributorStats :=
  mkContributorStats u (repo_sum commits u rs) (repo_sum additions u rs) (repo_sum deletions u rs).

(** The [(avg, n)] pairs of the spec's org-level latency mean, with the code's
    weight [n = total_analyzed]: one pair per repository whose average is set. *)
Definition analysed_weight_pairs (avg : PRInsights -> option Q) (all_pr : list PRInsights)
  : list (Q * Z) :=
  flat_map (fun pi => match avg pi with
                      | Some h => [(h, pr_total_analyzed pi)]
                      | None => [] end) all_pr.

(** The weighted mean [round(sum(avg_i * n_i) / sum(n_i), 1)], null when the
    weights sum to 0. *)
Definition weighted_mean (pairs : list (Q * Z)) : option Q :=
  let n := sum_Z (map snd pairs) in
  if 0 <? n
  then Some (round1 (sum_Q (map (fun p => fst p * inject_Z (snd p))%Q pairs) / inject_Z n))
  else None.

(** The number of valid merge-latency samples of a repository's pull requests. *)
Definition merge_sample_count (prs : list PullRequest) : Z :=
  Z.of_nat (List.length (pra_merge_hours (fold_left pr_step prs (mkPRAcc [] [] 0 [])))).

(** The org-level average merge latency as the claim words it: each repository's
    average weighted by its number of valid merge-latency samples. *)
Definition sample_weighted_merge_avg (repos : list (list PullRequest)) : option Q :=
  weighted_mean
    (flat_map (fun prs => match avg_merge_hours (_analyze_pr_insights prs) with
                          | Some h => [(h, merge_sample_count prs)]
                          | None => [] end) repos).

(** A pull request created at time 0 and merged [secs] seconds later, and one
    still open. *)
Definition merged_pr (login : string) (secs : Z) : PullRequest :=
  mkPullRequest false login "closed" (SAt 0) (SAt secs) (SAt secs).

Definition open_pr (login : string) : PullRequest :=
  mkPullRequest false login "open" (SAt 0) SAbsent SAbsent.

(** A repository record whose only data is the PR insight of [prs]. *)
Definition pr_repo (n : string) (prs : list PullRequest) : RepoStats :=
  mkRepoStats n ("acme/" ++ n) 0 0 0 0 0 0 [] [] 0 0 0 false None None None None None
    None (Some (_analyze_pr_insights prs)) None [].

(** The order [sort_desc] produces: non-increasing [key]. *)
Definition desc {A} (key : A -> Z) (a b : A) : Prop := key b <= key a.

(** A repository record carrying only a name and a contributor list. *)
Definition example_repo (n : string) (cs : list ContributorStats) : RepoStats :=
  mkRepoStats n ("acme/" ++ n) 0 0 0 0 0 0 [] cs 0 0 0 false None None None None None
    None None None [].

(** Every character of the string is a [\w] character. *)
Fixpoint all_word (s : string) : bool :=
  match s with
  | EmptyString => true
  | String c s' => is_word_char c && all_word s'
  end.

(** Number of commits whose message classifies as [t]. *)
Definition count_type (t : string) (cs : list Commit) : Z :=
  sum_Z (map (fun c => if String.eqb (commit_type (cm_message c)) t then 1 else 0) cs).

(** The items a page contributes: a list payload's elements, or the
    payload itself as a one-element page. *)
Definition page_items (d : json) : list json :=
  match d with JList l => l | _ => [d] end.

(** A [Link] header carries a [rel="next"] link when one of its
    comma-separated parts contains that text. *)
Definition carries_next (link_header : string) : bool :=
  existsb (contains REL_NEXT) (split_on "," link_header).

(** A finite chain of pages [(url, page)]: the first is served for the
    given params, the others for the empty params; each but the last
    carries a next link to the following url, the last carries none. *)
Fixpoint is_chain (get : string -> params -> option Page) (ps : params)
    (chain : list (string * Page)) : Prop :=
  match chain with
  | [] => False
  | [(u, pg)] => get u ps = Some pg /\ carries_next (page_link pg) = false
  | (u, pg) :: ((u', _) :: _) as rest =>
      get u ps = Some pg /\ next_link (page_link pg) = Some u' /\ is_chain get [] rest
  end.

(** The requests such a chain is fetched with, in order. *)
Definition chain_requests (ps : params) (chain : list (string * Page)) : list (string * params) :=
  match chain with
  | [] => []
  | (u, _) :: rest => (u, ps) :: map (fun x => (fst x, [])) rest
  end.

(** A three-page listing: pages 1 and 2 carry a next link, page 3 none. *)
Definition PAGE2_URL : string := "https://api.github.com/repositories/1/commits?page=2".
Definition PAGE3_URL : string := "https://api.github.com/repositories/1/commits?page=3".

Definition link_to (u : string) : string :=
  "<" ++ u ++ ">; " ++ REL_NEXT ++ ", <" ++ PAGE3_URL ++ ">; rel=" ++
  String (ascii_of_nat 34) ("last" ++ String (ascii_of_nat 34) EmptyString).

Definition example_pages : list (string * Page) :=
  [("/repos/o/r/commits", mkPage (JList [JNum 1; JNum 2]) (link_to PAGE2_URL));
   (PAGE2_URL, mkPage (JObj [("sha", JStr "c")]) (link_to PAGE3_URL));
   (PAGE3_URL, mkPage (JList [JNum 4]) EmptyString)].

(** The server of the example: each url serves its page whatever the params. *)
Definition example_get (u : string) (_ : params) : option Page :=
  match find (fun x => String.eqb (fst x) u) example_pages with
  | Some (_, pg) => Some pg
  | None => None
  end.

(** The collection of [e] raised. *)
Definition collect_failed (collect : RepoEntry -> option RepoStats) (e : RepoEntry) : bool :=
  match collect e with None => true | Some _ => false end.

(** ** Tallies ([d[k] = d.get(k, 0) + n] loops) and top-N lists *)

(** The sum of the weights given to key [k] in the [(key, weight)] list [P]. *)
Definition key_total (P : list (string * Z)) (k : string) : Z :=
  sum_Z (map snd (filter (fun kv => String.eqb (fst kv) k) P)).

(** The dict after the pairs [P]: one entry per key of [P], holding its total. *)
Definition tally_inv (m : list (string * Z)) (P : list (string * Z)) : Prop :=
  NoDup (map fst m) /\ (forall k, In k (map fst m) <-> In k (map fst P)) /\
  (forall k v, In (k, v) m -> v = key_total P k).

(** [for k, n in L: d[k] = d.get(k, 0) + n], starting from the dict [m]. *)
Definition tally (L : list (string * Z)) (m : list (string * Z)) : list (string * Z) :=
  fold_left (fun m kv => alist_add (fst kv) (snd kv) m) L m.

(** What [sorted(d.items(), key=lambda x: x[1], reverse=True)[:n]] keeps of the
    tally of [P]: at most [n] distinct keys with their totals, by decreasing
    total, none of the keys left out having a larger total. *)
Definition top_n_props (n : nat) (P : list (string * Z)) (t : list (string * Z)) : Prop :=
  (List.length t <= n)%nat /\ Sorted (fun a b => snd b <= snd a) t /\ NoDup (map fst t) /\
  (forall k v, In (k, v) t -> In k (map fst P) /\ v = key_total P k) /\
  (forall k v b, In (k, v) t -> In b (map fst P) -> ~ In b (map fst t) -> key_total P b <= v).

(** The pairs [(k, 1)] of the non-empty strings of [ks] (a [if k:] guard). *)
Definition unit_pairs (ks : list string) : list (string * Z) :=
  map (fun k => (k, 1)) (filter (fun k => negb (String.eqb k EmptyString)) ks).

(** The number of occurrences of [a] in [ks]. *)
Definition count_str (ks : list string) (a : string) : Z :=
  Z.of_nat (List.length (filter (fun k => String.eqb k a) ks)).

(** The label names of the issues whose ["labels"] is a list, in order. *)
Definition label_names (issues : list Issue) : list string :=
  flat_map (fun i => match is_labels i with Some ls => map label_name ls | None => [] end) issues.

(* ------------------------------------------------------------------ *)
(** ** Derived definitions: languages, counts, distributions, trends and dates *)

(** The [(language, bytes)] pairs of all repositories, in order: what the
    language merge of [aggregate_org_report] adds up. *)
Definition repo_lang_pairs (rs : list RepoStats) : list (string * Z) :=
  flat_map (fun r => map (fun l => (language l, bytes l)) (rs_languages r)) rs.

(** Every element is non-negative. *)
Definition all_nonneg (l : list Q) : Prop := Forall (fun h => (0 <= h)%Q) l.

(** [d.get(k, 0)] on a dict keyed by ints. *)
Fixpoint zget (k : Z) (m : list (Z * Z)) : Z :=
  match m with
  | [] => 0
  | (k', v) :: m' => if k =? k' then v else zget k m'
  end.

(** The number of occurrences of [h] in [L]. *)
Definition zcnt (L : list Z) (h : Z) : Z := Z.of_nat (count_occ Z.eq_dec L h).

(** [m] counts the elements of [L]: distinct keys, each with its number of
    occurrences, the counts adding up to the length of [L]. *)
Definition zinv (m : list (Z * Z)) (L : list Z) : Prop :=
  NoDup (map fst m) /\ (forall h c, In (h, c) m <-> In h L /\ c = zcnt L h) /\
  sum_Z (map snd m) = Z.of_nat (List.length L).

(** The number of PRs satisfying [p]. *)
Definition count_pr (p : PullRequest -> bool) (prs : list PullRequest) : Z :=
  Z.of_nat (List.length (filter p prs)).

(** [_collect_repo_stats] run on each repository with its fetched data. *)
Definition collect_all (owner : string) (since_ts until_ts : option Z)
    (inputs : list (RepoEntry * Fetches)) : list RepoStats :=
  map (fun mf => _collect_repo_stats owner (fst mf) since_ts until_ts (snd mf)) inputs.

(** The nine type counters of a commit-pattern record, added up. *)
Definition pattern_sum (p : CommitPatternStats) : Z :=
  cp_feat p + cp_fix p + cp_refactor p + cp_docs p + cp_test p + cp_chore p
  + cp_style p + cp_ci p + cp_other p.

(** The sum of the counts given to key [h] in the [(key, count)] list [P]. *)
Definition ztotal (P : list (Z * Z)) (h : Z) : Z :=
  sum_Z (map snd (filter (fun kv => fst kv =? h) P)).

(** [for h, c in P: d[h] = d.get(h, 0) + c], from the dict [m]. *)
Definition zmerge (P : list (Z * Z)) (m : list (Z * Z)) : list (Z * Z) :=
  fold_left (fun m' hc => zmap_add (fst hc) (snd hc) m') P m.

(** A trend with at least one active week and one week of span; with
    [strict], no more active weeks than weeks of span. *)
Definition trend_ok (strict : bool) (t : ContributorTrend) : Prop :=
  1 <= active_weeks t /\ 1 <= total_weeks t /\ (strict = true -> active_weeks t <= total_weeks t).

(** The org trend dict after the logins [seen]: one entry per login, keyed
    by the trend's username, each trend satisfying [trend_ok]. *)
Definition trend_map_inv (strict : bool) (m : list (string * ContributorTrend)) (seen : list string) : Prop :=
  NoDup (map fst m) /\
  (forall k, In k (map fst m) <-> In k seen) /\
  (forall k v, In (k, v) m -> trend_username v = k /\ trend_ok strict v).

(** The calendar facts checked for day [doe] of a 400-year era: the date is
    valid, its year lies in the era and it converts back to the same day. *)
Definition era_ok (doe : Z) : bool :=
  let '(y, m, d) := civil_from_days (doe - 719468) in
  let y0 := if m <=? 2 then y - 1 else y in
  (1 <=? m) && (m <=? 12) && (1 <=? d) && (d <=? days_in_month y m) &&
  (0 <=? y0) && (y0 <=? 399) && (days_from_civil y m d =? doe - 719468) &&
  (if y =? 400 then 2932896 <? doe - 719468 + 24 * 146097 else true).

(** [g k && g (k + 1) && ...] over [n] consecutive integers. *)
Fixpoint all_below (g : Z -> bool) (n : nat) (k : Z) : bool :=
  match n with O => true | S n' => g k && all_below g n' (k + 1) end.

(** The value of a string of decimal digits; [None] on any other character. *)
Fixpoint dval (acc : Z) (s : string) : option Z :=
  match s with
  | EmptyString => Some acc
  | String c s' => match digit_val c with Some v => dval (acc * 10 + v) s' | None => None end
  end.

(** [pad_int w n] has [w] characters and reads back as [n]. *)
Definition pad_ok (w : nat) (n : Z) : bool :=
  Nat.eqb (String.length (pad_int w n)) w &&
  match dval 0 (pad_int w n) with Some v => v =? n | None => false end.

(* ------------------------------------------------------------------ *)
(** ** The sleep schedule of [get_contributor_stats] *)

(** [ESleep (backoff a)], ..., [ESleep (backoff (a + k - 1))]. *)
Definition sleeps_from (a k : nat) : list Effect :=
  map (fun i => ESleep (backoff i)) (seq a k).

(** What follows the sleeps: nothing, or one cache write of a non-empty
    list when the cache is on. *)
Definition cache_tail (cache_on : bool) (tail : list Effect) : Prop :=
  tail = [] \/ exists v, v <> [] /\ cache_on = true /\ tail = [ECacheSet v].

(* ------------------------------------------------------------------ *)
(** ** [Link] headers as GitHub writes them *)

(** The double quote character. *)
Definition QUOTE : string := String (ascii_of_nat 34) EmptyString.

(** One entry of a [Link] header as GitHub writes it: [<url>; rel="rel"]. *)
Definition link_entry (u r : string) : string :=
  "<" ++ u ++ ">; rel=" ++ QUOTE ++ r ++ QUOTE.

(** A [Link] header: the entries joined by [", "]. *)
Fixpoint link_header (entries : list (string * string)) : string :=
  match entries with
  | [] => ""
  | [(u, r)] => link_entry u r
  | (u, r) :: es => link_entry u r ++ ", " ++ link_header es
  end.

(** [all(f(c) for c in s)]. *)
Fixpoint str_forallb (f : ascii -> bool) (s : string) : bool :=
  match s with
  | EmptyString => true
  | String c s' => f c && str_forallb f s'
  end.

(** [c != c']. *)
Definition not_char (c' : ascii) (c : ascii) : bool := negb (Ascii.eqb c c').

(** A URL as it appears in a [Link] entry: no [,], [;], angle bracket or
    double quote. *)
Definition link_url_ok (u : string) : bool :=
  str_forallb (fun c => not_char "," c && not_char ";" c && negb (is_angle c)
                        && not_char (ascii_of_nat 34) c) u.

(** A relation name: no [,] and no double quote. *)
Definition link_rel_ok (r : string) : bool :=
  str_forallb (fun c => not_char "," c && not_char (ascii_of_nat 34) c) r.

(** The value [next_link] takes from the part it selects. *)
Definition link_target (part : string) : string :=
  strip is_angle (strip is_space (hd EmptyString (split_on ";" part))).

(** No double quote in the string. *)
Definition qfree (s : string) : bool := str_forallb (not_char (ascii_of_nat 34)) s.

(** An entry whose URL and relation satisfy [link_url_ok] and [link_rel_ok]. *)
Definition link_entry_ok (e : string * string) : bool :=
  link_url_ok (fst e) && link_rel_ok (snd e).

(* ------------------------------------------------------------------ *)
(** ** Bars of the terminal report ([renderer.py]) *)

(** [round(x)] on the exact value: nearest integer, ties to even. *)
Definition py_round (x : Q) : Z :=
  let f := Qfloor x in
  let r := (x - inject_Z f)%Q in
  if Qlt_le_dec r (1 # 2) then f
  else if Qeq_dec r (1 # 2) then (if Z.even f then f else f + 1)
  else f + 1.

(** The two block characters of the bars: U+2588 and U+2591. *)
Inductive BarCell := FullBlock | LightShade.

(** [c * n] for a one-character string [c]: empty when [n <= 0]. *)
Definition str_repeat (c : BarCell) (n : Z) : list BarCell := repeat c (Z.to_nat n).

(** [_make_bar(percentage, width)]. *)
Definition _make_bar (percentage : Q) (width : Z) : list BarCell :=
  let filled := py_round (percentage / 100 * inject_Z width)%Q in
  (str_repeat FullBlock filled ++ str_repeat LightShade (width - filled))%list.

(** [_make_inline_bar(count, max_count, width)]. *)
Definition _make_inline_bar (count max_count width : Z) : list BarCell :=
  if max_count =? 0 then []
  else str_repeat FullBlock (py_round (inject_Z count / inject_Z max_count * inject_Z width)%Q).

(** The number of [FullBlock] cells of a bar. *)
Definition full_cells (l : list BarCell) : nat :=
  List.length (filter (fun c => match c with FullBlock => true | LightShade => false end) l).

(* ------------------------------------------------------------------ *)
(** ** Relative dates of the command line ([cli.py]) *)

(** [\d] on a character below 256: the ASCII digits. *)
Definition is_digit (c : ascii) : bool :=
  match digit_val c with Some _ => true | None => false end.

(** The greedy [\d+]: the leading digits and the rest. *)
Fixpoint span_digits (s : string) : string * string :=
  match s with
  | String c s' =>
      if is_digit c then let (ds, rest) := span_digits s' in (String c ds, rest)
      else (EmptyString, s)
  | EmptyString => (EmptyString, EmptyString)
  end.

(** [int(ds)] for a string of decimal digits. *)
Fixpoint int_of_digits (acc : Z) (s : string) : Z :=
  match s with
  | String c s' =>
      match digit_val c with
      | Some v => int_of_digits (acc * 10 + v) s'
      | None => acc
      end
  | EmptyString => acc
  end.

(** [[dwmy]]. *)
Definition is_unit (c : ascii) : bool :=
  Ascii.eqb c "d" || Ascii.eqb c "w" || Ascii.eqb c "m" || Ascii.eqb c "y".

(** The newline character. *)
Definition NEWLINE : string := String (ascii_of_nat 10) EmptyString.

(** [re.match(r"^(\d+)([dwmy])$", value)]: the amount and the unit.
    [$] also matches just before a final newline. *)
Definition match_relative (value : string) : option (Z * ascii) :=
  let (ds, rest) := span_digits value in
  match ds, rest with
  | EmptyString, _ => None
  | _, String u tail =>
      if is_unit u && (String.eqb tail "" || String.eqb tail NEWLINE)
      then Some (int_of_digits 0 ds, u) else None
  | _, EmptyString => None
  end.

(** The length in days of [timedelta(days=...)], [timedelta(weeks=...)]. *)
Definition unit_days (u : ascii) (amount : Z) : Z :=
  if Ascii.eqb u "d" then amount
  else if Ascii.eqb u "w" then amount * 7
  else if Ascii.eqb u "m" then amount * 30
  else amount * 365.

(** A result, or the [OverflowError] that [timedelta] and [datetime]
    raise out of their range. *)
Inductive Raises (A : Type) := Returns (a : A) | RaisesOverflow.

Arguments Returns {A} a.

Arguments RaisesOverflow {A}.

(** [_parse_relative_date(value)] when [datetime.now()] falls on day
    [today] (days since 1970-01-01); a timedelta holds at most 999999999
    days and a datetime is at least 0001-01-01. *)
Definition _parse_relative_date (value : string) (today : Z) : Raises (option string) :=
  match match_relative value with
  | None => Returns None
  | Some (amount, u) =>
      let days := unit_days u amount in
      if 999999999 <? days then RaisesOverflow
      else if today - days <? days_from_civil 1 1 1 then RaisesOverflow
      else Returns (Some (format_date ((today - days) * 86400)))
  end.

(** [_resolve_date(value)]. *)
Definition _resolve_date (value : option string) (today : Z) : Raises (option string) :=
  match value with
  | None => Returns None
  | Some v =>
      match _parse_relative_date v today with
      | Returns (Some parsed) => Returns (Some parsed)
      | Returns None => Returns (Some v)
      | RaisesOverflow => RaisesOverflow
      end
  end.

(** A repository record carrying only a name and contributor trends. *)
Definition trend_repo (n : string) (ts : list ContributorTrend) : RepoStats :=
  mkRepoStats n ("acme/" ++ n) 0 0 0 0 0 0 [] [] 0 0 0 false None None None None None
    None None None ts.

(* ================================================================== *)
(** * Proofs *)

(** ** Sorting *)

Section Sorting.
Context {A : Type} (key : A -> Z).

Lemma insert_desc_perm : forall x l, Permutation (insert_desc key x l) (x :: l).
Proof.
  intros x l; induction l as [|y l IH]; simpl; [reflexivity|].
  destruct (key y <? key x); [reflexivity|].
  rewrite IH; apply perm_swap.
Qed.

Lemma sort_desc_fold_perm : forall l acc,
  Permutation (fold_left (fun acc x => insert_desc key x acc) l acc) (l ++ acc).
Proof.
  induction l as [|x l IH]; intros acc; simpl; [reflexivity|].
  rewrite IH, insert_desc_perm. symmetry; apply Permutation_middle.
Qed.

Lemma sort_desc_perm : forall l, Permutation (sort_desc key l) l.
Proof.
  intros l; unfold sort_desc; rewrite sort_desc_fold_perm, app_nil_r; reflexivity.
Qed.


Lemma insert_desc_sorted : forall x l, Sorted (desc key) l -> Sorted (desc key) (insert_desc key x l).
Proof.
  intros x l; induction l as [|y l IH]; intros Hs; simpl.
  - repeat constructor.
  - destruct (key y <? key x) eqn:E.
    + apply Z.ltb_lt in E. constructor; [exact Hs|]. constructor. unfold desc; lia.
    + apply Z.ltb_ge in E. apply Sorted_inv in Hs as [Hs Hh].
      constructor; [apply IH, Hs|].
      destruct l as [|z l]; simpl.
      * constructor; unfold desc; lia.
      * inversion Hh; subst. destruct (key z <? key x); constructor; unfold desc in *; lia.
Qed.

Lemma sort_desc_sorted : forall l, Sorted (desc key) (sort_desc key l).
Proof.
  intros l. unfold sort_desc.
  assert (G : forall acc, Sorted (desc key) acc ->
              Sorted (desc key) (fold_left (fun acc x => insert_desc key x acc) l acc)).
  { induction l as [|x l IH]; intros acc Hs; simpl; [exact Hs|].
    apply IH, insert_desc_sorted, Hs. }
  apply G; constructor.
Qed.
End Sorting.

Lemma sum_Z_app : forall l1 l2, sum_Z (l1 ++ l2) = sum_Z l1 + sum_Z l2.
Proof. induction l1; intros; simpl; [reflexivity|]. unfold sum_Z in *; simpl; rewrite IHl1; lia. Qed.

Lemma sum_Z_perm : forall l1 l2, Permutation l1 l2 -> sum_Z l1 = sum_Z l2.
Proof.
  intros l1 l2 P; induction P; unfold sum_Z in *; simpl; lia.
Qed.

(** ** The collector's contributor block *)

Lemma week_kept_excluded : forall s u w,
  week_kept s u w = negb (week_excluded s u w).
Proof.
  intros s u w; unfold week_kept, week_excluded.
  destruct s as [s|], u as [u|]; simpl; try reflexivity;
    rewrite ?negb_orb, ?Z.gtb_ltb; reflexivity.
Qed.

Lemma contributor_fold : forall s u raw acc,
  fold_left (contributor_step s u) raw acc =
  mkContribAcc (acc_contributors acc ++ flat_map (window_contributor s u) raw)
    (acc_total_additions acc + sum_Z (map additions (flat_map (window_contributor s u) raw)))
    (acc_total_deletions acc + sum_Z (map deletions (flat_map (window_contributor s u) raw))).
Proof.
  intros s u raw; induction raw as [|c raw IH]; intros acc; simpl.
  - destruct acc; simpl; rewrite app_nil_r; f_equal; lia.
  - rewrite IH. unfold contributor_step, window_contributor.
    assert (Hf : filter (week_kept s u) (rc_weeks c)
                 = filter (fun w => negb (week_excluded s u w)) (rc_weeks c)).
    { apply filter_ext; intros; apply week_kept_excluded. }
    destruct (rc_author c) as [login|]; simpl; rewrite ?Hf.
    + destruct (_ && _ && _); simpl.
      * reflexivity.
      * rewrite <- app_assoc. f_equal; simpl; unfold sum_Z; simpl; lia.
    + reflexivity.
Qed.

Lemma window_contributor_nonzero : forall s u raw c,
  In c (flat_map (window_contributor s u) raw) ->
  ~ (commits c = 0 /\ additions c = 0 /\ deletions c = 0).
Proof.
  intros s u raw c Hin. apply in_flat_map in Hin as [rc [_ Hin]].
  unfold window_contributor in Hin.
  destruct (rc_author rc) as [login|]; [|contradiction].
  set (ws := filter _ (rc_weeks rc)) in Hin.
  destruct (sum_Z (map w_c ws) =? 0) eqn:E1, (sum_Z (map w_a ws) =? 0) eqn:E2,
    (sum_Z (map w_d ws) =? 0) eqn:E3; simpl in Hin; try contradiction;
    destruct Hin as [<-|[]]; simpl; rewrite ?Z.eqb_neq in *; intros (?&?&?); lia.
Qed.

(** C3.  The collector drops a week exactly when its 7-day span ends at or
    before [since] or it starts after [until]; each contributor's record
    holds the sums over its remaining weeks and is left out when all three
    sums are zero (a record depends on its own weeks only); the list is
    sorted by commit count, descending. *)
Theorem collector_contributors_window : forall since_ts until_ts raw,
  let out := acc_contributors (collect_contributors since_ts until_ts (Some raw)) in
  (forall w, week_kept since_ts until_ts w = false <->
     ((exists s, since_ts = Some s /\ w_w w + 7 * 86400 <= s) \/
      (exists u, until_ts = Some u /\ u < w_w w))) /\
  Permutation out (flat_map (window_contributor since_ts until_ts) raw) /\
  Forall (fun c => ~ (commits c = 0 /\ additions c = 0 /\ deletions c = 0)) out /\
  Sorted (fun a b => commits b <= commits a) out.
Proof.
  intros s u raw out.
  assert (HP : Permutation out (flat_map (window_contributor s u) raw)).
  { unfold out, collect_contributors. rewrite contributor_fold; simpl.
    apply sort_desc_perm. }
  split; [|split; [exact HP|split]].
  - intros w. unfold week_kept.
    destruct s as [s|], u as [u|]; simpl;
      rewrite ?andb_false_iff, ?negb_false_iff, ?Z.leb_le, ?Z.gtb_lt, ?andb_true_r;
      split; intros H;
      repeat match goal with
             | H : _ \/ _ |- _ => destruct H
             | H : exists _, _ |- _ => destruct H as [? [Heq ?]]; inversion Heq; subst
             end;
      try discriminate;
      first [ left; eexists; split; [reflexivity|]; assumption
            | right; eexists; split; [reflexivity|]; assumption
            | left; assumption | right; assumption | assumption
            | destruct H as [H|H]; (left + right); eexists; split; [reflexivity|]; assumption ].
  - apply Forall_forall. intros c Hc.
    apply (window_contributor_nonzero s u raw), (Permutation_in _ HP), Hc.
  - unfold out, collect_contributors; simpl.
    apply (sort_desc_sorted commits).
Qed.

Lemma collect_contributors_totals : forall s u raw,
  let acc := collect_contributors s u raw in
  acc_total_additions acc = sum_Z (map additions (acc_contributors acc)) /\
  acc_total_deletions acc = sum_Z (map deletions (acc_contributors acc)).
Proof.
  intros s u [raw|] acc; unfold acc, collect_contributors; [|split; reflexivity].
  rewrite contributor_fold; simpl.
  split; apply sum_Z_perm, Permutation_map; symmetry; apply sort_desc_perm.
Qed.

(** C9.  Every RepoStats built by the collector has [total_additions] and
    [total_deletions] equal to the sums of [additions] and [deletions]
    over its contributor list; when the contributor-stats fetch raised,
    the list is empty and both totals are zero. *)
Theorem collector_totals_match_contributors : forall owner meta s u f,
  let r := _collect_repo_stats owner meta s u f in
  let r0 := _collect_repo_stats owner meta s u
              (mkFetches (f_commits f) (f_languages f) None (f_prs f) (f_issues f)) in
  rs_total_additions r = sum_Z (map additions (rs_contributors r)) /\
  rs_total_deletions r = sum_Z (map deletions (rs_contributors r)) /\
  rs_contributors r0 = [] /\ rs_total_additions r0 = 0 /\ rs_total_deletions r0 = 0.
Proof.
  intros owner meta s u f r r0.
  unfold r, r0, _collect_repo_stats; simpl.
  destruct (pr_counts (or_empty (f_prs f))) as [op mp]; simpl.
  destruct (collect_contributors_totals s u (Some (or_empty (f_contributors f)))) as [H1 H2].
  repeat split; assumption || reflexivity.
Qed.

(** ** Commit pattern analysis *)

Lemma leading_word_spec : forall s w r,
  leading_word s = (w, r) ->
  s = w ++ r /\ all_word w = true /\
  match r with String c _ => is_word_char c = false | EmptyString => True end.
Proof.
  induction s as [|c s IH]; intros w r H; simpl in H.
  - inversion H; subst; simpl; auto.
  - destruct (is_word_char c) eqn:Ec.
    + destruct (leading_word s) as [w' r'] eqn:E. inversion H; subst.
      destruct (IH _ _ eq_refl) as (-> & Hw & Hr). simpl; rewrite Ec, Hw; auto.
    + inversion H; subst; simpl; auto.
Qed.

Lemma leading_word_app : forall w c rest,
  all_word w = true -> is_word_char c = false ->
  leading_word (w ++ String c rest) = (w, String c rest).
Proof.
  induction w as [|a w IH]; intros c rest Hw Hc; simpl in *.
  - rewrite Hc; reflexivity.
  - apply andb_true_iff in Hw as [Ha Hw]. rewrite Ha, (IH c rest Hw Hc). reflexivity.
Qed.

Lemma conventional_prefix_spec : forall msg w,
  conventional_prefix msg = Some w <->
  exists c rest, msg = w ++ String c rest /\ w <> EmptyString /\ all_word w = true /\
                 (c = "("%char \/ c = ":"%char \/ c = "!"%char).
Proof.
  intros msg w; split.
  - unfold conventional_prefix. destruct (leading_word msg) as [w' r] eqn:E.
    destruct (leading_word_spec _ _ _ E) as (-> & Hw & Hr).
    destruct w' as [|a w']; [discriminate|].
    destruct r as [|c rest]; [discriminate|].
    destruct (Ascii.eqb c "(" || Ascii.eqb c ":" || Ascii.eqb c "!") eqn:Ec; [|discriminate].
    intros H; inversion H; subst.
    exists c, rest; repeat split; auto; [discriminate|].
    rewrite !orb_true_iff, !Ascii.eqb_eq in Ec. tauto.
  - intros (c & rest & -> & Hne & Hw & Hc).
    unfold conventional_prefix.
    assert (Hcw : is_word_char c = false) by (destruct Hc as [->|[->| ->]]; reflexivity).
    rewrite (leading_word_app _ _ _ Hw Hcw).
    destruct w as [|a w]; [congruence|].
    destruct Hc as [->|[->| ->]]; reflexivity.
Qed.

Lemma commit_type_cases : forall msg,
  commit_type msg = "feat" \/ commit_type msg = "fix" \/ commit_type msg = "refactor" \/
  commit_type msg = "docs" \/ commit_type msg = "test" \/ commit_type msg = "chore" \/
  commit_type msg = "style" \/ commit_type msg = "ci" \/ commit_type msg = "other".
Proof.
  intros msg; unfold commit_type.
  destruct (conventional_prefix msg) as [w|]; [|tauto].
  destruct (existsb (String.eqb (lower w)) _CONVENTIONAL_TYPES) eqn:E; [|tauto].
  apply existsb_exists in E as [t [Hin Heq]]. apply String.eqb_eq in Heq. rewrite Heq.
  simpl in Hin; intuition congruence.
Qed.

Lemma alist_get_set : forall {V} k k' (v : V) m,
  alist_get k (alist_set k' v m) = if String.eqb k k' then Some v else alist_get k m.
Proof.
  intros V k k' v m; induction m as [|[k0 v0] m IH]; simpl.
  - reflexivity.
  - destruct (String.eqb k' k0) eqn:E1; simpl.
    + apply String.eqb_eq in E1; subst. destruct (String.eqb k k0); reflexivity.
    + rewrite IH. destruct (String.eqb k k0) eqn:E2, (String.eqb k k') eqn:E3; try reflexivity.
      apply String.eqb_eq in E2, E3; subst. rewrite String.eqb_refl in E1; discriminate.
Qed.

Lemma count_of_add : forall k k' n m,
  count_of k (alist_add k' n m) = count_of k m + (if String.eqb k k' then n else 0).
Proof.
  intros k k' n m; unfold count_of, alist_add.
  destruct (alist_get k' m) as [v|] eqn:E; rewrite alist_get_set;
    destruct (String.eqb k k') eqn:Ek; try lia.
  - apply String.eqb_eq in Ek; subst; rewrite E; lia.
  - apply String.eqb_eq in Ek; subst; rewrite E; lia.
Qed.

Lemma pattern_fold_counts : forall k cs st,
  count_of k (pa_counts (fold_left pattern_step cs st)) = count_of k (pa_counts st) + count_type k cs.
Proof.
  intros k cs; induction cs as [|c cs IH]; intros st; simpl.
  - unfold count_type; simpl; lia.
  - rewrite IH. unfold count_type; simpl. fold (count_type k cs).
    assert (Hc : pa_counts (pattern_step st c) = alist_add (commit_type (cm_message c)) 1 (pa_counts st))
      by (unfold pattern_step; destruct (cm_date c) as [[? ?]|]; reflexivity).
    rewrite Hc, count_of_add, (String.eqb_sym k). unfold sum_Z; simpl; lia.
Qed.

Lemma count_types_total : forall cs,
  count_type "feat" cs + count_type "fix" cs + count_type "refactor" cs + count_type "docs" cs
  + count_type "test" cs + count_type "chore" cs + count_type "style" cs + count_type "ci" cs
  + count_type "other" cs = Z.of_nat (List.length cs).
Proof.
  induction cs as [|c cs IH]; [reflexivity|].
  assert (Hstep : forall t, count_type t (c :: cs)
            = (if String.eqb (commit_type (cm_message c)) t then 1 else 0) + count_type t cs)
    by reflexivity.
  rewrite !Hstep; simpl List.length; rewrite Nat2Z.inj_succ, <- IH.
  destruct (commit_type_cases (cm_message c)) as [H|[H|[H|[H|[H|[H|[H|[H|H]]]]]]]];
    rewrite H; cbn [String.eqb Ascii.eqb Bool.eqb]; lia.
Qed.

(** C8 (counterexample).  The parsed word is lower-cased before the
    lookup: "Fix: typo" has the leading word "Fix", which is not one of
    the eight type names, yet it is counted as [fix] and not as [other]. *)
Lemma commit_patterns_uppercase_counterexample :
  conventional_prefix "Fix: typo" = Some "Fix" /\
  ~ In "Fix" _CONVENTIONAL_TYPES /\
  cp_fix (_analyze_commit_patterns [mkCommit "Fix: typo" None]) = 1 /\
  cp_other (_analyze_commit_patterns [mkCommit "Fix: typo" None]) = 0.
Proof.
  split; [reflexivity|]. split; [|split; reflexivity].
  simpl; intuition discriminate.
Qed.

(** C8 (amended).  A message has a conventional prefix exactly when it
    starts with a non-empty run of word characters followed by one of
    [(], [:], [!]; it is classified as that word lower-cased when the
    lower-cased word is one of the eight type names, and as [other]
    otherwise or without a prefix.  The three examples of the spec hold,
    each of the nine counters counts the commits of its type, and the nine
    counters sum to [total]. *)
Theorem commit_patterns_classification :
  (forall msg w, conventional_prefix msg = Some w <->
     exists c rest, msg = w ++ String c rest /\ w <> EmptyString /\ all_word w = true /\
                    (c = "("%char \/ c = ":"%char \/ c = "!"%char)) /\
  (forall msg, commit_type msg =
     match conventional_prefix msg with
     | Some w => if existsb (String.eqb (lower w)) _CONVENTIONAL_TYPES then lower w else "other"
     | None => "other"
     end) /\
  commit_type "fix(auth): token expiry" = "fix" /\
  commit_type "refactor!: redesign API" = "refactor" /\
  commit_type "random commit message" = "other" /\
  (forall cs, let p := _analyze_commit_patterns cs in
     cp_feat p = count_type "feat" cs /\ cp_fix p = count_type "fix" cs /\
     cp_refactor p = count_type "refactor" cs /\ cp_docs p = count_type "docs" cs /\
     cp_test p = count_type "test" cs /\ cp_chore p = count_type "chore" cs /\
     cp_style p = count_type "style" cs /\ cp_ci p = count_type "ci" cs /\
     cp_other p = count_type "other" cs /\
     cp_feat p + cp_fix p + cp_refactor p + cp_docs p + cp_test p + cp_chore p
       + cp_style p + cp_ci p + cp_other p = cp_total p).
Proof.
  split; [exact conventional_prefix_spec|].
  split; [reflexivity|].
  split; [reflexivity|]. split; [reflexivity|]. split; [reflexivity|].
  intros cs p.
  assert (Hk : forall k, count_of k (pa_counts (fold_left pattern_step cs
             (mkPatternAcc (map (fun t => (t, 0)) _CONVENTIONAL_TYPES ++ [("other", 0)]) [] [])))
             = count_of k (map (fun t => (t, 0)) _CONVENTIONAL_TYPES ++ [("other", 0)])
               + count_type k cs)
    by (intros; apply pattern_fold_counts).
  unfold p, _analyze_commit_patterns; cbn zeta.
  rewrite !Hk. cbn [cp_feat cp_fix cp_refactor cp_docs cp_test cp_chore cp_style cp_ci cp_other cp_total].
  rewrite <- count_types_total.
  cbn [count_of alist_get map app String.eqb Ascii.eqb Bool.eqb _CONVENTIONAL_TYPES].
  repeat split; lia.
Qed.

(** ** Rate governor *)

Lemma wait_seconds_pos : forall x : Q, (0 < Qmax 0 x + 1)%Q.
Proof.
  intros x. apply Qlt_le_trans with (0 + 1)%Q; [reflexivity|].
  apply Qplus_le_l, Q.le_max_l.
Qed.

(** C6.  [wait_if_needed] sleeps exactly when the remaining count is
    known and at most the threshold and the reset time is known; the
    sleep is [max(0, reset - now) + 1] seconds capped at 3600; it returns
    at once when either signal is unknown (or the count is above the
    threshold); a new monitor has threshold 10.  The function is total:
    it has no failing path. *)
Theorem wait_if_needed_spec : forall st now d,
  (wait_if_needed st now = Some d <->
     exists r reset, _remaining st = Some r /\ r <= _threshold st /\
                     _reset_at st = Some reset /\
                     d = Qmin (Qmax 0 (reset - now) + 1) 3600) /\
  (wait_if_needed st now = None <->
     _remaining st = None \/ _reset_at st = None \/
     exists r, _remaining st = Some r /\ _threshold st < r) /\
  _threshold new_monitor = 10 /\ _remaining new_monitor = None /\ _reset_at new_monitor = None.
Proof.
  intros [rem reset th] now d; unfold wait_if_needed; simpl.
  split; [|split; [|repeat split]].
  - destruct rem as [r|].
    + destruct (r <=? th) eqn:E.
      * destruct reset as [reset|].
        -- destruct (Qlt_le_dec 0 (Qmax 0 (reset - now) + 1)) as [Hp|Hn].
           ++ split.
              ** intros H; inversion H; subst. exists r, reset. apply Z.leb_le in E. auto.
              ** intros (r' & reset' & H1 & H2 & H3 & H4). inversion H1; inversion H3; subst; reflexivity.
           ++ exfalso. apply (Qle_not_lt _ _ Hn), wait_seconds_pos.
        -- split; [discriminate|]. intros (r' & reset' & _ & _ & H & _); discriminate.
      * split; [discriminate|]. intros (r' & reset' & H1 & H2 & _). inversion H1; subst.
        apply Z.leb_gt in E; lia.
    + split; [discriminate|]. intros (r' & reset' & H & _); discriminate.
  - destruct rem as [r|].
    + destruct (r <=? th) eqn:E.
      * destruct reset as [reset|].
        -- destruct (Qlt_le_dec 0 (Qmax 0 (reset - now) + 1)) as [Hp|Hn].
           ++ split; [discriminate|]. intros [H|[H|(r' & H1 & H2)]]; try discriminate.
              inversion H1; subst. apply Z.leb_le in E; lia.
           ++ exfalso. apply (Qle_not_lt _ _ Hn), wait_seconds_pos.
        -- split; auto.
      * split; [|reflexivity]. intros _; right; right; exists r; split; [reflexivity|].
        apply Z.leb_gt in E; exact E.
    + split; auto.
Qed.

(** ** Pagination *)

Lemma next_link_none : forall h, next_link h = None <-> carries_next h = false.
Proof.
  intros h; unfold next_link, carries_next.
  destruct (find (contains REL_NEXT) (split_on "," h)) as [part|] eqn:E.
  - split; [discriminate|]. intros Hx.
    apply find_some in E as [Hin Hc].
    assert (existsb (contains REL_NEXT) (split_on "," h) = true)
      by (apply existsb_exists; eauto).
    congruence.
  - split; [intros _|reflexivity].
    apply not_true_is_false; intros Hx. apply existsb_exists in Hx as [x [Hin Hc]].
    pose proof (find_none _ _ E x Hin). congruence.
Qed.

Lemma paginate_loop_chain : forall get rest u pg ps results fuel,
  is_chain get ps ((u, pg) :: rest) -> (S (List.length rest) <= fuel)%nat ->
  paginate_loop get fuel u ps results =
  (chain_requests ps ((u, pg) :: rest),
   PgDone (results ++ List.concat (map (fun x => page_items (page_data (snd x))) ((u, pg) :: rest)))%list).
Proof.
  intros get rest; induction rest as [|[u' pg'] rest IH]; intros u pg ps results fuel Hc Hf.
  - destruct fuel as [|f]; [lia|]. simpl in Hc. destruct Hc as [Hg Hn].
    apply next_link_none in Hn. simpl. rewrite Hg, Hn.
    simpl. rewrite app_nil_r. destruct (page_data pg); reflexivity.
  - destruct fuel as [|f]; [lia|]. destruct Hc as [Hg [Hn Hc]].
    simpl. rewrite Hg, Hn.
    assert (Hr : (match page_data pg with JList l => results ++ l | d => results ++ [d] end)%list
                 = (results ++ page_items (page_data pg))%list)
      by (destruct (page_data pg); reflexivity).
    rewrite Hr, (IH u' pg' [] _ f Hc ltac:(simpl in Hf; lia)).
    simpl. rewrite <- app_assoc. reflexivity.
Qed.

(** C7.  For a finite chain of pages where each page but the last carries
    a [rel="next"] link to the next one and the last carries none,
    [_paginate] sends exactly one request per page, in chain order (the
    first with the caller's params plus [per_page], the rest with empty
    params), stops after the last page, and returns the concatenation of
    the pages' items in page order, a non-list payload counting as a
    one-item page.  A header has no next link exactly when no part
    contains [rel="next"]. *)
Theorem paginate_chain : forall get p chain fuel,
  is_chain get (setdefault_per_page p) chain ->
  (List.length chain <= fuel)%nat ->
  (forall h, next_link h = None <-> carries_next h = false) /\
  _paginate get fuel (fst (hd (EmptyString, mkPage JNull EmptyString) chain)) p =
  (chain_requests (setdefault_per_page p) chain,
   PgDone (List.concat (map (fun x => page_items (page_data (snd x))) chain))).
Proof.
  intros get p chain fuel Hc Hf. split; [exact next_link_none|].
  destruct chain as [|[u pg] rest]; [contradiction|].
  unfold _paginate; simpl fst.
  rewrite (paginate_loop_chain get rest u pg _ [] fuel Hc Hf). reflexivity.
Qed.

Lemma paginate_chain_witness :
  (is_chain example_get (setdefault_per_page []) example_pages /\
   (List.length example_pages <= 3)%nat) /\
  ((forall h, next_link h = None <-> carries_next h = false) /\
   _paginate example_get 3 "/repos/o/r/commits" [] =
   (chain_requests (setdefault_per_page []) example_pages,
    PgDone (List.concat (map (fun x => page_items (page_data (snd x))) example_pages)))).
Proof.
  assert (Hc : is_chain example_get (setdefault_per_page []) example_pages)
    by (vm_compute; repeat split; reflexivity).
  split; [split; [exact Hc | simpl; lia]|].
  exact (paginate_chain example_get [] example_pages 3 Hc ltac:(simpl; lia)).
Defined.

(** The three-page example fetched: three requests, items in page order. *)
Example paginate_three_pages :
  _paginate example_get 10 "/repos/o/r/commits" [] =
  ([("/repos/o/r/commits", [("per_page", "100")]); (PAGE2_URL, []); (PAGE3_URL, [])],
   PgDone [JNum 1; JNum 2; JObj [("sha", JStr "c")]; JNum 4]).
Proof. vm_compute. reflexivity. Qed.

(** ** Contributor-stats retries *)

Lemma stats_loop_cache_sets : forall retries response cache_on n attempt v,
  In (ECacheSet v) (fst (stats_loop retries response cache_on n attempt)) ->
  v <> [] /\ exists k status, (attempt <= k < attempt + n)%nat /\
    200 <= status < 300 /\ status <> 202 /\ status <> 204 /\
    response k = Response status (JList v).
Proof.
  intros retries response cache_on n; induction n as [|n IH]; intros attempt v Hin;
    simpl in Hin; [contradiction|].
  destruct (response attempt) as [|status body] eqn:Er; [contradiction|].
  destruct (negb ((200 <=? status) && (status <? 300))) eqn:E2xx.
  - destruct ((status =? 202) && can_retry retries attempt) eqn:Er2; [|contradiction].
    destruct (stats_loop retries response cache_on n (S attempt)) as [es o] eqn:Es.
    simpl in Hin. destruct Hin as [Hin|Hin]; [discriminate|].
    assert (Hin' : In (ECacheSet v) (fst (stats_loop retries response cache_on n (S attempt))))
      by (rewrite Es; exact Hin).
    destruct (IH _ _ Hin') as [Hne (k & st & Hk & Hrest)].
    split; [exact Hne|]. exists k, st; split; [lia|exact Hrest].
  - destruct (status =? 204) eqn:E204; [contradiction|].
    destruct (status =? 202) eqn:E202.
    + destruct (can_retry retries attempt); [|contradiction].
      destruct (stats_loop retries response cache_on n (S attempt)) as [es o] eqn:Es.
      simpl in Hin. destruct Hin as [Hin|Hin]; [discriminate|].
      assert (Hin' : In (ECacheSet v) (fst (stats_loop retries response cache_on n (S attempt))))
        by (rewrite Es; exact Hin).
      destruct (IH _ _ Hin') as [Hne (k & st & Hk & Hrest)].
      split; [exact Hne|]. exists k, st; split; [lia|exact Hrest].
    + simpl in Hin.
      destruct cache_on; simpl in Hin; [|contradiction].
      destruct body as [| | | |l|]; simpl in Hin; try contradiction.
      destruct l as [|x l]; simpl in Hin; [contradiction|].
      destruct Hin as [Hin|[]]. inversion Hin; subst.
      split; [discriminate|]. exists attempt, status.
      apply negb_false_iff, andb_true_iff in E2xx as [Ha Hb].
      apply Z.leb_le in Ha; apply Z.ltb_lt in Hb.
      apply Z.eqb_neq in E204, E202.
      split; [lia|]. repeat split; auto.
Qed.

(** C5.  In the retry loop of [get_contributor_stats] (attempt [k] of
    [retries], [retries - k] iterations left): a 204 returns an empty
    list at once; a 202 before the last attempt sleeps
    [min(2^(k+1), 30)] seconds and goes on with attempt [k+1]; a 202 on
    the last attempt returns an empty list; a successful response whose
    body is not a list returns an empty list; and the cache is written
    only with a non-empty list that a successful (2xx, not 202 or 204)
    response carried. *)
Theorem contributor_stats_retry : forall retries response cache_on,
  (forall k b, (k < retries)%nat -> response k = Response 204 b ->
     stats_loop retries response cache_on (retries - k) k = ([], SReturn (JList []))) /\
  (forall k b, (S k < retries)%nat -> response k = Response 202 b ->
     stats_loop retries response cache_on (retries - k) k =
     (ESleep (Z.min (2 ^ (Z.of_nat k + 1)) 30)
        :: fst (stats_loop retries response cache_on (retries - S k) (S k)),
      snd (stats_loop retries response cache_on (retries - S k) (S k)))) /\
  (forall b, (0 < retries)%nat -> response (retries - 1)%nat = Response 202 b ->
     stats_loop retries response cache_on (retries - (retries - 1)) (retries - 1)
     = ([], SReturn (JList []))) /\
  (forall k status body, (k < retries)%nat -> 200 <= status < 300 ->
     status <> 202 -> status <> 204 -> (forall l, body <> JList l) ->
     response k = Response status body ->
     stats_loop retries response cache_on (retries - k) k = ([], SReturn (JList []))) /\
  (forall cached v,
     In (ECacheSet v) (fst (get_contributor_stats retries response cache_on cached)) ->
     v <> [] /\ exists k status, (k < retries)%nat /\ 200 <= status < 300 /\
       status <> 202 /\ status <> 204 /\ response k = Response status (JList v)).
Proof.
  intros retries response cache_on.
  split; [|split; [|split; [|split]]].
  - intros k b Hk Hr. destruct (retries - k)%nat as [|n] eqn:En; [lia|].
    simpl. rewrite Hr. reflexivity.
  - intros k b Hk Hr. destruct (retries - k)%nat as [|n] eqn:En; [lia|].
    replace (retries - S k)%nat with n by lia.
    simpl. rewrite Hr. simpl.
    assert (Hc : can_retry retries k = true)
      by (unfold can_retry; apply Z.ltb_lt; lia).
    rewrite Hc. unfold backoff.
    destruct (stats_loop retries response cache_on n (S k)); reflexivity.
  - intros b Hpos Hr. replace (retries - (retries - 1))%nat with 1%nat by lia.
    simpl. rewrite Hr. simpl.
    assert (Hc : can_retry retries (retries - 1) = false)
      by (unfold can_retry; apply Z.ltb_ge; lia).
    rewrite Hc. reflexivity.
  - intros k status body Hk Hs H202 H204 Hnl Hr.
    destruct (retries - k)%nat as [|n] eqn:En; [lia|].
    simpl. rewrite Hr.
    assert (H2 : negb ((200 <=? status) && (status <? 300)) = false).
    { apply negb_false_iff, andb_true_iff; split; [apply Z.leb_le | apply Z.ltb_lt]; lia. }
    rewrite H2. apply Z.eqb_neq in H202, H204. rewrite H204, H202.
    destruct body as [| | | |l|]; try (destruct cache_on; reflexivity).
    exfalso; apply (Hnl l); reflexivity.
  - intros cached v Hin. unfold get_contributor_stats in Hin.
    destruct (if cache_on then cached else None) as [c|]; [contradiction|].
    destruct (stats_loop_cache_sets _ _ _ _ _ _ Hin) as [Hne (k & st & Hk & Hrest)].
    split; [exact Hne|]. exists k, st; split; [lia|exact Hrest].
Qed.

(** ** Org aggregator: repository set and failures *)

Lemma Permutation_filter_bool : forall {A} (f : A -> bool) l l',
  Permutation l l' -> Permutation (filter f l) (filter f l').
Proof.
  intros A f l l' P; induction P; simpl.
  - constructor.
  - destruct (f x); [constructor|]; assumption.
  - destruct (f x), (f y); first [apply perm_swap | apply perm_skip; reflexivity | reflexivity].
  - etransitivity; eassumption.
Qed.

Lemma count_names_absent : forall (p : RepoEntry -> bool) rs n,
  ~ In n (map re_name rs) -> count_occ string_dec (map re_name (filter p rs)) n = 0%nat.
Proof.
  intros p rs n Hn. apply count_occ_not_In. intros Hin.
  apply in_map_iff in Hin as [x [<- Hx]]. apply filter_In in Hx as [Hx _].
  apply Hn, in_map, Hx.
Qed.

Lemma count_failed_once : forall (p : RepoEntry -> bool) rs e,
  NoDup (map re_name rs) -> In e rs -> p e = true ->
  count_occ string_dec (map re_name (filter p rs)) (re_name e) = 1%nat.
Proof.
  intros p rs e; induction rs as [|x rs IH]; intros Hnd Hin Hp; [contradiction|].
  simpl in Hnd; apply NoDup_cons_iff in Hnd as [Hx Hnd].
  destruct Hin as [<-|Hin].
  - simpl; rewrite Hp; simpl.
    destruct (string_dec (re_name x) (re_name x)) as [_|C]; [|congruence].
    rewrite count_names_absent; auto.
  - assert (Hne : re_name x <> re_name e) by (intros Heq; apply Hx; rewrite Heq; apply in_map, Hin).
    simpl; destruct (p x); simpl; [destruct (string_dec (re_name x) (re_name e)); [congruence|]|];
      apply IH; auto.
Qed.

Lemma stats_without_failed : forall (collect : RepoEntry -> option RepoStats) rs e,
  NoDup (map re_name rs) -> In e rs -> collect e = None ->
  filter_some (map collect rs)
  = filter_some (map collect (filter (fun x => negb (String.eqb (re_name x) (re_name e))) rs)).
Proof.
  intros collect rs e; induction rs as [|x rs IH]; intros Hnd Hin Hc; [contradiction|].
  simpl in Hnd; apply NoDup_cons_iff in Hnd as [Hx Hnd].
  destruct Hin as [<-|Hin].
  - simpl. rewrite Hc, String.eqb_refl. simpl.
    rewrite (forallb_filter_id _ rs); [reflexivity|].
    apply forallb_forall. intros y Hy. apply negb_true_iff, String.eqb_neq.
    intros Heq. apply Hx. rewrite <- Heq. apply in_map, Hy.
  - assert (Hne : re_name x <> re_name e) by (intros Heq; apply Hx; rewrite Heq; apply in_map, Hin).
    simpl. apply String.eqb_neq in Hne. rewrite Hne. simpl.
    destruct (collect x); simpl; rewrite (IH Hnd Hin Hc); reflexivity.
Qed.

(** C2.  When the collection of one repository [e] of the resolved set
    raises (repository names being distinct, as an org's are), whatever
    order the tasks finish in: its name is in [failed_repos] exactly
    once; the report is the one built from the other repositories alone
    (so [e] adds nothing to any total or list, and every other repository
    contributes its own collected stats); and [total_repos] is the number
    of repositories whose collection succeeded. *)
Theorem aggregate_failed_repo : forall listed collect finish_order org_name since until
    repo exclude_repos sort_by exclude_bots min_commits e,
  (forall l, Permutation (finish_order l) l) ->
  NoDup (map re_name (resolve_repos listed repo exclude_repos)) ->
  In e (resolve_repos listed repo exclude_repos) ->
  collect e = None ->
  let rs := resolve_repos listed repo exclude_repos in
  let rep := aggregate_org_report listed collect finish_order org_name since until repo
               exclude_repos sort_by exclude_bots min_commits in
  count_occ string_dec (failed_repos rep) (re_name e) = 1%nat /\
  rep = build_report org_name since until
          (filter_some (map collect
             (filter (fun x => negb (String.eqb (re_name x) (re_name e))) rs)))
          (failed_repos rep) sort_by exclude_bots min_commits /\
  total_repos rep = Z.of_nat (List.length (filter_some (map collect rs))) /\
  List.length (filter_some (map collect rs))
    = List.length (filter (fun x => negb (collect_failed collect x)) rs).
Proof.
  intros listed collect fo org_name since until repo excl sort_by eb mc e Hfo Hnd Hin Hc rs rep.
  split; [|split; [|split]].
  - unfold rep, aggregate_org_report; cbn [failed_repos build_report].
    fold rs. rewrite (proj1 (Permutation_count_occ string_dec _ _)
                       (Permutation_map re_name (Permutation_filter_bool _ _ _ (Hfo rs)))).
    apply count_failed_once; [exact Hnd|exact Hin|unfold collect_failed; rewrite Hc; reflexivity].
  - unfold rep, aggregate_org_report; fold rs.
    rewrite <- (stats_without_failed collect rs e Hnd Hin Hc). reflexivity.
  - reflexivity.
  - clear. induction rs as [|x rs IH]; [reflexivity|].
    unfold collect_failed in *; simpl; destruct (collect x); simpl; congruence.
Qed.

Lemma aggregate_failed_repo_witness :
  let e := entry_of_name "broken" in
  let ok := entry_of_name "fine" in
  let collect := fun x : RepoEntry => if String.eqb (re_name x) "broken" then None
                                      else Some (_collect_repo_stats "acme" x None None
                                                   (mkFetches None None None None None)) in
  ((forall l, Permutation ((fun l0 : list RepoEntry => rev l0) l) l) /\
   NoDup (map re_name (resolve_repos [ok; e] None [])) /\
   In e (resolve_repos [ok; e] None []) /\ collect e = None) /\
  (let rs := resolve_repos [ok; e] None [] in
   let rep := aggregate_org_report [ok; e] collect (fun l0 => rev l0) "acme" None None None []
                "commits" false 0 in
   count_occ string_dec (failed_repos rep) (re_name e) = 1%nat /\
   rep = build_report "acme" None None
           (filter_some (map collect
              (filter (fun x => negb (String.eqb (re_name x) (re_name e))) rs)))
           (failed_repos rep) "commits" false 0 /\
   total_repos rep = Z.of_nat (List.length (filter_some (map collect rs))) /\
   List.length (filter_some (map collect rs))
     = List.length (filter (fun x => negb (collect_failed collect x)) rs)).
Proof.
  intros e ok collect.
  assert (H1 : forall l, Permutation ((fun l0 : list RepoEntry => rev l0) l) l)
    by (intros l; symmetry; apply Permutation_rev).
  assert (H2 : NoDup (map re_name (resolve_repos [ok; e] None [])))
    by (simpl; constructor; [simpl; intuition discriminate|constructor; [intros []|constructor]]).
  assert (H3 : In e (resolve_repos [ok; e] None [])) by (simpl; auto).
  assert (H4 : collect e = None) by reflexivity.
  split; [auto|].
  exact (aggregate_failed_repo [ok; e] collect (fun l0 => rev l0) "acme" None None None []
           "commits" false 0 e H1 H2 H3 H4).
Defined.

Lemma resolve_repos_excluded : forall listed r exclude_repos,
  r <> EmptyString -> In r exclude_repos ->
  resolve_repos listed (Some r) exclude_repos = [].
Proof.
  intros listed r excl Hr Hin. unfold resolve_repos.
  assert (E : String.eqb r EmptyString = false) by (apply String.eqb_neq, Hr).
  rewrite E. destruct excl as [|x xs]; [contradiction|].
  assert (Hx : existsb (String.eqb r) (x :: xs) = true)
    by (apply existsb_exists; exists r; split; [exact Hin|apply String.eqb_refl]).
  simpl filter. simpl in Hx. rewrite Hx. reflexivity.
Qed.

(** C10.  Naming a single repository that is also in the exclusion set
    leaves the repository set empty, so nothing is collected and the
    report has [total_repos = 0], no failures, all totals zero and empty
    language, contributor, repository and trend lists. *)
Theorem aggregate_repo_excluded : forall listed collect finish_order org_name since until
    r exclude_repos sort_by exclude_bots min_commits,
  (forall l, Permutation (finish_order l) l) ->
  r <> EmptyString -> In r exclude_repos ->
  let rep := aggregate_org_report listed collect finish_order org_name since until (Some r)
               exclude_repos sort_by exclude_bots min_commits in
  resolve_repos listed (Some r) exclude_repos = [] /\
  total_repos rep = 0 /\ failed_repos rep = [] /\
  total_commits rep = 0 /\ total_additions rep = 0 /\ total_deletions rep = 0 /\
  total_open_prs rep = 0 /\ total_merged_prs rep = 0 /\ total_open_issues rep = 0 /\
  total_stars rep = 0 /\ total_forks rep = 0 /\ archived_repos rep = 0 /\
  org_languages rep = [] /\ org_contributors rep = [] /\ repos rep = [] /\
  org_contributor_trends rep = [].
Proof.
  intros listed collect fo org_name since until r excl sort_by eb mc Hfo Hr Hin rep.
  pose proof (resolve_repos_excluded listed r excl Hr Hin) as Hres.
  assert (Hfo0 : fo [] = []) by (apply Permutation_nil; symmetry; apply Hfo).
  unfold rep, aggregate_org_report. rewrite Hres, Hfo0.
  split; [reflexivity|].
  unfold build_report, org_contributor_list, merge_trends; simpl.
  destruct eb, (mc >? 0); repeat split.
Qed.

Lemma aggregate_repo_excluded_witness :
  ((forall l, Permutation ((fun l0 : list RepoEntry => l0) l) l) /\
   "api" <> EmptyString /\ In "api" ["docs"; "api"]) /\
  (let rep := aggregate_org_report [] (fun _ => None) (fun l0 => l0) "acme" None None (Some "api")
                ["docs"; "api"] "commits" false 0 in
   resolve_repos [] (Some "api") ["docs"; "api"] = [] /\
   total_repos rep = 0 /\ failed_repos rep = [] /\
   total_commits rep = 0 /\ total_additions rep = 0 /\ total_deletions rep = 0 /\
   total_open_prs rep = 0 /\ total_merged_prs rep = 0 /\ total_open_issues rep = 0 /\
   total_stars rep = 0 /\ total_forks rep = 0 /\ archived_repos rep = 0 /\
   org_languages rep = [] /\ org_contributors rep = [] /\ repos rep = [] /\
   org_contributor_trends rep = []).
Proof.
  assert (H1 : forall l, Permutation ((fun l0 : list RepoEntry => l0) l) l) by (intros; reflexivity).
  assert (H2 : "api" <> EmptyString) by discriminate.
  assert (H3 : In "api" ["docs"; "api"]) by (simpl; auto).
  split; [auto|].
  exact (aggregate_repo_excluded [] (fun _ => None) (fun l0 => l0) "acme" None None "api"
           ["docs"; "api"] "commits" false 0 H1 H2 H3).
Defined.

(** ** Org aggregator: contributor merge *)

Lemma alist_set_keys_in : forall {V} k (v : V) m,
  In k (map fst m) -> map fst (alist_set k v m) = map fst m.
Proof.
  intros V k v m; induction m as [|[k0 v0] m IH]; intros Hin; [contradiction|].
  simpl. destruct (String.eqb k k0) eqn:E; simpl; [reflexivity|].
  f_equal. apply IH. destruct Hin as [Heq|Hin]; [|exact Hin].
  simpl in Heq; subst. rewrite String.eqb_refl in E; discriminate.
Qed.

Lemma alist_set_keys_notin : forall {V} k (v : V) m,
  ~ In k (map fst m) -> map fst (alist_set k v m) = (map fst m ++ [k])%list.
Proof.
  intros V k v m; induction m as [|[k0 v0] m IH]; intros Hn; [reflexivity|].
  simpl. destruct (String.eqb k k0) eqn:E.
  - apply String.eqb_eq in E; subst. exfalso; apply Hn; left; reflexivity.
  - simpl; f_equal. apply IH. intros H; apply Hn; right; exact H.
Qed.

Lemma in_alist_set : forall {V} k (v : V) m k' c',
  NoDup (map fst m) -> In (k', c') (alist_set k v m) ->
  (k' = k /\ c' = v) \/ (k' <> k /\ In (k', c') m).
Proof.
  intros V k v m; induction m as [|[k0 v0] m IH]; intros k' c' Hnd Hin; simpl in *.
  - destruct Hin as [H|[]]; inversion H; auto.
  - apply NoDup_cons_iff in Hnd as [Hk0 Hnd].
    destruct (String.eqb k k0) eqn:E.
    + apply String.eqb_eq in E; subst.
      destruct Hin as [H|H]; [inversion H; subst; auto|].
      right; split; [|right; exact H].
      intros Heq. apply Hk0. rewrite <- Heq. apply (in_map fst _ (k', c')), H.
    + destruct Hin as [H|H].
      * inversion H; subst. right; split; [|left; reflexivity].
        intros ->. rewrite String.eqb_refl in E; discriminate.
      * destruct (IH _ _ Hnd H) as [?|[? ?]]; auto.
Qed.

Lemma alist_get_in : forall {V} k (e : V) m, alist_get k m = Some e -> In (k, e) m.
Proof.
  intros V k e m; induction m as [|[k0 v0] m IH]; simpl; [discriminate|].
  destruct (String.eqb k k0) eqn:E; intros H.
  - inversion H; subst. apply String.eqb_eq in E; subst; auto.
  - right; auto.
Qed.

Lemma alist_get_notin : forall {V} k (m : list (string * V)),
  alist_get k m = None -> ~ In k (map fst m).
Proof.
  intros V k m; induction m as [|[k0 v0] m IH]; simpl; [auto|].
  destruct (String.eqb k k0) eqn:E; [discriminate|]. intros H [Heq|Hin].
  - subst. rewrite String.eqb_refl in E; discriminate.
  - exact (IH H Hin).
Qed.

Lemma contrib_sum_snoc : forall f k P x,
  contrib_sum f k (P ++ [x])%list = contrib_sum f k P + (if String.eqb (username x) k then f x else 0).
Proof.
  intros f k P x; unfold contrib_sum. rewrite filter_app, map_app, sum_Z_app.
  simpl. destruct (String.eqb (username x) k); unfold sum_Z; simpl; lia.
Qed.

Lemma contrib_sum_absent : forall f k P,
  ~ In k (map username P) -> contrib_sum f k P = 0.
Proof.
  intros f k P Hn; unfold contrib_sum.
  replace (filter (fun c => String.eqb (username c) k) P) with (@nil ContributorStats); [reflexivity|].
  symmetry. induction P as [|x P IH]; [reflexivity|]. simpl in *.
  destruct (String.eqb (username x) k) eqn:E.
  - apply String.eqb_eq in E. exfalso; auto.
  - apply IH; auto.
Qed.

Lemma totals_inv_step : forall m P x,
  totals_inv m P -> totals_inv (merge_contributor m x) (P ++ [x])%list.
Proof.
  intros m P x (Hnd & Hkeys & Hent). unfold merge_contributor.
  destruct (alist_get (username x) m) as [e|] eqn:Eg.
  - pose proof (alist_get_in _ _ _ Eg) as Hine.
    assert (Hk : In (username x) (map fst m)) by (apply (in_map fst _ (_, e)), Hine).
    rewrite (Hent _ _ Hine) in *. cbn [commits additions deletions].
    split; [|split].
    + rewrite alist_set_keys_in; assumption.
    + intros k. rewrite alist_set_keys_in by assumption. rewrite Hkeys, map_app, in_app_iff.
      simpl. split; [tauto|]. intros [H|[H|[]]]; [exact H|]. subst; apply Hkeys, Hk.
    + intros k c Hin. destruct (in_alist_set _ _ _ _ _ Hnd Hin) as [[-> ->]|[Hne Hin']].
      * rewrite !contrib_sum_snoc, String.eqb_refl. reflexivity.
      * rewrite (Hent _ _ Hin'), !contrib_sum_snoc.
        destruct (String.eqb (username x) k) eqn:E; [apply String.eqb_eq in E; congruence|].
        f_equal; lia.
  - pose proof (alist_get_notin _ _ Eg) as Hk.
    split; [|split].
    + rewrite alist_set_keys_notin by assumption.
      apply Permutation_NoDup with (username x :: map fst m);
        [apply Permutation_cons_append|constructor; assumption].
    + intros k. rewrite alist_set_keys_notin by assumption.
      rewrite !map_app, !in_app_iff, Hkeys. reflexivity.
    + intros k c Hin. destruct (in_alist_set _ _ _ _ _ Hnd Hin) as [[-> ->]|[Hne Hin']].
      * rewrite !contrib_sum_snoc, String.eqb_refl.
        assert (Hn : ~ In (username x) (map username P)) by (rewrite <- Hkeys; exact Hk).
        rewrite !(contrib_sum_absent _ _ _ Hn). reflexivity.
      * rewrite (Hent _ _ Hin'), !contrib_sum_snoc.
        destruct (String.eqb (username x) k) eqn:E; [apply String.eqb_eq in E; congruence|].
        f_equal; lia.
Qed.

Lemma totals_inv_fold : forall L m P,
  totals_inv m P -> totals_inv (fold_left merge_contributor L m) (P ++ L)%list.
Proof.
  induction L as [|x L IH]; intros m P H; simpl; [rewrite app_nil_r; exact H|].
  replace (P ++ x :: L)%list with ((P ++ [x]) ++ L)%list by (rewrite <- app_assoc; reflexivity).
  apply IH, totals_inv_step, H.
Qed.

Lemma contrib_totals_flat : forall rs,
  contrib_totals rs = fold_left merge_contributor (flat_map rs_contributors rs) [].
Proof.
  intros rs; unfold contrib_totals. generalize (@nil (string * ContributorStats)).
  induction rs as [|r rs IH]; intros m; simpl; [reflexivity|].
  rewrite fold_left_app. apply IH.
Qed.

Lemma contrib_totals_inv : forall rs,
  totals_inv (contrib_totals rs) (flat_map rs_contributors rs).
Proof.
  intros rs. rewrite contrib_totals_flat.
  apply (totals_inv_fold _ [] []). split; [constructor|split]; simpl; [tauto|contradiction].
Qed.

Lemma contrib_values_usernames : forall rs,
  map username (map snd (contrib_totals rs)) = map fst (contrib_totals rs).
Proof.
  intros rs. destruct (contrib_totals_inv rs) as (_ & _ & Hent).
  rewrite map_map. apply map_ext_in. intros [k c] Hin. rewrite (Hent _ _ Hin). reflexivity.
Qed.

Lemma in_contrib_values : forall rs c,
  In c (map snd (contrib_totals rs)) <->
  exists u, In u (map username (flat_map rs_contributors rs)) /\ c = merged_record u rs.
Proof.
  intros rs c. destruct (contrib_totals_inv rs) as (_ & Hkeys & Hent). split.
  - intros Hin. apply in_map_iff in Hin as [[k c'] [Hc Hin]]. simpl in Hc; subst c'.
    exists k. split.
    + apply Hkeys, (in_map fst _ (k, c)), Hin.
    + rewrite (Hent _ _ Hin). reflexivity.
  - intros [u [Hu ->]]. apply Hkeys, in_map_iff in Hu as [[k c'] [Hk Hin]].
    simpl in Hk; subst k. apply in_map_iff. exists (u, c'). split; [|exact Hin].
    rewrite (Hent _ _ Hin). reflexivity.
Qed.

Lemma in_sort_desc : forall {A} (key : A -> Z) l x, In x (sort_desc key l) <-> In x l.
Proof.
  intros A key l x; split; apply Permutation_in; [|symmetry]; apply sort_desc_perm.
Qed.

Lemma in_org_contributor_list : forall rs sort_by eb mc c,
  In c (org_contributor_list rs sort_by eb mc) <->
  In c (map snd (contrib_totals rs)) /\ kept_by_filters eb mc c = true.
Proof.
  intros rs sort_by eb mc c. unfold org_contributor_list, kept_by_filters. cbv zeta.
  rewrite in_sort_desc.
  destruct eb, (mc >? 0); rewrite ?filter_In; cbn [negb andb orb]; rewrite ?andb_true_iff; intuition.
Qed.

Lemma NoDup_map_filter : forall {A B} (g : A -> B) (f : A -> bool) l,
  NoDup (map g l) -> NoDup (map g (filter f l)).
Proof.
  intros A B g f l; induction l as [|a l IH]; simpl; intros Hnd; [constructor|].
  apply NoDup_cons_iff in Hnd as [Ha Hnd]. destruct (f a); simpl; [|auto].
  constructor; [|auto]. intros Hin. apply Ha.
  apply in_map_iff in Hin as [y [Hy Hin]]. apply filter_In in Hin as [Hin _].
  rewrite <- Hy. apply in_map, Hin.
Qed.

Lemma org_contributor_list_nodup : forall rs sort_by eb mc,
  NoDup (map username (org_contributor_list rs sort_by eb mc)).
Proof.
  intros rs sort_by eb mc.
  assert (H0 : NoDup (map username (map snd (contrib_totals rs)))).
  { rewrite contrib_values_usernames. apply (contrib_totals_inv rs). }
  unfold org_contributor_list; cbv zeta.
  eapply Permutation_NoDup; [apply Permutation_map; symmetry; apply sort_desc_perm|].
  destruct eb, (mc >? 0); repeat apply NoDup_map_filter; exact H0.
Qed.

Lemma repo_sum_perm : forall f u rs rs',
  Permutation rs rs' -> repo_sum f u rs = repo_sum f u rs'.
Proof.
  intros f u rs rs' P. unfold repo_sum, contrib_sum.
  apply sum_Z_perm, Permutation_map, Permutation_filter_bool. now rewrite P.
Qed.

Lemma repo_sum_app : forall f u rs1 rs2,
  repo_sum f u (rs1 ++ rs2)%list = repo_sum f u rs1 + repo_sum f u rs2.
Proof.
  intros f u rs1 rs2. unfold repo_sum, contrib_sum.
  rewrite flat_map_app, filter_app, map_app, sum_Z_app. reflexivity.
Qed.

(** C4. The org-level contributor list has exactly one record per distinct
    username of the per-repository contributor records (among those the bot
    and min-commits filters keep), and each record's commits, additions and
    deletions are the sums of the matching per-repository fields. The merge
    is commutative: reordering the repository set permutes the list. It is
    associative: over [rs1 ++ rs2] each field is the sum of the two parts.
    Contributor alice with 10 commits in each of two repositories gets one
    org-level record with 20 commits. *)
Theorem org_contributor_merge :
  (forall rs sort_by eb mc,
     NoDup (map username (org_contributor_list rs sort_by eb mc)) /\
     (forall c, In c (org_contributor_list rs sort_by eb mc) <->
        exists u, In u (map username (flat_map rs_contributors rs)) /\
                  c = merged_record u rs /\ kept_by_filters eb mc c = true)) /\
  (forall rs rs' sort_by eb mc, Permutation rs rs' ->
     Permutation (org_contributor_list rs sort_by eb mc) (org_contributor_list rs' sort_by eb mc)) /\
  (forall rs1 rs2 sort_by eb mc c,
     In c (org_contributor_list (rs1 ++ rs2)%list sort_by eb mc) ->
     c = mkContributorStats (username c)
           (repo_sum commits (username c) rs1 + repo_sum commits (username c) rs2)
           (repo_sum additions (username c) rs1 + repo_sum additions (username c) rs2)
           (repo_sum deletions (username c) rs1 + repo_sum deletions (username c) rs2)) /\
  org_contributor_list
    [example_repo "repo1" [mkContributorStats "alice" 10 0 0];
     example_repo "repo2" [mkContributorStats "alice" 10 0 0]] "commits" false 0
  = [mkContributorStats "alice" 20 0 0].
Proof.
  assert (Hchar : forall rs sort_by eb mc c,
    In c (org_contributor_list rs sort_by eb mc) <->
    exists u, In u (map username (flat_map rs_contributors rs)) /\
              c = merged_record u rs /\ kept_by_filters eb mc c = true).
  { intros rs sort_by eb mc c. rewrite in_org_contributor_list, in_contrib_values.
    split; [intros [[u [Hu Hc]] Hk]; eauto|intros [u [Hu [Hc Hk]]]; eauto]. }
  split; [|split; [|split]].
  - intros rs sort_by eb mc. split; [apply org_contributor_list_nodup|apply Hchar].
  - intros rs rs' sort_by eb mc P.
    apply NoDup_Permutation;
      try (eapply NoDup_map_inv; apply org_contributor_list_nodup).
    intros c. rewrite !Hchar.
    assert (Hu : forall u, In u (map username (flat_map rs_contributors rs)) <->
                           In u (map username (flat_map rs_contributors rs'))).
    { intros u. split; apply Permutation_in; [|symmetry]; apply Permutation_map; now rewrite P. }
    assert (Hm : forall u, merged_record u rs = merged_record u rs').
    { intros u. unfold merged_record. rewrite !(repo_sum_perm _ u _ _ P). reflexivity. }
    split; intros [u [H1 [H2 H3]]]; exists u; rewrite ?Hm in *; rewrite ?Hu in *;
      [|rewrite <- Hm in *; rewrite <- Hu in *]; auto.
  - intros rs1 rs2 sort_by eb mc c Hin. apply Hchar in Hin as [u [_ [-> _]]].
    unfold merged_record; simpl. rewrite !repo_sum_app. reflexivity.
  - vm_compute. reflexivity.
Qed.

Lemma org_contributor_merge_witness :
  Permutation
    (org_contributor_list
       [example_repo "repo1" [mkContributorStats "alice" 10 1 2];
        example_repo "repo2" [mkContributorStats "bob" 3 0 0]] "commits" false 0)
    (org_contributor_list
       [example_repo "repo2" [mkContributorStats "bob" 3 0 0];
        example_repo "repo1" [mkContributorStats "alice" 10 1 2]] "commits" false 0).
Proof.
  apply (proj1 (proj2 org_contributor_merge)). apply perm_swap.
Defined.

(** ** Org aggregator: PR latency merge *)

Lemma weighted_pairs_flat : forall avg l,
  weighted_pairs avg l = analysed_weight_pairs avg l.
Proof.
  intros avg l. unfold weighted_pairs, analysed_weight_pairs.
  assert (G : forall acc, fold_left (fun acc pi => match avg pi with
                           | Some h => (acc ++ [(h, pr_total_analyzed pi)])%list
                           | None => acc end) l acc
                  = (acc ++ flat_map (fun pi => match avg pi with
                      | Some h => [(h, pr_total_analyzed pi)]
                      | None => [] end) l)%list).
  { induction l as [|pi l IH]; intros acc; simpl; [rewrite app_nil_r; reflexivity|].
    rewrite IH. destruct (avg pi); simpl; [rewrite <- app_assoc|]; reflexivity. }
  rewrite G. reflexivity.
Qed.

Lemma weighted_avg_mean : forall ws, weighted_avg ws = weighted_mean ws.
Proof.
  intros ws. unfold weighted_avg, weighted_mean.
  rewrite Z.gtb_ltb. reflexivity.
Qed.

Lemma sum_weights_pos : forall (l : list (Q * Z)),
  (forall x, In x l -> 0 < snd x) -> (0 < sum_Z (map snd l) <-> l <> []).
Proof.
  induction l as [|x l IH]; intros Hpos; simpl.
  - unfold sum_Z; simpl. split; [lia|]. intros H; exfalso; apply H; reflexivity.
  - split; [discriminate|intros _].
    assert (Hx : 0 < snd x) by (apply Hpos; left; reflexivity).
    assert (Hl : 0 <= sum_Z (map snd l)).
    { destruct l as [|y l']; [unfold sum_Z; simpl; lia|].
      apply Z.lt_le_incl, IH; [intros z Hz; apply Hpos; right; exact Hz|discriminate]. }
    unfold sum_Z in *; simpl; lia.
Qed.

Lemma analysed_weight_pairs_in : forall avg l x,
  In x (analysed_weight_pairs avg l) ->
  exists pi, In pi l /\ avg pi = Some (fst x) /\ snd x = pr_total_analyzed pi.
Proof.
  intros avg l x Hin. unfold analysed_weight_pairs in Hin.
  apply in_flat_map in Hin as [pi [Hpi Hx]].
  destruct (avg pi) as [h|] eqn:E; [|contradiction].
  destruct Hx as [<-|[]]. exists pi; auto.
Qed.

Lemma analysed_weight_pairs_nil : forall avg l,
  analysed_weight_pairs avg l = [] <-> (forall pi, In pi l -> avg pi = None).
Proof.
  intros avg l; induction l as [|pi l IH]; simpl; [split; [contradiction|reflexivity]|].
  unfold analysed_weight_pairs in *; simpl.
  destruct (avg pi) eqn:E; simpl.
  - split; [discriminate|]. intros H. rewrite (H pi (or_introl eq_refl)) in E; discriminate.
  - rewrite IH. split; [intros H p [<-|Hp]; auto|intros H p Hp; apply H; auto].
Qed.

Lemma weighted_mean_none : forall avg l,
  (forall pi, In pi l -> avg pi <> None -> 0 < pr_total_analyzed pi) ->
  (weighted_mean (analysed_weight_pairs avg l) = None <-> (forall pi, In pi l -> avg pi = None)).
Proof.
  intros avg l Hpos. rewrite <- analysed_weight_pairs_nil.
  assert (Hw : forall x, In x (analysed_weight_pairs avg l) -> 0 < snd x).
  { intros x Hx. destruct (analysed_weight_pairs_in _ _ _ Hx) as [pi [Hpi [Ha ->]]].
    apply Hpos; [exact Hpi|congruence]. }
  pose proof (sum_weights_pos _ Hw) as Hs.
  unfold weighted_mean; cbv zeta.
  destruct (0 <? sum_Z (map snd (analysed_weight_pairs avg l))) eqn:E.
  - apply Z.ltb_lt in E. split; [discriminate|]. intros Hn; exfalso; apply Hs in E; auto.
  - apply Z.ltb_ge in E. split; [intros _|reflexivity].
    destruct (analysed_weight_pairs avg l) eqn:Ep; [reflexivity|].
    exfalso. assert (0 < sum_Z (map snd (p :: l0))) by (apply Hs; discriminate). lia.
Qed.

Lemma analyze_pr_avg_total : forall prs,
  (avg_merge_hours (_analyze_pr_insights prs) <> None \/
   avg_close_hours (_analyze_pr_insights prs) <> None) ->
  0 < pr_total_analyzed (_analyze_pr_insights prs).
Proof.
  intros [|pr prs] H; simpl in *; [|lia].
  destruct H as [H|H]; exfalso; apply H; reflexivity.
Qed.

(** C1 (counterexample). Repository a has one PR merged after 10 hours and one
    still open; repository b has one PR merged after 20 hours. Each has one valid
    merge-latency sample, so the sample-weighted mean is 15.0, but the code weights
    a's average by its two analysed PRs and reports 13.3. *)
Lemma org_pr_latency_weight_counterexample :
  option_map avg_merge_hours
    (merge_pr_insights [pr_repo "a" [merged_pr "x" 36000; open_pr "y"];
                        pr_repo "b" [merged_pr "z" 72000]])
  = Some (Some (133 # 10)) /\
  sample_weighted_merge_avg [[merged_pr "x" 36000; open_pr "y"]; [merged_pr "z" 72000]]
  = Some (150 # 10) /\
  (133 # 10 <> 150 # 10)%Q.
Proof.
  split; [vm_compute; reflexivity|split; [vm_compute; reflexivity|discriminate]].
Qed.

(** C1 (amended). When the aggregator merges the per-repository PR insights
    [all_pr], the org-level average merge latency is
    [round(sum(avg_i * n_i) / sum(n_i), 1)] over the repositories whose average is
    set, with [n_i] the repository's [total_analyzed], and null when those weights
    sum to 0; likewise for the close latency. When every repository with an
    average has analysed at least one PR (as every record of
    [_analyze_pr_insights] does), the result is null exactly when no repository
    has an average. Repository a (average 10 hours over 2 analysed PRs) and
    repository b (20 hours over 1) give 13.3. *)
Theorem org_pr_latency_weighting :
  (forall rs pi, merge_pr_insights rs = Some pi ->
     let all_pr := filter_some (map rs_pr_insights rs) in
     avg_merge_hours pi = weighted_mean (analysed_weight_pairs avg_merge_hours all_pr) /\
     avg_close_hours pi = weighted_mean (analysed_weight_pairs avg_close_hours all_pr) /\
     ((forall p, In p all_pr -> avg_merge_hours p <> None -> 0 < pr_total_analyzed p) ->
      (avg_merge_hours pi = None <-> forall p, In p all_pr -> avg_merge_hours p = None)) /\
     ((forall p, In p all_pr -> avg_close_hours p <> None -> 0 < pr_total_analyzed p) ->
      (avg_close_hours pi = None <-> forall p, In p all_pr -> avg_close_hours p = None))) /\
  (forall prs, (avg_merge_hours (_analyze_pr_insights prs) <> None \/
                avg_close_hours (_analyze_pr_insights prs) <> None) ->
     0 < pr_total_analyzed (_analyze_pr_insights prs)) /\
  option_map avg_merge_hours
    (merge_pr_insights [pr_repo "a" [merged_pr "x" 36000; open_pr "y"];
                        pr_repo "b" [merged_pr "z" 72000]])
  = Some (Some (133 # 10)).
Proof.
  split; [|split; [exact analyze_pr_avg_total|vm_compute; reflexivity]].
  intros rs pi Hm all_pr. unfold merge_pr_insights in Hm. fold all_pr in Hm.
  assert (Hpi : avg_merge_hours pi = weighted_mean (analysed_weight_pairs avg_merge_hours all_pr) /\
                avg_close_hours pi = weighted_mean (analysed_weight_pairs avg_close_hours all_pr)).
  { destruct all_pr as [|p0 ps]; [discriminate|]. inversion Hm; subst; simpl.
    rewrite !weighted_avg_mean, !weighted_pairs_flat. split; reflexivity. }
  destruct Hpi as [Hmerge Hclose].
  split; [exact Hmerge|split; [exact Hclose|split]].
  - intros Hpos. rewrite Hmerge. apply weighted_mean_none, Hpos.
  - intros Hpos. rewrite Hclose. apply weighted_mean_none, Hpos.
Qed.

Lemma org_pr_latency_weighting_witness :
  exists pi,
    merge_pr_insights [pr_repo "a" [merged_pr "x" 36000; open_pr "y"];
                       pr_repo "b" [merged_pr "z" 72000]] = Some pi /\
    avg_merge_hours pi =
      weighted_mean (analysed_weight_pairs avg_merge_hours
        (filter_some (map rs_pr_insights [pr_repo "a" [merged_pr "x" 36000; open_pr "y"];
                                          pr_repo "b" [merged_pr "z" 72000]]))).
Proof.
  destruct (merge_pr_insights [pr_repo "a" [merged_pr "x" 36000; open_pr "y"];
                               pr_repo "b" [merged_pr "z" 72000]]) as [pi|] eqn:E;
    [|vm_compute in E; discriminate].
  exists pi. split; [reflexivity|].
  exact (proj1 (proj1 org_pr_latency_weighting _ pi E)).
Defined.

(* ------------------------------------------------------------------ *)
(** ** Further properties of the code *)

Lemma key_total_snoc : forall P x k,
  key_total (P ++ [x])%list k = key_total P k + (if String.eqb (fst x) k then snd x else 0).
Proof.
  intros P x k; unfold key_total. rewrite filter_app, map_app, sum_Z_app.
  simpl. destruct (String.eqb (fst x) k); unfold sum_Z; simpl; lia.
Qed.

Lemma key_total_absent : forall P k, ~ In k (map fst P) -> key_total P k = 0.
Proof.
  intros P k Hn; unfold key_total.
  induction P as [|x P IH]; [reflexivity|]. simpl in *.
  destruct (String.eqb (fst x) k) eqn:E.
  - apply String.eqb_eq in E. exfalso; auto.
  - apply IH; auto.
Qed.

Lemma tally_inv_step : forall m P k n,
  tally_inv m P -> tally_inv (alist_add k n m) (P ++ [(k, n)])%list.
Proof.
  intros m P k n (Hnd & Hkeys & Hent). unfold alist_add.
  destruct (alist_get k m) as [e|] eqn:Eg.
  - pose proof (alist_get_in _ _ _ Eg) as Hine.
    assert (Hk : In k (map fst m)) by (apply (in_map fst _ (_, e)), Hine).
    split; [|split].
    + rewrite alist_set_keys_in; assumption.
    + intros k'. rewrite alist_set_keys_in by assumption. rewrite Hkeys, map_app, in_app_iff.
      simpl. split; [tauto|]. intros [H|[H|[]]]; [exact H|]. subst; apply Hkeys, Hk.
    + intros k' c Hin. destruct (in_alist_set _ _ _ _ _ Hnd Hin) as [[-> ->]|[Hne Hin']].
      * rewrite key_total_snoc, (Hent _ _ Hine); simpl. rewrite String.eqb_refl. reflexivity.
      * rewrite (Hent _ _ Hin'), key_total_snoc; simpl.
        destruct (String.eqb k k') eqn:E; [apply String.eqb_eq in E; congruence|]. lia.
  - pose proof (alist_get_notin _ _ Eg) as Hk.
    split; [|split].
    + rewrite alist_set_keys_notin by assumption.
      apply Permutation_NoDup with (k :: map fst m);
        [apply Permutation_cons_append|constructor; assumption].
    + intros k'. rewrite alist_set_keys_notin by assumption.
      rewrite !map_app, !in_app_iff, Hkeys. reflexivity.
    + intros k' c Hin. destruct (in_alist_set _ _ _ _ _ Hnd Hin) as [[-> ->]|[Hne Hin']].
      * rewrite key_total_snoc; simpl. rewrite String.eqb_refl.
        assert (Hn : ~ In k (map fst P)) by (rewrite <- Hkeys; exact Hk).
        rewrite (key_total_absent _ _ Hn). reflexivity.
      * rewrite (Hent _ _ Hin'), key_total_snoc; simpl.
        destruct (String.eqb k k') eqn:E; [apply String.eqb_eq in E; congruence|]. lia.
Qed.

Lemma tally_inv_fold : forall L m P,
  tally_inv m P -> tally_inv (tally L m) (P ++ L)%list.
Proof.
  unfold tally. induction L as [|x L IH]; intros m P H; simpl; [rewrite app_nil_r; exact H|].
  replace (P ++ x :: L)%list with ((P ++ [x]) ++ L)%list by (rewrite <- app_assoc; reflexivity).
  apply IH. destruct x as [k n]. apply tally_inv_step, H.
Qed.

Lemma tally_inv_nil : tally_inv [] [].
Proof. split; [constructor|split]; simpl; [tauto|contradiction]. Qed.

Lemma tally_spec : forall L, tally_inv (tally L []) L.
Proof. intros L. apply (tally_inv_fold L [] [] tally_inv_nil). Qed.

(* Strongly sorted prefixes. *)
Lemma StronglySorted_app_inv : forall {A} (R : A -> A -> Prop) l1 l2,
  StronglySorted R (l1 ++ l2)%list ->
  StronglySorted R l1 /\ (forall x y, In x l1 -> In y l2 -> R x y).
Proof.
  intros A R l1 l2; induction l1 as [|a l1 IH]; simpl; intros H.
  - split; [constructor|contradiction].
  - apply StronglySorted_inv in H as [H Hf]. destruct (IH H) as [H1 H2].
    split.
    + constructor; [exact H1|]. rewrite Forall_forall in *. intros x Hx; apply Hf, in_app_iff; auto.
    + intros x y [<-|Hx] Hy; [|auto]. rewrite Forall_forall in Hf. apply Hf, in_app_iff; auto.
Qed.

Lemma top_n_spec : forall n m P, tally_inv m P -> top_n_props n P (take n (sort_desc snd m)).
Proof.
  intros n m P (Hnd & Hkeys & Hent). unfold take.
  set (s := sort_desc snd m).
  assert (Hp : Permutation s m) by apply sort_desc_perm.
  assert (Hss : StronglySorted (fun a b : string * Z => snd b <= snd a) s).
  { apply Sorted_StronglySorted; [intros x y z; lia|]. apply (sort_desc_sorted snd). }
  rewrite <- (firstn_skipn n s) in Hss. apply StronglySorted_app_inv in Hss as [Hs1 Hs12].
  assert (Hin : forall x, In x (firstn n s) -> In x m).
  { intros x Hx. apply (Permutation_in _ Hp). rewrite <- (firstn_skipn n s). apply in_app_iff; auto. }
  assert (HndS : NoDup (map fst s)).
  { apply Permutation_NoDup with (map fst m); [apply Permutation_map; symmetry; exact Hp|exact Hnd]. }
  split; [apply firstn_le_length|split; [apply StronglySorted_Sorted, Hs1|split]].
  - rewrite <- (firstn_skipn n s), map_app in HndS. eapply NoDup_app_remove_r; exact HndS.
  - split.
    + intros k v Hkv. split; [apply Hkeys, (in_map fst _ (k, v)), Hin, Hkv|apply Hent, Hin, Hkv].
    + intros k v b Hkv Hb Hnb. apply Hkeys, in_map_iff in Hb as [[b' w] [Hb' Hbw]]. simpl in Hb'; subst b'.
      rewrite <- (Hent _ _ Hbw).
      assert (Hbs : In (b, w) s) by (apply (Permutation_in _ (Permutation_sym Hp)), Hbw).
      rewrite <- (firstn_skipn n s) in Hbs. apply in_app_iff in Hbs as [Hbs|Hbs].
      * exfalso; apply Hnb, (in_map fst _ (b, w)), Hbs.
      * exact (Hs12 _ _ Hkv Hbs).
Qed.

Lemma tally_app : forall L1 L2 m, tally (L1 ++ L2)%list m = tally L2 (tally L1 m).
Proof. intros; unfold tally; apply fold_left_app. Qed.

Lemma unit_pairs_keys : forall ks a,
  In a (map fst (unit_pairs ks)) <-> a <> EmptyString /\ In a ks.
Proof.
  intros ks a. unfold unit_pairs. rewrite map_map; simpl. rewrite map_id, filter_In.
  destruct (String.eqb a EmptyString) eqn:E; simpl.
  - apply String.eqb_eq in E. split; [intros [_ H]; discriminate|intros [H _]; contradiction].
  - apply String.eqb_neq in E. tauto.
Qed.

Lemma unit_pairs_total : forall ks a, a <> EmptyString ->
  key_total (unit_pairs ks) a = count_str ks a.
Proof.
  intros ks a Ha. unfold key_total, unit_pairs, count_str.
  induction ks as [|k ks IH]; [reflexivity|]. cbn [filter].
  destruct (String.eqb k EmptyString) eqn:E0; cbn [negb].
  - apply String.eqb_eq in E0; subst. destruct (String.eqb EmptyString a) eqn:E1; [|exact IH].
    apply String.eqb_eq in E1; congruence.
  - cbn [map filter fst]. destruct (String.eqb k a); [|exact IH].
    cbn [map Datatypes.length]. unfold sum_Z in *; cbn [fold_right]. rewrite IH. cbn [snd Datatypes.length]. lia.
Qed.

(* The unit-weight tally of a list of strings, as the loops write it. *)
Lemma skip_empty_tally : forall {A} (key : A -> string) xs m,
  fold_left (fun m x => if String.eqb (key x) EmptyString then m else alist_add (key x) 1 m) xs m
  = tally (unit_pairs (map key xs)) m.
Proof.
  intros A key xs; induction xs as [|x xs IH]; intros m; [reflexivity|].
  simpl. rewrite IH. unfold unit_pairs; simpl.
  destruct (String.eqb (key x) EmptyString); reflexivity.
Qed.

Lemma pr_fold_authors : forall prs st,
  pra_author_counts (fold_left pr_step prs st) =
  fold_left (fun m pr => if String.eqb (pr_login pr) EmptyString then m
                         else alist_add (pr_login pr) 1 m) prs (pra_author_counts st).
Proof.
  induction prs as [|pr prs IH]; intros st; [reflexivity|]. simpl. rewrite IH. f_equal.
  unfold pr_step. destruct (pr_created_at pr); reflexivity.
Qed.

Lemma pr_authors_tally : forall prs,
  pra_author_counts (fold_left pr_step prs (mkPRAcc [] [] 0 [])) = tally (unit_pairs (map pr_login prs)) [].
Proof. intros prs. rewrite pr_fold_authors, skip_empty_tally. reflexivity. Qed.

Lemma unit_pairs_app : forall a b, unit_pairs (a ++ b)%list = (unit_pairs a ++ unit_pairs b)%list.
Proof. intros a b; unfold unit_pairs; rewrite filter_app, map_app; reflexivity. Qed.

Lemma issue_fold : forall issues ls rs,
  fold_left issue_step issues (ls, rs) =
  (tally (unit_pairs (label_names issues)) ls, tally (unit_pairs (map is_login issues)) rs).
Proof.
  induction issues as [|i issues IH]; intros ls rs; [reflexivity|].
  cbn [fold_left]. rewrite (surjective_pairing (issue_step (ls, rs) i)), IH.
  cbn [issue_step fst snd]. f_equal.
  - change (label_names (i :: issues)) with
      ((match is_labels i with Some l => map label_name l | None => [] end) ++ label_names issues)%list.
    rewrite unit_pairs_app, tally_app. f_equal.
    destruct (is_labels i) as [l|]; [apply skip_empty_tally|reflexivity].
  - change (map is_login (i :: issues)) with ([is_login i] ++ map is_login issues)%list.
    rewrite unit_pairs_app, tally_app. f_equal.
    unfold unit_pairs; simpl. destruct (String.eqb (is_login i) EmptyString); reflexivity.
Qed.

Lemma nested_tally : forall {A} (g : A -> list (string * Z)) xs m,
  fold_left (fun m x => fold_left (fun m' kv => alist_add (fst kv) (snd kv) m') (g x) m) xs m
  = tally (flat_map g xs) m.
Proof.
  intros A g xs; induction xs as [|x xs IH]; intros m; [reflexivity|].
  simpl. rewrite IH, tally_app. reflexivity.
Qed.

(* top_n on unit tallies *)
Lemma top_n_unit : forall n ks,
  let t := take n (sort_desc snd (tally (unit_pairs ks) [])) in
  (List.length t <= n)%nat /\ Sorted (fun a b => snd b <= snd a) t /\ NoDup (map fst t) /\
  (forall a c, In (a, c) t -> a <> EmptyString /\ In a ks /\ c = count_str ks a) /\
  (forall a c b, In (a, c) t -> b <> EmptyString -> In b ks -> ~ In b (map fst t) ->
     count_str ks b <= c).
Proof.
  intros n ks t. destruct (top_n_spec n _ _ (tally_spec (unit_pairs ks))) as (H1 & H2 & H3 & H4 & H5).
  split; [exact H1|split; [exact H2|split; [exact H3|split]]].
  - intros a c Hin. destruct (H4 _ _ Hin) as [Hk ->]. apply unit_pairs_keys in Hk as [Ha Hk].
    rewrite unit_pairs_total by exact Ha. auto.
  - intros a c b Hin Hb Hbk Hnb. rewrite <- unit_pairs_total by exact Hb.
    apply (H5 a c b Hin); [apply unit_pairs_keys; auto|exact Hnb].
Qed.

(** X1.  The top_authors list of _analyze_pr_insights has at most 10
    entries, sorted by decreasing count, with distinct non-empty logins.
    Each count is the number of PRs by that login, and no login left out
    has a larger count than a listed one. *)
Theorem pr_top_authors : forall prs,
  let t := top_authors (_analyze_pr_insights prs) in
  (List.length t <= 10)%nat /\ Sorted (fun a b => snd b <= snd a) t /\ NoDup (map fst t) /\
  (forall a c, In (a, c) t ->
     a <> EmptyString /\ In a (map pr_login prs) /\ c = count_str (map pr_login prs) a) /\
  (forall a c b, In (a, c) t -> b <> EmptyString -> In b (map pr_login prs) ->
     ~ In b (map fst t) -> count_str (map pr_login prs) b <= c).
Proof.
  intros prs t. unfold t, _analyze_pr_insights. cbv zeta. cbn [top_authors].
  rewrite pr_authors_tally. apply top_n_unit.
Qed.

(** X2.  _analyze_issue_insights counts every issue in total_analyzed. Its
    label_distribution has one entry per non-empty label name, holding the
    number of occurrences of that label (at least 1). top_reporters keeps
    at most 10 distinct non-empty logins by decreasing issue count, with
    exact counts and no omitted reporter above a listed one. *)
Theorem issue_insights_counts : forall issues,
  let ii := _analyze_issue_insights issues in
  issue_total_analyzed ii = Z.of_nat (List.length issues) /\
  NoDup (map fst (label_distribution ii)) /\
  (forall name c, In (name, c) (label_distribution ii) ->
     name <> EmptyString /\ c = count_str (label_names issues) name /\ 1 <= c) /\
  (forall name, name <> EmptyString -> In name (label_names issues) ->
     In name (map fst (label_distribution ii))) /\
  let t := top_reporters ii in
  (List.length t <= 10)%nat /\ Sorted (fun a b => snd b <= snd a) t /\ NoDup (map fst t) /\
  (forall a c, In (a, c) t ->
     a <> EmptyString /\ In a (map is_login issues) /\ c = count_str (map is_login issues) a) /\
  (forall a c b, In (a, c) t -> b <> EmptyString -> In b (map is_login issues) ->
     ~ In b (map fst t) -> count_str (map is_login issues) b <= c).
Proof.
  intros issues ii. unfold ii, _analyze_issue_insights. rewrite issue_fold. cbn [label_distribution top_reporters issue_total_analyzed].
  destruct (tally_spec (unit_pairs (label_names issues))) as (Hnd & Hkeys & Hent).
  split; [reflexivity|split; [exact Hnd|split; [|split]]].
  - intros name c Hin. assert (Hk : In name (map fst (unit_pairs (label_names issues))))
      by (apply Hkeys, (in_map fst _ (name, c)), Hin).
    apply unit_pairs_keys in Hk as [Hne Hk]. rewrite (Hent _ _ Hin), unit_pairs_total by exact Hne.
    split; [exact Hne|split; [reflexivity|]]. unfold count_str.
    assert (In name (filter (fun k => String.eqb k name) (label_names issues)))
      by (apply filter_In; rewrite String.eqb_refl; auto).
    destruct (filter _ _); [contradiction|simpl; lia].
  - intros name Hne Hin. apply Hkeys, unit_pairs_keys; auto.
  - apply top_n_unit.
Qed.


Lemma round1_bounds : forall x n, (0 <= x)%Q -> (x <= inject_Z n)%Q ->
  (0 <= round1 x)%Q /\ (round1 x <= inject_Z n)%Q.
Proof.
  intros x n H0 Hn. unfold round1. cbv zeta.
  set (f := Qfloor (x * 10)).
  pose proof (Qfloor_le (x * 10)) as Hfl. pose proof (Qlt_floor (x * 10)) as Hfu.
  fold f in Hfl, Hfu. rewrite inject_Z_plus in Hfu. change (inject_Z 1) with 1%Q in Hfu.
  assert (Hf0 : 0 <= f).
  { assert (H : (-1 < inject_Z f)%Q) by lra.
    change (-1)%Q with (inject_Z (-1)) in H. rewrite <- Zlt_Qlt in H. lia. }
  assert (Hf1 : f <= 10 * n).
  { assert (H : (inject_Z f <= 10 * inject_Z n)%Q) by lra.
    change 10%Q with (inject_Z 10) in H. rewrite <- inject_Z_mult, <- Zle_Qle in H. exact H. }
  assert (Hdiv : forall a, 0 <= a <= 10 * n -> (0 <= inject_Z a / 10)%Q /\ (inject_Z a / 10 <= inject_Z n)%Q).
  { intros a Ha. unfold Qle, Qdiv, Qmult, Qinv, inject_Z; simpl. lia. }
  destruct (Qlt_le_dec (x * 10 - inject_Z f) (1 # 2)) as [Hr|Hr].
  - apply Hdiv; lia.
  - assert (Hlt : f < 10 * n).
    { assert (H : (inject_Z f < 10 * inject_Z n)%Q) by lra.
      change 10%Q with (inject_Z 10) in H. rewrite <- inject_Z_mult, <- Zlt_Qlt in H. exact H. }
    destruct (Qeq_dec (x * 10 - inject_Z f) (1 # 2)); [destruct (Z.even f)|]; apply Hdiv; lia.
Qed.

Lemma percentage_bounds : forall b total, 0 <= b <= total ->
  (0 <= percentage_of b total)%Q /\ (percentage_of b total <= 100)%Q.
Proof.
  intros b total Hb. unfold percentage_of.
  destruct (total =? 0) eqn:E; [split; unfold Qle; simpl; lia|].
  apply Z.eqb_neq in E.
  assert (Ht : (0 < inject_Z total)%Q) by (change 0%Q with (inject_Z 0); rewrite <- Zlt_Qlt; lia).
  assert (H1 : (0 <= inject_Z b / inject_Z total)%Q).
  { apply Qle_shift_div_l; [exact Ht|]. rewrite Qmult_0_l. change 0%Q with (inject_Z 0).
    rewrite <- Zle_Qle; lia. }
  assert (H2 : (inject_Z b / inject_Z total <= 1)%Q).
  { apply Qle_shift_div_r; [exact Ht|]. rewrite Qmult_1_l. rewrite <- Zle_Qle; lia. }
  set (q := (inject_Z b / inject_Z total)%Q) in *.
  apply round1_bounds; change (inject_Z 100) with 100%Q; lra.
Qed.

Lemma sum_nonneg : forall (l : list (string * Z)),
  Forall (fun kv => 0 <= snd kv) l -> 0 <= sum_Z (map snd l).
Proof.
  induction l as [|y l IH]; intros Hf; [unfold sum_Z; simpl; lia|].
  inversion Hf; subst. specialize (IH H2). unfold sum_Z in *; simpl. lia.
Qed.

Lemma in_le_sum : forall (l : list (string * Z)) x,
  Forall (fun kv => 0 <= snd kv) l -> In x l -> snd x <= sum_Z (map snd l).
Proof.
  induction l as [|y l IH]; intros x Hf Hin; [contradiction|].
  inversion Hf as [|? ? Hy Hl]; subst. pose proof (sum_nonneg l Hl).
  destruct Hin as [<-|Hin]; unfold sum_Z in *; simpl; [lia|]. specialize (IH x Hl Hin). lia.
Qed.

Lemma Sorted_map_rel : forall {A B} (R : A -> A -> Prop) (R' : B -> B -> Prop) (f : A -> B) l,
  (forall x y, R x y -> R' (f x) (f y)) -> Sorted R l -> Sorted R' (map f l).
Proof.
  intros A B R R' f l HR Hs; induction Hs as [|x l Hs IH Hh]; simpl; constructor; [exact IH|].
  destruct Hh; simpl; constructor; auto.
Qed.

Lemma lang_pairs_map : forall total (s : list (string * Z)),
  map (fun l => (language l, bytes l))
      (map (fun lb => mkLanguageStats (fst lb) (snd lb) (percentage_of (snd lb) total)) s) = s.
Proof.
  intros total s. rewrite map_map. simpl. rewrite <- (map_id s) at 2. apply map_ext.
  intros [k v]; reflexivity.
Qed.

Lemma lang_percent_bounds : forall (m : list (string * Z)),
  Forall (fun kv => 0 <= snd kv) m ->
  Forall (fun l => (0 <= percentage l)%Q /\ (percentage l <= 100)%Q)
    (map (fun lb => mkLanguageStats (fst lb) (snd lb) (percentage_of (snd lb) (sum_Z (map snd m))))
         (sort_desc snd m)).
Proof.
  intros m Hf. apply Forall_map, Forall_forall. intros x Hx. simpl.
  assert (Hxm : In x m) by (apply (Permutation_in _ (sort_desc_perm snd m)), Hx).
  apply percentage_bounds. split; [rewrite Forall_forall in Hf; apply Hf, Hxm|apply in_le_sum; assumption].
Qed.

(** X4.  The languages of _collect_repo_stats are the (language, bytes)
    pairs of the languages payload, each kept once, sorted by decreasing
    bytes. When no byte count is negative, every percentage lies between 0
    and 100. *)
Theorem collect_languages_spec : forall lb,
  let out := collect_languages lb in
  Permutation (map (fun l => (language l, bytes l)) out) lb /\
  Sorted (fun a b => bytes b <= bytes a) out /\
  (Forall (fun kv => 0 <= snd kv) lb ->
   Forall (fun l => (0 <= percentage l)%Q /\ (percentage l <= 100)%Q) out).
Proof.
  intros lb out. unfold out, collect_languages.
  destruct lb as [|x lb']; [split; [constructor|split; [constructor|intros; constructor]]|].
  set (lb := x :: lb'). cbv zeta. split; [|split].
  - rewrite lang_pairs_map. apply sort_desc_perm.
  - eapply Sorted_map_rel; [|apply (sort_desc_sorted snd)]. intros a b H; exact H.
  - apply lang_percent_bounds.
Qed.

Lemma lang_fold_tally : forall ls m,
  fold_left (fun m' l => alist_add (language l) (bytes l) m') ls m
  = tally (map (fun l => (language l, bytes l)) ls) m.
Proof. induction ls as [|l ls IH]; intros m; [reflexivity|]. simpl. apply IH. Qed.

Lemma key_total_nonneg : forall P k, Forall (fun kv => 0 <= snd kv) P -> 0 <= key_total P k.
Proof.
  intros P k Hf. unfold key_total. induction P as [|x P IH]; [unfold sum_Z; simpl; lia|].
  inversion Hf; subst. simpl. destruct (String.eqb (fst x) k); simpl; [|auto].
  unfold sum_Z in *; simpl. specialize (IH H2). lia.
Qed.

Lemma tally_inv_perm : forall m m' P, Permutation m m' -> tally_inv m P -> tally_inv m' P.
Proof.
  intros m m' P Hp (Hnd & Hk & He). split; [|split].
  - eapply Permutation_NoDup; [apply Permutation_map, Hp|exact Hnd].
  - intros k. rewrite <- Hk. split; apply Permutation_in; [symmetry|]; apply Permutation_map, Hp.
  - intros k v Hin. apply He. apply (Permutation_in _ (Permutation_sym Hp)), Hin.
Qed.

Lemma merge_lang_fold : forall rs m,
  fold_left (fun m r => fold_left (fun m' l => alist_add (language l) (bytes l) m')
                          (rs_languages r) m) rs m
  = tally (repo_lang_pairs rs) m.
Proof.
  induction rs as [|r rs IH]; intros m; [reflexivity|].
  simpl. rewrite IH, lang_fold_tally. unfold repo_lang_pairs; simpl. rewrite tally_app. reflexivity.
Qed.

(** X5.  The org languages of aggregate_org_report have one entry per
    language seen in any repository, holding its bytes added up over the
    repositories, sorted by decreasing bytes. When no byte count is
    negative, every percentage lies between 0 and 100. *)
Theorem merge_languages_spec : forall rs,
  let out := merge_languages rs in
  tally_inv (map (fun l => (language l, bytes l)) out) (repo_lang_pairs rs) /\
  Sorted (fun a b => bytes b <= bytes a) out /\
  (Forall (fun kv => 0 <= snd kv) (repo_lang_pairs rs) ->
   Forall (fun l => (0 <= percentage l)%Q /\ (percentage l <= 100)%Q) out).
Proof.
  intros rs out. unfold out, merge_languages. cbv zeta. rewrite merge_lang_fold.
  pose proof (tally_spec (repo_lang_pairs rs)) as Hinv.
  split; [|split].
  - rewrite lang_pairs_map. eapply tally_inv_perm; [symmetry; apply sort_desc_perm|exact Hinv].
  - eapply Sorted_map_rel; [|apply (sort_desc_sorted snd)]. intros a b H; exact H.
  - intros Hf. apply lang_percent_bounds. apply Forall_forall. intros [k v] Hin.
    destruct Hinv as (_ & _ & He). simpl. rewrite (He k v Hin). apply key_total_nonneg, Hf.
Qed.

Lemma round1_nonneg : forall x, (0 <= x)%Q -> (0 <= round1 x)%Q.
Proof. intros x H. apply (round1_bounds x (Qceiling x) H), Qle_ceiling. Qed.

Lemma sum_Q_nonneg : forall l, all_nonneg l -> (0 <= sum_Q l)%Q.
Proof.
  induction l as [|x l IH]; intros H; [apply Qle_refl|].
  inversion H; subst. simpl. specialize (IH H3). lra.
Qed.

Lemma avg_Q_nonneg : forall l a, all_nonneg l -> avg_Q l = Some a -> (0 <= a)%Q.
Proof.
  intros l a Hl Ha. destruct l as [|x l']; [discriminate|]. injection Ha as <-.
  apply round1_nonneg. apply Qle_shift_div_l.
  - change 0%Q with (inject_Z 0). rewrite <- Zlt_Qlt. cbn [Datatypes.length]. lia.
  - rewrite Qmult_0_l. exact (sum_Q_nonneg (x :: l') Hl).
Qed.

Lemma in_insert_Q : forall x y l, In x (insert_Q y l) -> x = y \/ In x l.
Proof.
  induction l as [|z l IH]; simpl; [intuition|].
  destruct (Qle_bool y z); simpl; [intuition|]. intros [<-|H]; [auto|]. destruct (IH H); auto.
Qed.

Lemma sort_Q_nonneg : forall l, all_nonneg l -> all_nonneg (sort_Q l).
Proof.
  unfold all_nonneg. induction l as [|x l IH]; intros H; [constructor|].
  inversion H; subst. simpl. specialize (IH H3). rewrite Forall_forall in *.
  intros y Hy. destruct (in_insert_Q _ _ _ Hy) as [->|Hy']; auto.
Qed.

Lemma nth_nonneg : forall n l, all_nonneg l -> (0 <= nth n l 0)%Q.
Proof.
  induction n as [|n IH]; intros [|x l] H; try apply Qle_refl; inversion H; subst; simpl; auto.
Qed.

Lemma median_pick_nonneg : forall (b : bool) i j s, all_nonneg s ->
  (0 <= (if b then ((nth i s 0 + nth j s 0) / 2)%Q else nth i s 0%Q))%Q.
Proof.
  intros b i j s Hs. destruct b; [|apply nth_nonneg, Hs].
  pose proof (nth_nonneg i s Hs). pose proof (nth_nonneg j s Hs).
  apply Qle_shift_div_l; [reflexivity|]. lra.
Qed.

Lemma median_Q_nonneg : forall l m, all_nonneg l -> median_Q l = Some m -> (0 <= m)%Q.
Proof.
  intros l m Hl Hm. unfold median_Q in Hm. destruct l as [|x l']; [discriminate|].
  injection Hm as <-. apply round1_nonneg, median_pick_nonneg. exact (sort_Q_nonneg (x :: l') Hl).
Qed.

Lemma append_if_nonneg_ok : forall h l, all_nonneg l -> all_nonneg (append_if_nonneg h l).
Proof.
  intros h l H. unfold append_if_nonneg. destruct (Qle_bool 0 h) eqn:E; [|exact H].
  apply Forall_app; split; [exact H|]. constructor; [apply Qle_bool_iff, E|constructor].
Qed.

Lemma pr_step_nonneg : forall st pr,
  all_nonneg (pra_merge_hours st) -> all_nonneg (pra_close_hours st) ->
  all_nonneg (pra_merge_hours (pr_step st pr)) /\ all_nonneg (pra_close_hours (pr_step st pr)).
Proof.
  intros st pr Hm Hc. unfold pr_step. destruct (pr_created_at pr); simpl; auto.
  split.
  - destruct (pr_merged_at pr); auto using append_if_nonneg_ok.
  - destruct (_ && _); auto. destruct (pr_closed_at pr); auto using append_if_nonneg_ok.
Qed.

Lemma pr_fold_nonneg : forall prs st,
  all_nonneg (pra_merge_hours st) -> all_nonneg (pra_close_hours st) ->
  all_nonneg (pra_merge_hours (fold_left pr_step prs st)) /\
  all_nonneg (pra_close_hours (fold_left pr_step prs st)).
Proof.
  induction prs as [|pr prs IH]; intros st Hm Hc; [auto|].
  simpl. destruct (pr_step_nonneg st pr Hm Hc). apply IH; assumption.
Qed.

Lemma pr_fold_drafts : forall prs st,
  pra_draft_count (fold_left pr_step prs st)
  = pra_draft_count st + Z.of_nat (List.length (filter pr_draft prs)).
Proof.
  induction prs as [|pr prs IH]; intros st; [simpl; lia|].
  cbn [fold_left filter]. rewrite IH.
  assert (pra_draft_count (pr_step st pr)
          = if pr_draft pr then pra_draft_count st + 1 else pra_draft_count st)
    by (unfold pr_step; destruct (pr_created_at pr); reflexivity).
  rewrite H. destruct (pr_draft pr); cbn [Datatypes.length]; lia.
Qed.

(** X6.  The average merge time, median merge time and average close time
    computed by _analyze_pr_insights are never negative. The average merge
    time is None exactly when the median is None. draft_count is the
    number of draft PRs. *)
Theorem pr_latency_summary : forall prs,
  let pi := _analyze_pr_insights prs in
  (forall a, avg_merge_hours pi = Some a -> (0 <= a)%Q) /\
  (forall m, median_merge_hours pi = Some m -> (0 <= m)%Q) /\
  (forall c, avg_close_hours pi = Some c -> (0 <= c)%Q) /\
  (avg_merge_hours pi = None <-> median_merge_hours pi = None) /\
  draft_count pi = Z.of_nat (List.length (filter pr_draft prs)).
Proof.
  intros prs pi. unfold pi, _analyze_pr_insights. cbv zeta. cbn [avg_merge_hours median_merge_hours
    avg_close_hours draft_count].
  destruct (pr_fold_nonneg prs (mkPRAcc [] [] 0 []) (Forall_nil _) (Forall_nil _)) as [Hm Hc].
  split; [|split; [|split; [|split]]].
  - intros a; apply avg_Q_nonneg, Hm.
  - intros m; apply median_Q_nonneg, Hm.
  - intros c; apply avg_Q_nonneg, Hc.
  - destruct (pra_merge_hours _); simpl; split; discriminate || reflexivity.
  - rewrite pr_fold_drafts. reflexivity.
Qed.

Lemma zmap_add_keys : forall k n m h,
  In h (map fst (zmap_add k n m)) <-> h = k \/ In h (map fst m).
Proof.
  intros k n m h; induction m as [|[k' v] m IH]; simpl; [intuition|].
  destruct (k =? k') eqn:E; simpl; [apply Z.eqb_eq in E; subst; intuition|].
  rewrite IH. intuition.
Qed.

Lemma zmap_add_nodup : forall k n m, NoDup (map fst m) -> NoDup (map fst (zmap_add k n m)).
Proof.
  intros k n m; induction m as [|[k' v] m IH]; intros H; simpl; [constructor; [simpl; tauto|constructor]|].
  inversion H; subst. destruct (k =? k') eqn:E; simpl; constructor; auto.
  rewrite zmap_add_keys. apply Z.eqb_neq in E. intuition.
Qed.

Lemma zmap_add_other : forall k n m h c, h <> k -> (In (h, c) (zmap_add k n m) <-> In (h, c) m).
Proof.
  intros k n m h c Hne; induction m as [|[k' v] m IH]; simpl.
  - split; [intros [H|[]]; congruence|contradiction].
  - destruct (k =? k') eqn:E; simpl.
    + apply Z.eqb_eq in E; subst. split; intros [H|H]; auto; inversion H; congruence.
    + rewrite IH. reflexivity.
Qed.

Lemma zmap_add_same : forall k n m c, NoDup (map fst m) ->
  (In (k, c) (zmap_add k n m) <-> c = zget k m + n).
Proof.
  intros k n m c; induction m as [|[k' v] m IH]; intros H; simpl.
  - split; [intros [H'|[]]; inversion H'; lia|intros ->; left; f_equal; lia].
  - inversion H; subst. destruct (k =? k') eqn:E; simpl.
    + apply Z.eqb_eq in E; subst. split.
      * intros [H'|H']; [inversion H'; lia|]. exfalso. apply H2, (in_map fst _ (k', c)), H'.
      * intros ->; left; reflexivity.
    + rewrite <- IH by assumption. apply Z.eqb_neq in E. split; [intros [H'|H']; [inversion H'; congruence|exact H']|auto].
Qed.

Lemma zmap_add_sum : forall k n m, sum_Z (map snd (zmap_add k n m)) = sum_Z (map snd m) + n.
Proof.
  intros k n m; induction m as [|[k' v] m IH]; unfold sum_Z in *; simpl; [lia|].
  destruct (k =? k'); simpl; lia.
Qed.

Lemma zget_in : forall k v m, NoDup (map fst m) -> In (k, v) m -> zget k m = v.
Proof.
  intros k v m; induction m as [|[k' w] m IH]; intros Hnd Hin; [contradiction|].
  inversion Hnd; subst. simpl. destruct Hin as [Heq|Hin].
  - inversion Heq; subst. rewrite Z.eqb_refl. reflexivity.
  - destruct (k =? k') eqn:E; [apply Z.eqb_eq in E; subst; exfalso; apply H1, (in_map fst _ (k', v)), Hin|].
    auto.
Qed.

Lemma zget_notin : forall k m, ~ In k (map fst m) -> zget k m = 0.
Proof.
  intros k m; induction m as [|[k' w] m IH]; intros Hn; [reflexivity|].
  simpl in *. destruct (k =? k') eqn:E; [apply Z.eqb_eq in E; subst; tauto|]. auto.
Qed.

Lemma zcnt_snoc : forall L k h, zcnt (L ++ [k])%list h = zcnt L h + (if Z.eq_dec k h then 1 else 0).
Proof.
  intros L k h. unfold zcnt. rewrite count_occ_app. simpl. destruct (Z.eq_dec k h); lia.
Qed.

Lemma zinv_step : forall m L k, zinv m L -> zinv (zmap_add k 1 m) (L ++ [k])%list.
Proof.
  intros m L k (Hnd & Hin & Hs). split; [apply zmap_add_nodup, Hnd|split].
  - intros h c. rewrite in_app_iff, zcnt_snoc. simpl.
    destruct (Z.eq_dec k h) as [<-|Hne].
    + rewrite zmap_add_same by exact Hnd.
      assert (Hg : zget k m = zcnt L k).
      { destruct (in_dec Z.eq_dec k L) as [HL|HL].
        - apply zget_in; [exact Hnd|]. apply Hin; auto.
        - rewrite zget_notin; [unfold zcnt; rewrite (count_occ_not_In Z.eq_dec) in HL; lia|].
          intros Hk. apply in_map_iff in Hk as [[k' c'] [Hk' Hk]]. simpl in Hk'; subst.
          apply HL, (proj1 (proj1 (Hin _ _) Hk)). }
      rewrite Hg. split; [intros ->; auto|intros [_ ->]; reflexivity].
    + rewrite zmap_add_other by congruence. rewrite Hin, Z.add_0_r.
      split; [tauto|intros [[H|[H|[]]] ->]; [auto|congruence]].
  - rewrite zmap_add_sum, Hs, length_app. simpl. lia.
Qed.

Lemma pattern_fold_dist : forall cs st L1 L2,
  zinv (pa_hourly st) L1 -> zinv (pa_weekday st) L2 ->
  zinv (pa_hourly (fold_left pattern_step cs st)) (L1 ++ map fst (filter_some (map cm_date cs)))%list /\
  zinv (pa_weekday (fold_left pattern_step cs st)) (L2 ++ map snd (filter_some (map cm_date cs)))%list.
Proof.
  induction cs as [|c cs IH]; intros st L1 L2 H1 H2; simpl; [rewrite !app_nil_r; auto|].
  destruct (cm_date c) as [[h w]|] eqn:Ed; simpl.
  - replace (L1 ++ h :: map fst (filter_some (map cm_date cs)))%list
      with ((L1 ++ [h]) ++ map fst (filter_some (map cm_date cs)))%list by (rewrite <- app_assoc; reflexivity).
    replace (L2 ++ w :: map snd (filter_some (map cm_date cs)))%list
      with ((L2 ++ [w]) ++ map snd (filter_some (map cm_date cs)))%list by (rewrite <- app_assoc; reflexivity).
    apply IH; unfold pattern_step; rewrite Ed; simpl; apply zinv_step; assumption.
  - apply IH; unfold pattern_step; rewrite Ed; simpl; assumption.
Qed.

(** X7.  The hourly and weekday distributions of _analyze_commit_patterns
    have distinct keys. Each key maps to the number of dated commits with
    that hour (or weekday), and the counts of each distribution add up to
    the number of dated commits. *)
Theorem commit_time_distribution : forall cs,
  let p := _analyze_commit_patterns cs in
  let dated := filter_some (map cm_date cs) in
  NoDup (map fst (hourly_distribution p)) /\
  (forall h c, In (h, c) (hourly_distribution p) <->
               In h (map fst dated) /\ c = zcnt (map fst dated) h) /\
  sum_Z (map snd (hourly_distribution p)) = Z.of_nat (List.length dated) /\
  NoDup (map fst (weekday_distribution p)) /\
  (forall d c, In (d, c) (weekday_distribution p) <->
               In d (map snd dated) /\ c = zcnt (map snd dated) d) /\
  sum_Z (map snd (weekday_distribution p)) = Z.of_nat (List.length dated).
Proof.
  intros cs p dated. unfold p, _analyze_commit_patterns. cbv zeta. cbn [hourly_distribution weekday_distribution].
  assert (H0 : zinv [] []) by (split; [constructor|split; [simpl; tauto|reflexivity]]).
  destruct (pattern_fold_dist cs (mkPatternAcc (map (fun t => (t, 0)) _CONVENTIONAL_TYPES ++ [("other", 0)]) [] [])
              [] [] H0 H0) as [(Ha & Hb & Hc) (Hd & He & Hf)].
  simpl in Ha, Hb, Hc, Hd, He, Hf. fold dated in Ha, Hb, Hc, Hd, He, Hf.
  rewrite !length_map in Hc, Hf. auto 7.
Qed.

Lemma pr_counts_fold : forall prs o m,
  fold_left (fun (oc : Z * Z) (pr : PullRequest) =>
               let (open_prs, merged_prs) := oc in
               if stamp_truthy (pr_merged_at pr) then (open_prs, merged_prs + 1)
               else if String.eqb (pr_state pr) "open" then (open_prs + 1, merged_prs)
               else (open_prs, merged_prs)) prs (o, m)
  = (o + count_pr (fun pr => negb (stamp_truthy (pr_merged_at pr)) && String.eqb (pr_state pr) "open") prs,
     m + count_pr (fun pr => stamp_truthy (pr_merged_at pr)) prs).
Proof.
  unfold count_pr. induction prs as [|pr prs IH]; intros o m; cbn [fold_left filter Datatypes.length];
    [f_equal; lia|].
  destruct (stamp_truthy (pr_merged_at pr)); cbn [negb andb filter Datatypes.length];
    [rewrite IH, Nat2Z.inj_succ; f_equal; lia|].
  destruct (String.eqb (pr_state pr) "open"); cbn [filter Datatypes.length]; rewrite IH, ?Nat2Z.inj_succ;
    f_equal; lia.
Qed.

Lemma count_pr_split : forall prs,
  count_pr (fun pr => negb (stamp_truthy (pr_merged_at pr)) && String.eqb (pr_state pr) "open") prs
  + count_pr (fun pr => stamp_truthy (pr_merged_at pr)) prs <= Z.of_nat (List.length prs).
Proof.
  unfold count_pr. induction prs as [|pr prs IH]; cbn [filter Datatypes.length]; [lia|].
  destruct (stamp_truthy (pr_merged_at pr)); cbn [negb andb filter Datatypes.length];
    [|destruct (String.eqb (pr_state pr) "open"); cbn [filter Datatypes.length]];
    rewrite ?Nat2Z.inj_succ; lia.
Qed.

(** X8.  In _collect_repo_stats, merged_prs counts the PRs with a truthy
    merged_at, and open_prs counts the unmerged PRs whose state is open.
    open_prs + merged_prs never exceeds the PR insight's total_analyzed.
    The commit-pattern total equals total_commits, and the issue insight's
    total_analyzed equals open_issues. *)
Theorem repo_stats_consistency : forall owner meta since_ts until_ts f,
  let r := _collect_repo_stats owner meta since_ts until_ts f in
  let prs := or_empty (f_prs f) in
  rs_merged_prs r = count_pr (fun pr => stamp_truthy (pr_merged_at pr)) prs /\
  rs_open_prs r = count_pr (fun pr => negb (stamp_truthy (pr_merged_at pr))
                                      && String.eqb (pr_state pr) "open") prs /\
  (exists pi, rs_pr_insights r = Some pi /\
              rs_open_prs r + rs_merged_prs r <= pr_total_analyzed pi) /\
  (exists cp, rs_commit_patterns r = Some cp /\ cp_total cp = rs_total_commits r) /\
  (exists ii, rs_issue_insights r = Some ii /\ issue_total_analyzed ii = rs_open_issues r).
Proof.
  intros owner meta since_ts until_ts f r prs. unfold r, _collect_repo_stats. fold prs.
  unfold pr_counts. rewrite pr_counts_fold. cbn -[count_pr _analyze_pr_insights _analyze_commit_patterns
    _analyze_issue_insights].
  split; [reflexivity|]. split; [reflexivity|]. split; [|split].
  - eexists; split; [reflexivity|]. unfold _analyze_pr_insights; cbn [pr_total_analyzed].
    pose proof (count_pr_split prs). lia.
  - eexists; split; [reflexivity|]. reflexivity.
  - eexists; split; [reflexivity|]. unfold _analyze_issue_insights.
    destruct (fold_left issue_step _ _); reflexivity.
Qed.

Lemma filter_some_map_some : forall {A B} (g : A -> B) l,
  filter_some (map (fun x => Some (g x)) l) = map g l.
Proof. intros A B g l; induction l as [|x l IH]; simpl; congruence. Qed.

Lemma filter_some_ext : forall {A B} (h : A -> option B) (g : A -> B) l,
  (forall x, h x = Some (g x)) -> filter_some (map h l) = map g l.
Proof. intros A B h g l H; induction l as [|x l IH]; simpl; [reflexivity|]. rewrite H; simpl; congruence. Qed.

Lemma collect_fields : forall owner meta s u f,
  let r := _collect_repo_stats owner meta s u f in
  rs_commit_patterns r = Some (_analyze_commit_patterns (or_empty (f_commits f))) /\
  rs_pr_insights r = Some (_analyze_pr_insights (or_empty (f_prs f))) /\
  rs_issue_insights r = Some (_analyze_issue_insights (or_empty (f_issues f))) /\
  rs_total_commits r = Z.of_nat (List.length (or_empty (f_commits f))) /\
  rs_open_issues r = Z.of_nat (List.length (or_empty (f_issues f))) /\
  rs_contributors r = acc_contributors (collect_contributors s u (Some (or_empty (f_contributors f)))) /\
  rs_total_additions r = acc_total_additions (collect_contributors s u (Some (or_empty (f_contributors f)))) /\
  rs_total_deletions r = acc_total_deletions (collect_contributors s u (Some (or_empty (f_contributors f)))) /\
  (rs_open_prs r, rs_merged_prs r) = pr_counts (or_empty (f_prs f)).
Proof.
  intros owner meta s u f r. unfold r, _collect_repo_stats.
  destruct (pr_counts (or_empty (f_prs f))); repeat split; reflexivity.
Qed.

Lemma analyze_pattern_sum : forall cs,
  pattern_sum (_analyze_commit_patterns cs) = cp_total (_analyze_commit_patterns cs).
Proof.
  intros cs.
  assert (Hk : forall k, count_of k (pa_counts (fold_left pattern_step cs
             (mkPatternAcc (map (fun t => (t, 0)) _CONVENTIONAL_TYPES ++ [("other", 0)]) [] [])))
             = count_of k (map (fun t => (t, 0)) _CONVENTIONAL_TYPES ++ [("other", 0)])
               + count_type k cs)
    by (intros; apply pattern_fold_counts).
  unfold pattern_sum, _analyze_commit_patterns; cbn zeta.
  rewrite !Hk. cbn [cp_feat cp_fix cp_refactor cp_docs cp_test cp_chore cp_style cp_ci cp_other cp_total].
  rewrite <- count_types_total.
  cbn [count_of alist_get map app String.eqb Ascii.eqb Bool.eqb _CONVENTIONAL_TYPES]. lia.
Qed.

Lemma sum_Z_map_add : forall {A} (f g : A -> Z) l,
  sum_Z (map (fun x => f x + g x) l) = sum_Z (map f l) + sum_Z (map g l).
Proof. intros A f g l; induction l as [|x l IH]; unfold sum_Z in *; simpl; lia. Qed.

Lemma sum_Z_map_le : forall {A} (f g : A -> Z) l,
  (forall x, In x l -> f x <= g x) -> sum_Z (map f l) <= sum_Z (map g l).
Proof.
  intros A f g l; induction l as [|x l IH]; intros H; unfold sum_Z in *; simpl; [lia|].
  specialize (H x (or_introl eq_refl)) as Hx. specialize (IH (fun y Hy => H y (or_intror Hy))). lia.
Qed.

Lemma alist_set_sum : forall {V} (g : V -> Z) k v m,
  sum_Z (map (fun kv => g (snd kv)) (alist_set k v m))
  = sum_Z (map (fun kv => g (snd kv)) m)
    - (match alist_get k m with Some e => g e | None => 0 end) + g v.
Proof.
  intros V g k v m; induction m as [|[k' v'] m IH]; unfold sum_Z in *; simpl; [lia|].
  destruct (String.eqb k k'); simpl; [lia|]. rewrite IH. lia.
Qed.

Lemma merge_contributor_sum : forall (f : ContributorStats -> Z) m c,
  (f = commits \/ f = additions \/ f = deletions) ->
  sum_Z (map f (map snd (merge_contributor m c))) = sum_Z (map f (map snd m)) + f c.
Proof.
  intros f m c Hf. rewrite !map_map. unfold merge_contributor.
  destruct (alist_get (username c) m) eqn:E; rewrite alist_set_sum, E;
    destruct Hf as [-> | [-> | ->]]; simpl; lia.
Qed.

Lemma contrib_totals_sum : forall (f : ContributorStats -> Z) rs,
  (f = commits \/ f = additions \/ f = deletions) ->
  sum_Z (map f (map snd (contrib_totals rs))) = sum_Z (map f (flat_map rs_contributors rs)).
Proof.
  intros f rs Hf. rewrite contrib_totals_flat.
  assert (H : forall P m, sum_Z (map f (map snd (fold_left merge_contributor P m)))
                          = sum_Z (map f (map snd m)) + sum_Z (map f P)).
  { induction P as [|c P IH]; intros m; [unfold sum_Z; simpl; lia|].
    simpl. rewrite IH, merge_contributor_sum by exact Hf. unfold sum_Z; simpl; lia. }
  rewrite H. unfold sum_Z; simpl; lia.
Qed.

Lemma sum_flat_map : forall (f : ContributorStats -> Z) rs,
  sum_Z (map f (flat_map rs_contributors rs)) = sum_Z (map (fun r => sum_Z (map f (rs_contributors r))) rs).
Proof.
  intros f rs; induction rs as [|r rs IH]; [reflexivity|].
  simpl. rewrite map_app, sum_Z_app, IH. unfold sum_Z; simpl; lia.
Qed.

Lemma pattern_sum_sum : forall all,
  sum_Z (map pattern_sum all)
  = sum_Z (map cp_feat all) + sum_Z (map cp_fix all) + sum_Z (map cp_refactor all)
    + sum_Z (map cp_docs all) + sum_Z (map cp_test all) + sum_Z (map cp_chore all)
    + sum_Z (map cp_style all) + sum_Z (map cp_ci all) + sum_Z (map cp_other all).
Proof. induction all as [|p all IH]; unfold sum_Z, pattern_sum in *; simpl; lia. Qed.

Lemma merge_cp_totals : forall rs,
  let all := filter_some (map rs_commit_patterns rs) in
  match merge_commit_patterns rs with
  | None => all = []
  | Some p => pattern_sum p = sum_Z (map pattern_sum all) /\ cp_total p = sum_Z (map cp_total all)
  end.
Proof.
  intros rs all. unfold merge_commit_patterns. fold all.
  destruct all as [|a l]; [reflexivity|]. rewrite pattern_sum_sum. split; reflexivity.
Qed.

Lemma merge_pr_total : forall rs,
  let all := filter_some (map rs_pr_insights rs) in
  match merge_pr_insights rs with
  | None => all = []
  | Some pi => pr_total_analyzed pi = sum_Z (map pr_total_analyzed all)
  end.
Proof.
  intros rs all. unfold merge_pr_insights. fold all. destruct all as [|a l]; reflexivity.
Qed.

Lemma merge_issue_total : forall rs,
  let all := filter_some (map rs_issue_insights rs) in
  match merge_issue_insights rs with
  | None => all = []
  | Some ii => issue_total_analyzed ii = sum_Z (map issue_total_analyzed all)
  end.
Proof.
  intros rs all. unfold merge_issue_insights. fold all. destruct all as [|a l]; reflexivity.
Qed.

Lemma issue_total_len : forall issues,
  issue_total_analyzed (_analyze_issue_insights issues) = Z.of_nat (List.length issues).
Proof. intros issues. unfold _analyze_issue_insights. destruct (fold_left _ _ _); reflexivity. Qed.

Lemma repo_pr_le : forall owner meta s u f,
  let r := _collect_repo_stats owner meta s u f in
  rs_open_prs r + rs_merged_prs r <= Z.of_nat (List.length (or_empty (f_prs f))).
Proof.
  intros owner meta s u f r. destruct (collect_fields owner meta s u f) as (_ & _ & _ & _ & _ & _ & _ & _ & H).
  fold r in H. unfold pr_counts in H. rewrite pr_counts_fold in H. injection H as -> ->.
  pose proof (count_pr_split (or_empty (f_prs f))). lia.
Qed.

(** X9.  For an org report built from collected repositories: the org
    commit-pattern total equals total_commits, and its nine type counters
    add up to that total. Open plus merged PRs never exceed the org PR
    total_analyzed, and the org issue total_analyzed equals
    total_open_issues. Each insight is None only when there is no
    repository. Without bot or min-commit filtering, total_additions and
    total_deletions are the sums over the org contributors. *)
Theorem org_report_collected : forall owner since_ts until_ts inputs org_name since until failed
    sort_by exclude_bots min_commits,
  let rs := collect_all owner since_ts until_ts inputs in
  let rep := build_report org_name since until rs failed sort_by exclude_bots min_commits in
  (match org_commit_patterns rep with
   | None => inputs = []
   | Some p => cp_total p = total_commits rep /\ pattern_sum p = cp_total p
   end) /\
  (match org_pr_insights rep with
   | None => inputs = []
   | Some pi => total_open_prs rep + total_merged_prs rep <= pr_total_analyzed pi
   end) /\
  (match org_issue_insights rep with
   | None => inputs = []
   | Some ii => issue_total_analyzed ii = total_open_issues rep
   end) /\
  (exclude_bots = false -> min_commits <= 0 ->
   total_additions rep = sum_Z (map additions (org_contributors rep)) /\
   total_deletions rep = sum_Z (map deletions (org_contributors rep))).
Proof.
  intros owner since_ts until_ts inputs org_name since until failed sort_by exclude_bots min_commits rs rep.
  unfold rep, build_report. cbv zeta.
  cbn [org_commit_patterns org_pr_insights org_issue_insights total_commits total_open_prs
       total_merged_prs total_open_issues total_additions total_deletions org_contributors].
  assert (Hfs : forall mf, let r := _collect_repo_stats owner (fst mf) since_ts until_ts (snd mf) in _)
    by (intros mf; exact (collect_fields owner (fst mf) since_ts until_ts (snd mf))).
  assert (Hcp : filter_some (map rs_commit_patterns rs)
                = map (fun mf => _analyze_commit_patterns (or_empty (f_commits (snd mf)))) inputs).
  { unfold rs, collect_all. rewrite map_map. apply filter_some_ext.
    intros mf. destruct (Hfs mf) as (H1 & H2 & H3 & _). congruence. }
  assert (Hpr : filter_some (map rs_pr_insights rs)
                = map (fun mf => _analyze_pr_insights (or_empty (f_prs (snd mf)))) inputs).
  { unfold rs, collect_all. rewrite map_map. apply filter_some_ext.
    intros mf. destruct (Hfs mf) as (H1 & H2 & H3 & _). congruence. }
  assert (His : filter_some (map rs_issue_insights rs)
                = map (fun mf => _analyze_issue_insights (or_empty (f_issues (snd mf)))) inputs).
  { unfold rs, collect_all. rewrite map_map. apply filter_some_ext.
    intros mf. destruct (Hfs mf) as (H1 & H2 & H3 & _). congruence. }
  split; [|split; [|split]].
  - pose proof (merge_cp_totals rs) as H. cbv zeta in H. rewrite Hcp in H.
    destruct (merge_commit_patterns rs) as [p|]; [|destruct inputs; [reflexivity|discriminate]].
    destruct H as [H1 H2]. rewrite H1, H2, !map_map.
    split.
    + unfold rs, collect_all. rewrite map_map. f_equal. apply map_ext. intros mf.
      destruct (Hfs mf) as (_ & _ & _ & H4 & _). rewrite H4; reflexivity.
    + f_equal. apply map_ext. intros mf. apply analyze_pattern_sum.
  - pose proof (merge_pr_total rs) as H. cbv zeta in H. rewrite Hpr in H.
    destruct (merge_pr_insights rs) as [pi|]; [|destruct inputs; [reflexivity|discriminate]].
    rewrite H, map_map, <- sum_Z_map_add. unfold rs, collect_all. rewrite map_map.
    apply sum_Z_map_le. intros mf _. apply repo_pr_le.
  - pose proof (merge_issue_total rs) as H. cbv zeta in H. rewrite His in H.
    destruct (merge_issue_insights rs) as [ii|]; [|destruct inputs; [reflexivity|discriminate]].
    rewrite H, map_map. unfold rs, collect_all. rewrite map_map. f_equal. apply map_ext. intros mf.
    rewrite issue_total_len. destruct (Hfs mf) as (_ & _ & _ & _ & H5 & _). congruence.
  - intros -> Hmc. unfold org_contributor_list.
    replace (min_commits >? 0) with false by (symmetry; rewrite Z.gtb_ltb; apply Z.ltb_ge; lia).
    assert (Hrepo : forall (f : ContributorStats -> Z) (g : RepoStats -> Z),
      (f = additions /\ g = rs_total_additions) \/ (f = deletions /\ g = rs_total_deletions) ->
      sum_Z (map g rs) = sum_Z (map f (sort_desc (_sort_key sort_by) (map snd (contrib_totals rs))))).
    { intros f g Hfg.
      rewrite (sum_Z_perm _ _ (Permutation_map f (sort_desc_perm (_sort_key sort_by) _))).
      rewrite contrib_totals_sum by (destruct Hfg as [[-> _]|[-> _]]; auto).
      rewrite sum_flat_map. f_equal. unfold rs, collect_all. rewrite !map_map. apply map_ext. intros mf.
      destruct (Hfs mf) as (_ & _ & _ & _ & _ & Hc & Ha & Hd & _).
      destruct (collect_contributors_totals since_ts until_ts (Some (or_empty (f_contributors (snd mf)))))
        as [Ta Td].
      destruct Hfg as [[-> ->]|[-> ->]]; [rewrite Ha, Hc|rewrite Hd, Hc]; assumption. }
    split; apply Hrepo; auto.
Qed.

Lemma zget_zmap_add : forall h k n m, zget h (zmap_add k n m) = zget h m + (if h =? k then n else 0).
Proof.
  intros h k n m; induction m as [|[k' v] m IH]; simpl.
  - destruct (h =? k); lia.
  - destruct (k =? k') eqn:E; simpl.
    + apply Z.eqb_eq in E; subst. destruct (h =? k'); lia.
    + destruct (h =? k') eqn:E'; [|exact IH].
      apply Z.eqb_eq in E'; subst. rewrite Z.eqb_sym, E. lia.
Qed.

Lemma zmerge_spec : forall P m,
  (forall h, zget h (zmerge P m) = zget h m + ztotal P h) /\
  (forall h, In h (map fst (zmerge P m)) <-> In h (map fst m) \/ In h (map fst P)) /\
  (NoDup (map fst m) -> NoDup (map fst (zmerge P m))).
Proof.
  unfold zmerge, ztotal. induction P as [|[k n] P IH]; intros m; simpl.
  - split; [intros; unfold sum_Z; simpl; lia|split; [tauto|auto]].
  - destruct (IH (zmap_add k n m)) as (H1 & H2 & H3). split; [|split].
    + intros h. rewrite H1, zget_zmap_add.
      destruct (Z.eqb_spec h k) as [->|Hne];
        [rewrite Z.eqb_refl|rewrite (proj2 (Z.eqb_neq k h)) by congruence]; unfold sum_Z; simpl; lia.
    + intros h. rewrite H2, zmap_add_keys. intuition.
    + intros Hn. apply H3, zmap_add_nodup, Hn.
Qed.

Lemma zmerge_nested : forall {A} (g : A -> list (Z * Z)) xs m,
  fold_left (fun m x => fold_left (fun m' hc => zmap_add (fst hc) (snd hc) m') (g x) m) xs m
  = zmerge (flat_map g xs) m.
Proof.
  intros A g xs; induction xs as [|x xs IH]; intros m; [reflexivity|].
  simpl. rewrite IH. unfold zmerge. rewrite fold_left_app. reflexivity.
Qed.

Lemma zmerge_in : forall P h c,
  In (h, c) (zmerge P []) <-> In h (map fst P) /\ c = ztotal P h.
Proof.
  intros P h c. destruct (zmerge_spec P []) as (H1 & H2 & H3).
  specialize (H3 (NoDup_nil _)). simpl in H1, H2.
  split.
  - intros Hin. split; [destruct (proj1 (H2 h) (in_map fst _ (h, c) Hin)) as [[]|H]; exact H|].
    rewrite <- (zget_in _ _ _ H3 Hin). apply H1.
  - intros [Hh ->]. pose proof (proj2 (H2 h) (or_intror Hh)) as Hh'.
    apply in_map_iff in Hh' as [[h' c'] [Eh Hin]]. simpl in Eh; subst h'.
    rewrite <- H1, (zget_in _ _ _ H3 Hin). exact Hin.
Qed.


(* Contributor trends. *)
Lemma trends_fold : forall s u raw acc,
  fold_left (fun acc c => match trend_of s u c with
                          | Some t => (acc ++ [t])%list | None => acc end) raw acc
  = (acc ++ filter_some (map (trend_of s u) raw))%list.
Proof.
  intros s u raw; induction raw as [|c raw IH]; intros acc; simpl; [rewrite app_nil_r; reflexivity|].
  rewrite IH. destruct (trend_of s u c); [rewrite <- app_assoc|]; reflexivity.
Qed.

Lemma in_filter_some : forall {A} (l : list (option A)) x, In x (filter_some l) -> In (Some x) l.
Proof.
  intros A l x; induction l as [|[y|] l IH]; simpl; [tauto| |]; intros H; [destruct H as [<-|H]|]; auto.
Qed.

Lemma trend_of_bounds : forall s u c t, trend_of s u c = Some t ->
  1 <= active_weeks t /\ 1 <= total_weeks t.
Proof.
  intros s u c t H. unfold trend_of in H. destruct (rc_author c); [|discriminate].
  destruct (map w_w _) as [|x l]; [discriminate|]. injection H as <-. cbn [active_weeks total_weeks].
  cbn [Datatypes.length]. lia.
Qed.

(** X11.  _analyze_contributor_trends returns exactly the trends of the
    contributors that have an author and at least one active week in the
    window, sorted by decreasing active_weeks. Every trend has at least
    one active week and a span of at least one week. *)
Theorem contributor_trends_spec : forall raw s u,
  let ts := _analyze_contributor_trends raw s u in
  Permutation ts (filter_some (map (trend_of s u) raw)) /\
  Sorted (fun a b => active_weeks b <= active_weeks a) ts /\
  (forall t, In t ts -> 1 <= active_weeks t /\ 1 <= total_weeks t).
Proof.
  intros raw s u ts. unfold ts, _analyze_contributor_trends. rewrite trends_fold. simpl.
  split; [apply sort_desc_perm|split; [apply (sort_desc_sorted active_weeks)|]].
  intros t Ht. apply (Permutation_in _ (sort_desc_perm active_weeks _)) in Ht.
  apply in_filter_some, in_map_iff in Ht as [c [Hc _]]. eapply trend_of_bounds, Hc.
Qed.

Lemma fold_min_spec : forall l x,
  (forall a, In a (x :: l) -> fold_left Z.min l x <= a) /\ In (fold_left Z.min l x) (x :: l).
Proof.
  induction l as [|y l IH]; intros x; simpl; [split; [intros a [<-|[]]; lia|auto]|].
  destruct (IH (Z.min x y)) as [H1 H2]. split.
  - intros a Ha. specialize (H1 (Z.min x y) (or_introl eq_refl)) as Hm.
    destruct Ha as [<-|[<-|Ha]]; [lia|lia|apply H1; right; exact Ha].
  - destruct H2 as [H2|H2]; [|auto]. rewrite <- H2. destruct (Z.min_spec x y) as [[_ ->]|[_ ->]]; auto.
Qed.

Lemma fold_max_spec : forall l x,
  (forall a, In a (x :: l) -> a <= fold_left Z.max l x) /\ In (fold_left Z.max l x) (x :: l).
Proof.
  induction l as [|y l IH]; intros x; simpl; [split; [intros a [<-|[]]; lia|auto]|].
  destruct (IH (Z.max x y)) as [H1 H2]. split.
  - intros a Ha. specialize (H1 (Z.max x y) (or_introl eq_refl)) as Hm.
    destruct Ha as [<-|[<-|Ha]]; [lia|lia|apply H1; right; exact Ha].
  - destruct H2 as [H2|H2]; [|auto]. rewrite <- H2. destruct (Z.max_spec x y) as [[_ ->]|[_ ->]]; auto.
Qed.

Lemma aligned_count : forall (A : list Z) lo K W, 0 < W -> 0 <= K -> NoDup A ->
  (forall a, In a A -> lo <= a <= lo + W * K /\ (a - lo) mod W = 0) ->
  Z.of_nat (List.length A) <= K + 1.
Proof.
  intros A lo K W HW HK Hnd Hin.
  set (g := fun a => Z.to_nat ((a - lo) / W)).
  assert (Hnd' : NoDup (map g A)).
  { apply NoDup_map_NoDup_ForallPairs; [|exact Hnd].
    intros a b Ha Hb Hg. destruct (Hin a Ha) as [Ra Ma]. destruct (Hin b Hb) as [Rb Mb].
    unfold g in Hg. apply Z2Nat.inj in Hg; [|apply Z.div_pos; lia|apply Z.div_pos; lia].
    assert (Ea : a - lo = W * ((a - lo) / W)) by (rewrite (Z.div_mod (a - lo) W) at 1 by lia; lia).
    assert (Eb : b - lo = W * ((b - lo) / W)) by (rewrite (Z.div_mod (b - lo) W) at 1 by lia; lia).
    rewrite Hg in Ea. lia. }
  assert (Hincl : incl (map g A) (seq 0 (Z.to_nat K + 1))).
  { intros n Hn. apply in_map_iff in Hn as [a [<- Ha]]. destruct (Hin a Ha) as [Ra _].
    apply in_seq. unfold g. split; [lia|].
    assert ((a - lo) / W <= K).
    { apply Z.div_le_upper_bound; lia. }
    assert (0 <= (a - lo) / W) by (apply Z.div_pos; lia). lia. }
  pose proof (NoDup_incl_length Hnd' Hincl) as Hl. rewrite length_map, length_seq in Hl. lia.
Qed.

(** X12.  When a contributor's week timestamps are distinct and all lie on
    the same weekly grid, as in GitHub's payload, its trend has no more
    active weeks than weeks of span (total_weeks). *)
Theorem trend_active_within_span : forall s u c t r,
  NoDup (map w_w (rc_weeks c)) ->
  (forall w, In w (rc_weeks c) -> w_w w mod (7 * 86400) = r) ->
  trend_of s u c = Some t ->
  1 <= active_weeks t <= total_weeks t.
Proof.
  intros s u c t r Hnd Hal H. unfold trend_of in H. destruct (rc_author c) as [login|]; [|discriminate].
  set (ws := filter is_active_week (filter (week_kept s u) (rc_weeks c))) in H.
  assert (Hws : forall w, In w ws -> In w (rc_weeks c)).
  { intros w Hw. unfold ws in Hw. apply filter_In in Hw as [Hw _]. apply filter_In in Hw as [Hw _]. exact Hw. }
  assert (HndA : NoDup (map w_w ws)) by (unfold ws; apply NoDup_map_filter, NoDup_map_filter, Hnd).
  destruct (map w_w ws) as [|x l] eqn:E; [discriminate|]. injection H as <-.
  cbn [active_weeks total_weeks]. 
  destruct (fold_min_spec l x) as [Hmin Hmin_in]. destruct (fold_max_spec l x) as [Hmax Hmax_in].
  unfold list_min, list_max. set (lo := fold_left Z.min l x) in *. set (hi := fold_left Z.max l x) in *.
  assert (Hr : forall a, In a (x :: l) -> a mod (7 * 86400) = r).
  { intros a Ha. rewrite <- E in Ha. apply in_map_iff in Ha as [w [<- Hw]]. apply Hal, Hws, Hw. }
  assert (Hm : forall a b, In a (x :: l) -> In b (x :: l) -> (a - b) mod (7 * 86400) = 0).
  { intros a b Ha Hb. rewrite Zminus_mod, (Hr a Ha), (Hr b Hb), Z.sub_diag. reflexivity. }
  assert (Hspan : hi - lo = 7 * 86400 * ((hi - lo) / (7 * 86400))).
  { pose proof (Hm hi lo Hmax_in Hmin_in). rewrite (Z.div_mod (hi - lo) (7 * 86400)) at 1 by lia. lia. }
  assert (HK : 0 <= (hi - lo) / (7 * 86400)).
  { apply Z.div_pos; [|lia]. pose proof (Hmax lo Hmin_in). lia. }
  pose proof (aligned_count (x :: l) lo ((hi - lo) / (7 * 86400)) (7 * 86400)) as Hc.
  assert (Hlen : Z.of_nat (List.length (x :: l)) <= (hi - lo) / (7 * 86400) + 1).
  { apply Hc; [lia|exact HK|exact HndA|]. intros a Ha. split; [|apply Hm; assumption].
    pose proof (Hmin a Ha). pose proof (Hmax a Ha). lia. }
  change (Z.pos (Pos.of_succ_nat (List.length l))) with (Z.of_nat (S (List.length l))).
  change 604800 with (7 * 86400). cbn [Datatypes.length] in Hlen. lia.
Qed.

Lemma trend_active_within_span_witness :
  exists t, trend_of None None
              (mkRawContributor (Some (Some "alice"))
                 [mkWeek 0 5 0 1; mkWeek 604800 0 0 0; mkWeek 1209600 3 1 2]) = Some t /\
            1 <= active_weeks t <= total_weeks t.
Proof.
  eexists. split; [reflexivity|].
  apply (trend_active_within_span None None
           (mkRawContributor (Some (Some "alice"))
              [mkWeek 0 5 0 1; mkWeek 604800 0 0 0; mkWeek 1209600 3 1 2]) _ 0).
  - simpl. repeat constructor; simpl; lia.
  - intros w Hw. simpl in Hw. destruct Hw as [<-|[<-|[<-|[]]]]; reflexivity.
  - reflexivity.
Defined.

Lemma alist_set_nodup : forall {V} k (v : V) m, NoDup (map fst m) -> NoDup (map fst (alist_set k v m)).
Proof.
  intros V k v m Hnd. destruct (in_dec string_dec k (map fst m)) as [Hin|Hin].
  - rewrite alist_set_keys_in by exact Hin. exact Hnd.
  - rewrite alist_set_keys_notin by exact Hin.
    apply Permutation_NoDup with (k :: map fst m); [apply Permutation_cons_append|constructor; assumption].
Qed.

Lemma merge_trend_inv : forall strict m seen t,
  trend_map_inv strict m seen -> trend_ok strict t ->
  trend_map_inv strict (merge_trend m t) (seen ++ [trend_username t])%list.
Proof.
  intros strict m seen t (Hnd & Hk & Hv) Ht. unfold merge_trend.
  destruct (alist_get (trend_username t) m) as [e|] eqn:E.
  - pose proof (alist_get_in _ _ _ E) as Hine.
    assert (Hkm : In (trend_username t) (map fst m)) by (apply (in_map fst _ (_, e)), Hine).
    destruct (Hv _ _ Hine) as [Hue He].
    split; [apply alist_set_nodup, Hnd|split].
    + intros k. rewrite alist_set_keys_in by exact Hkm. rewrite Hk, in_app_iff. simpl.
      split; [tauto|]. intros [H|[H|[]]]; [exact H|]. subst. apply Hk, Hkm.
    + intros k v Hin. destruct (in_alist_set _ _ _ _ _ Hnd Hin) as [[-> ->]|[_ Hin']]; [|apply Hv, Hin'].
      split; [reflexivity|]. cbn [active_weeks total_weeks].
      destruct He as (He1 & He2 & _). destruct Ht as (Ht1 & Ht2 & _).
      unfold trend_ok; cbn [active_weeks total_weeks].
      destruct (parse_date (str_min (first_active_week e) (first_active_week t))),
               (parse_date (str_max (last_active_week e) (last_active_week t)));
        (split; [lia|split; [lia|intros; lia]]).
  - pose proof (alist_get_notin _ _ E) as Hkm.
    split; [apply alist_set_nodup, Hnd|split].
    + intros k. rewrite alist_set_keys_notin by exact Hkm. rewrite !in_app_iff, Hk. reflexivity.
    + intros k v Hin. destruct (in_alist_set _ _ _ _ _ Hnd Hin) as [[-> ->]|[_ Hin']]; [|apply Hv, Hin'].
      split; [reflexivity|]. destruct t; exact Ht.
Qed.

Lemma merge_trend_fold : forall strict P m seen,
  trend_map_inv strict m seen -> Forall (trend_ok strict) P ->
  trend_map_inv strict (fold_left merge_trend P m) (seen ++ map trend_username P)%list.
Proof.
  intros strict P; induction P as [|t P IH]; intros m seen Hm HP; simpl; [rewrite app_nil_r; exact Hm|].
  inversion HP; subst.
  replace (seen ++ trend_username t :: map trend_username P)%list
    with ((seen ++ [trend_username t]) ++ map trend_username P)%list by (rewrite <- app_assoc; reflexivity).
  apply IH; [apply merge_trend_inv|]; assumption.
Qed.

Lemma merge_trends_flat : forall rs m,
  fold_left (fun m r => fold_left merge_trend (rs_contributor_trends r) m) rs m
  = fold_left merge_trend (flat_map rs_contributor_trends rs) m.
Proof.
  induction rs as [|r rs IH]; intros m; [reflexivity|]. simpl. rewrite IH, fold_left_app. reflexivity.
Qed.

Lemma trend_map_out : forall strict m seen, trend_map_inv strict m seen ->
  map trend_username (map snd m) = map fst m.
Proof.
  intros strict m seen (_ & _ & Hv). rewrite map_map. apply map_ext_in.
  intros [k v] Hin. apply (Hv k v Hin).
Qed.

Lemma trend_sub_out : forall strict m seen m',
  trend_map_inv strict m seen -> NoDup (map fst m') -> (forall kv, In kv m' -> In kv m) ->
  let ts := sort_desc active_weeks (map snd m') in
  NoDup (map trend_username ts) /\ Forall (trend_ok strict) ts /\
  (forall t, In t ts -> exists k, In (k, t) m' /\ trend_username t = k) /\
  (forall u, In u (map trend_username ts) -> In u seen).
Proof.
  intros strict m seen m' Hinv Hnd' Hsub ts.
  destruct Hinv as (Hnd & Hk & Hv).
  assert (Hp : Permutation ts (map snd m')) by apply sort_desc_perm.
  assert (Hts : forall t, In t ts -> exists k, In (k, t) m' /\ trend_username t = k).
  { intros t Ht. apply (Permutation_in _ Hp), in_map_iff in Ht as [[k v] [Hv' Hin]]. simpl in Hv'; subst v.
    exists k. split; [exact Hin|]. apply (Hv k t (Hsub _ Hin)). }
  split; [|split; [|split; [exact Hts|]]].
  - apply Permutation_NoDup with (map trend_username (map snd m')); [symmetry; apply Permutation_map, Hp|].
    replace (map trend_username (map snd m')) with (map fst m'); [exact Hnd'|].
    rewrite map_map. apply map_ext_in. intros [k v] Hin. symmetry. apply (Hv k v (Hsub _ Hin)).
  - apply Forall_forall. intros t Ht. destruct (Hts t Ht) as [k [Hin _]]. apply (Hv k t (Hsub _ Hin)).
  - intros u Hu. apply in_map_iff in Hu as [t [<- Ht]]. destruct (Hts t Ht) as [k [Hin ->]].
    apply Hk, (in_map fst _ (k, t)), Hsub, Hin.
Qed.

(** X13.  If every per-repository trend has at least one active week and
    one week of span, so does every org trend of aggregate_org_report; if
    moreover none has more active weeks than weeks of span, no org trend
    has either. They also have distinct usernames, are sorted by
    decreasing active_weeks, and only use usernames seen in some
    repository. With bot or min-commit filtering, each trend's username is
    an org contributor's; without filtering, every username seen appears. *)
Theorem merge_trends_spec : forall strict rs org_contributors exclude_bots min_commits,
  Forall (trend_ok strict) (flat_map rs_contributor_trends rs) ->
  let ts := merge_trends rs org_contributors exclude_bots min_commits in
  let us := map trend_username (flat_map rs_contributor_trends rs) in
  NoDup (map trend_username ts) /\ Forall (trend_ok strict) ts /\
  Sorted (fun a b => active_weeks b <= active_weeks a) ts /\
  (forall u, In u (map trend_username ts) -> In u us) /\
  (exclude_bots || (min_commits >? 0) = true ->
     forall t, In t ts -> exists c, In c org_contributors /\ username c = trend_username t) /\
  (exclude_bots || (min_commits >? 0) = false ->
     forall u, In u us -> In u (map trend_username ts)).
Proof.
  intros strict rs org eb mc HP ts us. unfold ts, merge_trends. cbv zeta. rewrite merge_trends_flat.
  set (P := flat_map rs_contributor_trends rs) in *.
  assert (H0 : trend_map_inv strict [] []).
  { split; [constructor|split; [intros; simpl; tauto|intros k v []]]. }
  pose proof (merge_trend_fold strict P [] [] H0 HP) as Hinv. simpl in Hinv.
  set (m := fold_left merge_trend P []) in *.
  destruct (eb || (mc >? 0)) eqn:Ef.
  - set (m' := filter _ m).
    assert (Hnd' : NoDup (map fst m')) by (apply NoDup_map_filter, (proj1 Hinv)).
    assert (Hsub : forall kv, In kv m' -> In kv m) by (intros kv Hkv; apply filter_In in Hkv; tauto).
    destruct (trend_sub_out strict m us m' Hinv Hnd' Hsub) as (H1 & H2 & H3 & H4).
    split; [exact H1|split; [exact H2|split; [apply (sort_desc_sorted active_weeks)|split; [exact H4|split]]]].
    + intros _ t Ht. destruct (H3 t Ht) as [k [Hin ->]]. apply filter_In in Hin as [_ Hkeep].
      apply existsb_exists in Hkeep as [c [Hc Heq]]. apply String.eqb_eq in Heq. exists c; split; assumption.
    + discriminate.
  - assert (Hnd' : NoDup (map fst m)) by apply (proj1 Hinv).
    destruct (trend_sub_out strict m us m Hinv Hnd' (fun kv H => H)) as (H1 & H2 & H3 & H4).
    split; [exact H1|split; [exact H2|split; [apply (sort_desc_sorted active_weeks)|split; [exact H4|split]]]].
    + discriminate.
    + intros _ u Hu. destruct Hinv as (_ & Hk & Hv). apply Hk, in_map_iff in Hu as [[k v] [Hkv Hin]].
      simpl in Hkv; subst k. apply in_map_iff. exists v. split; [apply (Hv u v Hin)|].
      apply (Permutation_in _ (Permutation_sym (sort_desc_perm active_weeks _))).
      apply (in_map snd _ (u, v)), Hin.
Qed.

Lemma merge_trends_spec_witness :
  let rs := [trend_repo "api" [mkContributorTrend "alice" "2024-01-01" "2024-02-05" 3 6];
             trend_repo "web" [mkContributorTrend "alice" "2024-01-08" "2024-03-04" 2 9;
                               mkContributorTrend "bob" "2024-01-01" "2024-01-01" 1 1]] in
  Forall (trend_ok true) (flat_map rs_contributor_trends rs) /\
  NoDup (map trend_username (merge_trends rs [] false 0)).
Proof.
  intros rs.
  assert (H : Forall (trend_ok true) (flat_map rs_contributor_trends rs)).
  { rewrite Forall_forall. simpl. intros t Ht.
    destruct Ht as [<-|[<-|[<-|[]]]]; unfold trend_ok; cbn; repeat split; intros; lia. }
  split; [exact H|]. exact (proj1 (merge_trends_spec true rs [] false 0 H)).
Defined.

Lemma all_below_spec : forall g n k, all_below g n k = true ->
  forall j, k <= j < k + Z.of_nat n -> g j = true.
Proof.
  intros g n; induction n as [|n IH]; simpl; intros k H j Hj; [lia|].
  apply andb_true_iff in H as [H1 H2]. destruct (Z.eq_dec j k) as [->|Hne]; [exact H1|].
  apply (IH (k + 1)); [exact H2|lia].
Qed.

Lemma era_check : all_below era_ok (Z.to_nat 146097) 0 = true.
Proof. vm_compute. reflexivity. Qed.

Lemma pad4_check : all_below (pad_ok 4) (Z.to_nat 10000) 0 = true.
Proof. vm_compute. reflexivity. Qed.

Lemma pad2_check : all_below (pad_ok 2) (Z.to_nat 100) 0 = true.
Proof. vm_compute. reflexivity. Qed.

Lemma civil_shift : forall D,
  civil_from_days D
  = let '(y, m, d) := civil_from_days ((D + 719468) mod 146097 - 719468) in
    (y + 400 * ((D + 719468) / 146097), m, d).
Proof.
  intros D. unfold civil_from_days at 1 2.
  replace ((D + 719468) mod 146097 - 719468 + 719468) with ((D + 719468) mod 146097) by lia.
  rewrite (Z.div_small ((D + 719468) mod 146097) 146097) by (apply Z.mod_pos_bound; lia).
  rewrite Z.mul_0_l, Z.sub_0_r, Z.add_0_r.
  replace (D + 719468 - (D + 719468) / 146097 * 146097) with ((D + 719468) mod 146097)
    by (rewrite Zmod_eq_full by lia; reflexivity).
  cbv zeta. destruct (_ <? 10); destruct (_ <=? 2); f_equal; f_equal; lia.
Qed.

Lemma days_from_civil_shift : forall y m d k,
  days_from_civil (y + 400 * k) m d = days_from_civil y m d + 146097 * k.
Proof.
  intros y m d k. unfold days_from_civil.
  assert (H : forall y', (y' + 400 * k) / 400 = y' / 400 + k).
  { intros y'. rewrite Z.mul_comm, Z.div_add by lia. reflexivity. }
  destruct (m <=? 2).
  - replace (y + 400 * k - 1) with ((y - 1) + 400 * k) by lia. rewrite H.
    replace (y - 1 + 400 * k - ((y - 1) / 400 + k) * 400) with (y - 1 - (y - 1) / 400 * 400) by lia.
    lia.
  - rewrite H. replace (y + 400 * k - (y / 400 + k) * 400) with (y - y / 400 * 400) by lia. lia.
Qed.

Lemma is_leap_shift : forall y k, is_leap (y + 400 * k) = is_leap y.
Proof.
  intros y k. unfold is_leap.
  replace (y + 400 * k) with (y + (100 * k) * 4) by lia. rewrite Z_mod_plus_full.
  replace (y + 100 * k * 4) with (y + (4 * k) * 100) by lia. rewrite Z_mod_plus_full.
  replace (y + 4 * k * 100) with (y + k * 400) by lia. rewrite Z_mod_plus_full. reflexivity.
Qed.

Lemma days_in_month_shift : forall y m k, days_in_month (y + 400 * k) m = days_in_month y m.
Proof. intros y m k. unfold days_in_month. rewrite is_leap_shift. reflexivity. Qed.

Lemma read_digits_app : forall s hi acc cnt r v,
  dval acc s = Some v -> (String.length s <= hi)%nat ->
  (String.length s = hi \/ match r with String c _ => digit_val c = None | EmptyString => True end) ->
  read_digits hi acc cnt (s ++ r) = (v, (cnt + String.length s)%nat, r).
Proof.
  induction s as [|c s IH]; intros hi acc cnt r v Hv Hl Hr; cbn [dval String.length append] in *.
  - injection Hv as <-. rewrite Nat.add_0_r. destruct hi as [|h]; [reflexivity|].
    destruct r as [|c r]; [reflexivity|]. destruct Hr as [Hr|Hr]; [discriminate|].
    cbn [read_digits]. rewrite Hr. reflexivity.
  - destruct (digit_val c) as [v0|] eqn:Ec; [|discriminate].
    destruct hi as [|h]; [lia|]. cbn [read_digits]. rewrite Ec.
    rewrite (IH h (acc * 10 + v0) (S cnt) r v Hv) by (lia || (destruct Hr; [left; lia|right; assumption])).
    f_equal. f_equal. lia.
Qed.

Lemma pad_digits : forall w n, pad_ok w n = true ->
  dval 0 (pad_int w n) = Some n /\ String.length (pad_int w n) = w.
Proof.
  intros w n H. unfold pad_ok in H. apply andb_true_iff in H as [H1 H2].
  apply Nat.eqb_eq in H1. destruct (dval 0 (pad_int w n)) as [v|]; [|discriminate].
  apply Z.eqb_eq in H2. subst. auto.
Qed.

Lemma string_app_nil_r : forall s, (s ++ EmptyString)%string = s.
Proof. induction s as [|c s IH]; simpl; [reflexivity|]. rewrite IH. reflexivity. Qed.

Lemma format_date_parse : forall ts, 0 <= ts -> ts / 86400 <= 2932896 ->
  parse_date (format_date ts) = Some (ts / 86400).
Proof.
  intros ts H0 H1. unfold format_date. set (D := ts / 86400) in *.
  assert (HD : 0 <= D) by (apply Z.div_pos; lia).
  set (k := (D + 719468) / 146097). set (doe := (D + 719468) mod 146097).
  assert (Hdoe : 0 <= doe < 146097) by (apply Z.mod_pos_bound; lia).
  assert (Hz : D + 719468 = 146097 * k + doe) by (apply Z.div_mod; lia).
  assert (Hk : 0 <= k < 25) by (split; [apply Z.div_pos|apply Z.div_lt_upper_bound]; lia).
  pose proof (all_below_spec _ _ _ era_check doe ltac:(lia)) as Hera.
  rewrite civil_shift. fold k doe. unfold era_ok in Hera.
  destruct (civil_from_days (doe - 719468)) as [[y0 m] d].
  repeat rewrite andb_true_iff in Hera.
  destruct Hera as [[[[[[[Hm1 Hm2] Hd1] Hd2] Hy1] Hy2] Hdc] H400].
  rewrite Z.leb_le in Hm1, Hm2, Hd1, Hd2, Hy1, Hy2. apply Z.eqb_eq in Hdc.
  assert (Hy : 0 <= y0 + 400 * k <= 9999).
  { destruct (y0 =? 400) eqn:E.
    - apply Z.eqb_eq in E. apply Z.ltb_lt in H400. subst y0.
      assert (k <> 24) by (intros ->; lia). destruct (m <=? 2); lia.
    - apply Z.eqb_neq in E. destruct (m <=? 2); lia. }
  destruct (pad_digits 4 (y0 + 400 * k)) as [Py Ly].
  { apply (all_below_spec _ _ _ pad4_check). change (Z.of_nat (Z.to_nat 10000)) with 10000. lia. }
  destruct (pad_digits 2 m) as [Pm Lm].
  { apply (all_below_spec _ _ _ pad2_check). change (Z.of_nat (Z.to_nat 100)) with 100. lia. }
  destruct (pad_digits 2 d) as [Pd Ld].
  { apply (all_below_spec _ _ _ pad2_check). change (Z.of_nat (Z.to_nat 100)) with 100.
    assert (days_in_month y0 m <= 31) by (unfold days_in_month; destruct (m =? 2), (is_leap y0); simpl;
      [lia|lia|destruct (_ || _); lia|destruct (_ || _); lia]). lia. }
  remember (y0 + 400 * k) as Y eqn:HY.
  unfold parse_date.
  rewrite (read_digits_app _ 4 0 0 _ _ Py) by lia. rewrite Ly. simpl (0 + 4)%nat.
  cbn [append].
  rewrite (read_digits_app _ 2 0 0 _ _ Pm) by lia. rewrite Lm.
  rewrite <- (string_app_nil_r (pad_int 2 d)).
  rewrite (read_digits_app _ 2 0 0 _ _ Pd) by lia. rewrite Ld.
  cbn -[days_in_month days_from_civil Z.leb].
  rewrite HY, days_in_month_shift.
  replace (1 <=? m) with true by (symmetry; apply Z.leb_le; lia).
  replace (m <=? 12) with true by (symmetry; apply Z.leb_le; lia).
  replace (1 <=? d) with true by (symmetry; apply Z.leb_le; lia).
  replace (d <=? days_in_month y0 m) with true by (symmetry; apply Z.leb_le; lia).
  cbn [andb]. f_equal. rewrite days_from_civil_shift, Hdc. lia.
Qed.

(** X14.  For every timestamp from 1970-01-01 up to the end of year 9999,
    the week date written by _analyze_contributor_trends (strftime
    %Y-%m-%d) is parsed back by the strptime of aggregate_org_report to
    the same day. *)
Theorem date_round_trip : forall ts, 0 <= ts -> ts / 86400 <= 2932896 ->
  parse_date (format_date ts) = Some (ts / 86400).
Proof. exact format_date_parse. Qed.

Lemma date_round_trip_witness :
  parse_date (format_date 1700000000) = Some (1700000000 / 86400).
Proof. apply date_round_trip; [lia | apply Z.leb_le; reflexivity]. Defined.

(** X15.  Whenever wait_if_needed sleeps, it sleeps between 1 and 3600
    seconds, and a later call with the same monitor never sleeps longer.
    After an update whose remaining count is above the threshold,
    wait_if_needed does not sleep. An update without the two headers
    changes neither the threshold nor the wait. *)
Theorem rate_limit_wait_bounds : forall st now now' d,
  (wait_if_needed st now = Some d -> (1 <= d <= 3600)%Q) /\
  ((now <= now')%Q -> wait_if_needed st now = Some d ->
     exists d', wait_if_needed st now' = Some d' /\ (d' <= d)%Q) /\
  (forall r reset t, _threshold st < r ->
     wait_if_needed (rl_update st (Some r) reset) t = None) /\
  _threshold (rl_update st None None) = _threshold st /\
  (forall t, wait_if_needed (rl_update st None None) t = wait_if_needed st t).
Proof.
  intros [rem reset th] now now' d; unfold wait_if_needed; simpl.
  split; [|split; [|split; [|split]]].
  - destruct rem as [r|]; [|discriminate].
    destruct (r <=? th); [|discriminate].
    destruct reset as [reset|]; [|discriminate].
    destruct (Qlt_le_dec 0 (Qmax 0 (reset - now) + 1)); [|discriminate].
    intros H; inversion H; subst; clear H.
    split.
    + apply Q.min_glb; [|lra].
      assert (0 <= Qmax 0 (reset - now))%Q by apply Q.le_max_l. lra.
    + apply Q.le_min_r.
  - intros Hle. destruct rem as [r|]; [|discriminate].
    destruct (r <=? th); [|discriminate].
    destruct reset as [reset|]; [|discriminate].
    destruct (Qlt_le_dec 0 (Qmax 0 (reset - now) + 1)); [|discriminate].
    intros H; inversion H; subst; clear H.
    destruct (Qlt_le_dec 0 (Qmax 0 (reset - now') + 1)) as [Hp|Hn].
    + eexists; split; [reflexivity|].
      apply Q.min_le_compat_r. apply Qplus_le_l.
      apply Q.max_le_compat_l. lra.
    + exfalso. apply (Qle_not_lt _ _ Hn), wait_seconds_pos.
  - intros r reset' t Hr. simpl.
    destruct (Z.leb_spec r th); [lia|reflexivity].
  - reflexivity.
  - reflexivity.
Qed.

Lemma backoff_bounds : forall i, 2 <= backoff i <= 30.
Proof.
  intros i; unfold backoff. split; [|apply Z.le_min_r].
  apply Z.min_glb; [|lia].
  change 2 with (2 ^ 1). apply Z.pow_le_mono_r; lia.
Qed.

Lemma stats_loop_sleeps : forall retries response cache_on n attempt,
  exists k tail,
    fst (stats_loop retries response cache_on n attempt) = (sleeps_from attempt k ++ tail)%list /\
    (k = 0 \/ attempt + k <= retries - 1)%nat /\ cache_tail cache_on tail.
Proof.
  intros retries response cache_on n; induction n as [|n IH]; intros attempt; simpl.
  - exists 0%nat, []; repeat split; auto. left; reflexivity.
  - destruct (response attempt) as [|status body].
    + exists 0%nat, []; repeat split; auto. left; reflexivity.
    + assert (Hstep : forall es o, stats_loop retries response cache_on n (S attempt) = (es, o) ->
                can_retry retries attempt = true ->
                exists k tail, fst (ESleep (backoff attempt) :: es, o) = (sleeps_from attempt k ++ tail)%list /\
                  (k = 0 \/ attempt + k <= retries - 1)%nat /\ cache_tail cache_on tail).
      { intros es o Hes Hc. destruct (IH (S attempt)) as (k & tail & Hf & Hk & Ht).
        rewrite Hes in Hf; simpl in Hf.
        unfold can_retry in Hc. apply Z.ltb_lt in Hc.
        exists (S k), tail; simpl; rewrite Hf; repeat split; auto. right. lia. }
      destruct (negb ((200 <=? status) && (status <? 300))).
      * destruct ((status =? 202) && can_retry retries attempt) eqn:E.
        -- apply andb_true_iff in E as [_ Hc].
           destruct (stats_loop retries response cache_on n (S attempt)) as [es o] eqn:Es.
           apply (Hstep es o); auto.
        -- exists 0%nat, []; repeat split; auto. left; reflexivity.
      * destruct (status =? 204).
        { exists 0%nat, []; repeat split; auto. left; reflexivity. }
        destruct (status =? 202).
        -- destruct (can_retry retries attempt) eqn:Hc.
           ++ destruct (stats_loop retries response cache_on n (S attempt)) as [es o] eqn:Es.
              apply (Hstep es o); auto.
           ++ exists 0%nat, []; repeat split; auto. left; reflexivity.
        -- exists 0%nat. simpl.
           eexists; split; [reflexivity|]. split; [left; reflexivity|].
           destruct cache_on; [|left; reflexivity].
           destruct (match body with JList l => l | _ => [] end) as [|j l] eqn:Eb;
             [left; reflexivity|].
           right. exists (j :: l). split; [discriminate|split; reflexivity].
Qed.

Lemma sum_sleeps_le : forall a k,
  fold_right Z.add 0 (map backoff (seq a k)) <= 30 * Z.of_nat k.
Proof.
  intros a k; revert a; induction k as [|k IH]; intros a; simpl; [lia|].
  pose proof (backoff_bounds a). specialize (IH (S a)). lia.
Qed.


Lemma str_app_assoc : forall a b c : string, (a ++ b) ++ c = a ++ (b ++ c).
Proof. induction a; intros; simpl; [reflexivity|now rewrite IHa]. Qed.

Lemma str_app_nil_r : forall a : string, a ++ "" = a.
Proof. induction a; simpl; [reflexivity|now rewrite IHa]. Qed.

Lemma str_forallb_app : forall f a b,
  str_forallb f (a ++ b) = str_forallb f a && str_forallb f b.
Proof. intros f a b; induction a; simpl; [reflexivity|rewrite IHa; apply andb_assoc]. Qed.

Lemma str_forallb_impl : forall (f g : ascii -> bool) s,
  (forall c, f c = true -> g c = true) -> str_forallb f s = true -> str_forallb g s = true.
Proof.
  intros f g s H; induction s; simpl; auto.
  intros Hs; apply andb_true_iff in Hs as [H1 H2]. rewrite (H _ H1); simpl; auto.
Qed.

Lemma rev_string_app : forall a b, rev_string (a ++ b) = rev_string b ++ rev_string a.
Proof.
  induction a; intros b; simpl.
  - now rewrite str_app_nil_r.
  - rewrite IHa, str_app_assoc; reflexivity.
Qed.

Lemma rev_string_involutive : forall s, rev_string (rev_string s) = s.
Proof. induction s; simpl; [reflexivity|]. rewrite rev_string_app; simpl; now rewrite IHs. Qed.

Lemma str_forallb_rev : forall f s, str_forallb f (rev_string s) = str_forallb f s.
Proof.
  intros f s; induction s; simpl; [reflexivity|].
  rewrite str_forallb_app, IHs; simpl. rewrite andb_true_r. apply andb_comm.
Qed.

Lemma lstrip_keep : forall f s, str_forallb (fun c => negb (f c)) s = true -> lstrip f s = s.
Proof.
  intros f s; destruct s as [|c s]; simpl; [reflexivity|].
  intros H; apply andb_true_iff in H as [H _]. destruct (f c); [discriminate|reflexivity].
Qed.

Lemma lstrip_drop : forall f p s, str_forallb f p = true -> lstrip f (p ++ s) = lstrip f s.
Proof.
  intros f p s; induction p as [|c p IH]; simpl; [reflexivity|].
  intros H; apply andb_true_iff in H as [H1 H2]. rewrite H1; auto.
Qed.

Lemma split_on_none : forall sep a,
  str_forallb (not_char sep) a = true -> split_on sep a = [a].
Proof.
  intros sep a; induction a as [|c a IH]; simpl; [reflexivity|].
  intros H; apply andb_true_iff in H as [H1 H2]. unfold not_char in H1.
  destruct (Ascii.eqb c sep); [discriminate|]. rewrite IH; auto.
Qed.

Lemma split_on_first : forall sep a b,
  str_forallb (not_char sep) a = true -> split_on sep (a ++ String sep b) = a :: split_on sep b.
Proof.
  intros sep a b; induction a as [|c a IH]; simpl.
  - intros _; rewrite Ascii.eqb_refl; reflexivity.
  - intros H; apply andb_true_iff in H as [H1 H2]. unfold not_char in H1.
    destruct (Ascii.eqb c sep); [discriminate|]. rewrite IH; auto.
Qed.

Lemma quote_first : forall A B C D, qfree A = true ->
  A ++ String (ascii_of_nat 34) B = C ++ String (ascii_of_nat 34) D ->
  (C = A /\ D = B) \/ (exists C', C = A ++ String (ascii_of_nat 34) C' /\
                                  B = C' ++ String (ascii_of_nat 34) D).
Proof.
  induction A as [|a A IH]; intros B C D HA Heq; destruct C as [|c C]; simpl in *.
  - inversion Heq; subst; left; auto.
  - inversion Heq; subst. right. exists C; auto.
  - inversion Heq; subst. unfold not_char in HA. simpl in HA; discriminate.
  - inversion Heq; subst. apply andb_true_iff in HA as [_ HA].
    destruct (IH B C D HA H1) as [[-> ->]|(C' & -> & ->)]; [left; auto|right; exists C'; auto].
Qed.

Lemma qfree_quote : forall A C, qfree (A ++ String (ascii_of_nat 34) C) = false.
Proof.
  intros A C; unfold qfree; rewrite str_forallb_app; cbn [str_forallb].
  replace (not_char (ascii_of_nat 34) (ascii_of_nat 34)) with false by reflexivity.
  apply andb_false_r.
Qed.

Lemma prefix_spec : forall n s, String.prefix n s = true <-> exists b, s = n ++ b.
Proof.
  induction n as [|c n IH]; intros s.
  - destruct s; simpl; (split; [intros _; eexists; reflexivity|auto]).
  - destruct s as [|d s]; simpl.
    + split; [discriminate|intros [b Hb]; discriminate].
    + destruct (ascii_dec c d) as [->|Hne].
      * rewrite IH. split; intros [b Hb]; exists b; [now rewrite Hb|now inversion Hb].
      * split; [discriminate|intros [b Hb]; inversion Hb; congruence].
Qed.

Lemma contains_spec : forall n s, contains n s = true <-> exists a b, s = a ++ n ++ b.
Proof.
  intros n s; induction s as [|c s IH]; cbn [contains].
  - rewrite orb_false_r, prefix_spec. split.
    + intros [b Hb]; exists "", b; auto.
    + intros [a [b Hab]]. destruct a; [exists b; auto|discriminate].
  - rewrite orb_true_iff, prefix_spec, IH. split.
    + intros [[b Hb]|[a [b Hab]]]; [exists "", b; auto|exists (String c a), b; rewrite Hab; reflexivity].
    + intros [a [b Hab]]. destruct a as [|a0 a]; simpl in Hab.
      * left; exists b; auto.
      * inversion Hab; subst. right; exists a, b; reflexivity.
Qed.

Lemma lstrip_head : forall f c s, f c = false -> lstrip f (String c s) = String c s.
Proof. intros f c s H; simpl; rewrite H; reflexivity. Qed.

Lemma strip_bracketed : forall f a b s, f a = false -> f b = false ->
  strip f (String a (s ++ String b "")) = String a (s ++ String b "").
Proof.
  intros f a b s Ha Hb.
  assert (R : rev_string (String a (s ++ String b "")) = String b (rev_string s ++ String a "")).
  { simpl; rewrite rev_string_app; reflexivity. }
  unfold strip. rewrite lstrip_head by exact Ha. rewrite R, lstrip_head by exact Hb.
  rewrite <- R. apply rev_string_involutive.
Qed.

Lemma url_ok_parts : forall u, link_url_ok u = true ->
  str_forallb (not_char ",") u = true /\ str_forallb (not_char ";") u = true /\
  str_forallb (fun c => negb (is_angle c)) u = true /\ qfree u = true.
Proof.
  intros u Hu; unfold link_url_ok, qfree in *.
  repeat split; (eapply str_forallb_impl; [|exact Hu]); intros c Hc;
    repeat (apply andb_true_iff in Hc as [Hc ?]); auto.
Qed.

Lemma rel_ok_parts : forall r, link_rel_ok r = true ->
  str_forallb (not_char ",") r = true /\ qfree r = true.
Proof.
  intros r Hr; unfold link_rel_ok, qfree in *.
  split; (eapply str_forallb_impl; [|exact Hr]); intros c Hc;
    apply andb_true_iff in Hc as [Hc1 Hc2]; auto.
Qed.

Lemma space_not : forall c' pfx, is_space c' = false ->
  str_forallb is_space pfx = true -> str_forallb (not_char c') pfx = true.
Proof.
  intros c' pfx Hc'. apply str_forallb_impl. intros c Hc; unfold not_char.
  destruct (Ascii.eqb_spec c c'); [subst; congruence|reflexivity].
Qed.

Lemma entry_contains : forall pfx u r,
  qfree pfx = true -> qfree u = true -> qfree r = true ->
  contains REL_NEXT (pfx ++ link_entry u r) = String.eqb r "next".
Proof.
  intros pfx u r Hp Hu Hr.
  set (X := pfx ++ "<" ++ u ++ ">; rel=").
  assert (Hs : pfx ++ link_entry u r = X ++ String (ascii_of_nat 34) (r ++ String (ascii_of_nat 34) "")).
  { unfold X, link_entry. repeat rewrite str_app_assoc. reflexivity. }
  assert (HX : qfree X = true).
  { unfold X, qfree in *. repeat rewrite str_forallb_app. rewrite Hp, Hu. reflexivity. }
  destruct (String.eqb_spec r "next") as [->|Hn].
  - apply contains_spec. exists (pfx ++ "<" ++ u ++ ">; "), "".
    rewrite str_app_nil_r. unfold link_entry. repeat rewrite str_app_assoc. reflexivity.
  - apply not_true_is_false. intros Hc. apply contains_spec in Hc as (a & b & Hab).
    assert (E : a ++ REL_NEXT ++ b =
      (a ++ "rel=") ++ String (ascii_of_nat 34) ("next" ++ String (ascii_of_nat 34) b)).
    { rewrite str_app_assoc. reflexivity. }
    rewrite Hs, E in Hab.
    destruct (quote_first _ _ _ _ HX Hab) as [[_ HD]|(C' & _ & HB)].
    + destruct (quote_first _ _ _ _ Hr (eq_sym HD)) as [[H1 _]|(C'' & H1 & _)].
      * congruence.
      * assert (Hq : qfree "next" = true) by reflexivity.
        rewrite H1, qfree_quote in Hq; discriminate.
    + destruct (quote_first _ _ _ _ Hr HB) as [[_ HD]|(C'' & _ & HE)].
      * discriminate.
      * destruct C''; discriminate.
Qed.

Lemma entry_target : forall pfx u r,
  str_forallb is_space pfx = true -> link_url_ok u = true ->
  link_target (pfx ++ link_entry u r) = u.
Proof.
  intros pfx u r Hp Hu.
  destruct (url_ok_parts u Hu) as (_ & Hsc & Hang & _).
  assert (Hsplit : pfx ++ link_entry u r =
    (pfx ++ String "<" (u ++ String ">" "")) ++ String ";" (" rel=" ++ QUOTE ++ r ++ QUOTE)).
  { unfold link_entry. rewrite str_app_assoc. cbn [append]. rewrite str_app_assoc. reflexivity. }
  assert (Hno : str_forallb (not_char ";") (pfx ++ String "<" (u ++ String ">" "")) = true).
  { rewrite str_forallb_app. rewrite (space_not ";" pfx eq_refl Hp). simpl.
    rewrite str_forallb_app, Hsc. reflexivity. }
  unfold link_target. rewrite Hsplit, (split_on_first _ _ _ Hno). simpl hd.
  unfold strip at 2. rewrite lstrip_drop by exact Hp. fold (strip is_space (String "<" (u ++ String ">" ""))).
  rewrite strip_bracketed by reflexivity.
  unfold strip. simpl lstrip at 2.
  destruct u as [|c u'].
  - reflexivity.
  - simpl in Hang. apply andb_true_iff in Hang as [Hc Hang].
    change (String c u' ++ String ">" "") with (String c (u' ++ String ">" "")).
    rewrite lstrip_head by (destruct (is_angle c); [discriminate|reflexivity]).
    assert (R : rev_string (String c (u' ++ String ">" "")) = String ">" (rev_string u' ++ String c "")).
    { simpl; rewrite rev_string_app; reflexivity. }
    rewrite R. simpl lstrip at 1. rewrite lstrip_keep.
    + rewrite rev_string_app. simpl. rewrite rev_string_involutive. reflexivity.
    + rewrite str_forallb_app, str_forallb_rev, Hang. simpl. rewrite Hc. reflexivity.
Qed.

Lemma entry_no_comma : forall e, link_entry_ok e = true ->
  str_forallb (not_char ",") (link_entry (fst e) (snd e)) = true.
Proof.
  intros [u r] H; apply andb_true_iff in H as [Hu Hr]; simpl in *.
  destruct (url_ok_parts u Hu) as (Hu' & _). destruct (rel_ok_parts r Hr) as (Hr' & _).
  unfold link_entry. repeat rewrite str_forallb_app. rewrite Hu'. simpl. rewrite str_forallb_app, Hr'. reflexivity.
Qed.

Lemma split_header : forall es e pfx,
  str_forallb (not_char ",") pfx = true -> forallb link_entry_ok (e :: es) = true ->
  split_on "," (pfx ++ link_header (e :: es)) =
    (pfx ++ link_entry (fst e) (snd e)) :: map (fun e => " " ++ link_entry (fst e) (snd e)) es.
Proof.
  induction es as [|e' es IH]; intros [u r] pfx Hp Hok; simpl in Hok;
    apply andb_true_iff in Hok as [He Hok].
  - simpl. apply split_on_none. rewrite str_forallb_app, Hp. simpl.
    exact (entry_no_comma (u, r) He).
  - change (link_header ((u, r) :: e' :: es)) with (link_entry u r ++ ", " ++ link_header (e' :: es)).
    rewrite <- str_app_assoc. change (", " ++ link_header (e' :: es)) with (String "," (" " ++ link_header (e' :: es))).
    rewrite split_on_first.
    + rewrite IH by (reflexivity || exact Hok). reflexivity.
    + rewrite str_forallb_app, Hp. exact (entry_no_comma (u, r) He).
Qed.

Lemma find_entries : forall pfx es,
  str_forallb is_space pfx = true -> forallb link_entry_ok es = true ->
  option_map link_target (find (contains REL_NEXT) (map (fun e => pfx ++ link_entry (fst e) (snd e)) es)) =
  option_map fst (find (fun e => String.eqb (snd e) "next") es).
Proof.
  intros pfx es Hp; induction es as [|[u r] es IH]; simpl; [reflexivity|].
  intros Hok; apply andb_true_iff in Hok as [He Hok].
  apply andb_true_iff in He as [Hu Hr]; simpl in Hu, Hr.
  rewrite entry_contains.
  - destruct (String.eqb r "next"); [simpl; f_equal; apply entry_target; auto|auto].
  - exact (space_not (ascii_of_nat 34) pfx eq_refl Hp).
  - exact (proj2 (proj2 (proj2 (url_ok_parts u Hu)))).
  - exact (proj2 (rel_ok_parts r Hr)).
Qed.

(** X17.  For a Link header written as GitHub does, entries <url>; rel="r"
    joined by ", ", the next URL that _paginate follows is the URL of the
    first entry with rel="next"; when no entry has rel="next", pagination
    stops. This holds when the URLs contain no comma, semicolon, angle
    bracket or double quote, and the rel names no comma or double quote. *)
Theorem next_link_header : forall es, forallb link_entry_ok es = true ->
  next_link (link_header es) = option_map fst (find (fun e => String.eqb (snd e) "next") es).
Proof.
  intros es Hok. destruct es as [|e es]; [reflexivity|].
  assert (Hn : next_link (link_header (e :: es)) =
    option_map link_target (find (contains REL_NEXT) (split_on "," ("" ++ link_header (e :: es))))).
  { unfold next_link. simpl append. destruct (find _ _); reflexivity. }
  rewrite Hn, split_header by (reflexivity || exact Hok).
  simpl in Hok. apply andb_true_iff in Hok as [He Hok].
  destruct e as [u r]. cbn [find map fst snd].
  apply andb_true_iff in He as [Hu Hr]; simpl in Hu, Hr.
  rewrite entry_contains by (reflexivity || exact (proj2 (proj2 (proj2 (url_ok_parts u Hu))))
                             || exact (proj2 (rel_ok_parts r Hr))).
  destruct (String.eqb r "next").
  - simpl. f_equal. exact (entry_target "" u r eq_refl Hu).
  - exact (find_entries " " es eq_refl Hok).
Qed.

Lemma next_link_header_witness :
  let es := [("https://api.github.com/orgs/acme/repos?page=1", "prev");
             ("https://api.github.com/orgs/acme/repos?page=3", "next");
             ("https://api.github.com/orgs/acme/repos?page=5", "last")] in
  forallb link_entry_ok es = true /\
  next_link (link_header es) = Some "https://api.github.com/orgs/acme/repos?page=3".
Proof.
  intros es. assert (H : forallb link_entry_ok es = true) by reflexivity.
  split; [exact H|]. rewrite (next_link_header es H). reflexivity.
Defined.

Lemma py_round_near : forall x, (inject_Z (py_round x) - (1 # 2) <= x <= inject_Z (py_round x) + (1 # 2))%Q.
Proof.
  intros x. unfold py_round.
  pose proof (Qfloor_le x) as H1. pose proof (Qlt_floor x) as H2.
  set (f := Qfloor x) in *.
  rewrite inject_Z_plus in H2. change (inject_Z 1) with 1%Q in H2.
  destruct (Qlt_le_dec (x - inject_Z f) (1 # 2)) as [Hl|Hl].
  - split; lra.
  - destruct (Qeq_dec (x - inject_Z f) (1 # 2)) as [He|He].
    + destruct (Z.even f); rewrite ?inject_Z_plus; change (inject_Z 1) with 1%Q; split; lra.
    + rewrite inject_Z_plus. change (inject_Z 1) with 1%Q. split; lra.
Qed.

Lemma py_round_int : forall z, py_round (inject_Z z) = z.
Proof.
  intros z. unfold py_round. rewrite Qfloor_Z.
  destruct (Qlt_le_dec (inject_Z z - inject_Z z) (1 # 2)) as [_|H]; [reflexivity|].
  exfalso. assert (inject_Z z - inject_Z z == 0)%Q by ring. lra.
Qed.

Lemma py_round_comp : forall x y, (x == y)%Q -> py_round x = py_round y.
Proof.
  intros x y H. unfold py_round. rewrite (Qfloor_comp x y H).
  set (f := Qfloor y).
  destruct (Qlt_le_dec (x - inject_Z f) (1 # 2)), (Qlt_le_dec (y - inject_Z f) (1 # 2));
    try (exfalso; lra); try reflexivity.
  destruct (Qeq_dec (x - inject_Z f) (1 # 2)), (Qeq_dec (y - inject_Z f) (1 # 2));
    try (exfalso; lra); reflexivity.
Qed.

Lemma py_round_mono : forall x y, (x <= y)%Q -> py_round x <= py_round y.
Proof.
  intros x y Hxy. pose proof (py_round_near x). pose proof (py_round_near y).
  destruct (Z_le_gt_dec (py_round x) (py_round y)) as [|Hgt]; [assumption|].
  exfalso.
  assert (Hle : (inject_Z (py_round y) + 1 <= inject_Z (py_round x))%Q).
  { change 1%Q with (inject_Z 1). rewrite <- inject_Z_plus, <- Zle_Qle. lia. }
  (* x >= round x - 1/2 >= round y + 1/2 >= y: ties meet only when x = y *)
  assert (Hx : (x == inject_Z (py_round x) - (1 # 2))%Q) by lra.
  assert (Hy : (y == inject_Z (py_round y) + (1 # 2))%Q) by lra.
  assert (Hxy' : (x == y)%Q) by lra.
  (* equal inputs round to the same integer *)
  assert (Heq : py_round x = py_round y).
  { apply py_round_comp; exact Hxy'. }
  lia.
Qed.

Lemma py_round_bounds : forall x w, (0 <= x <= inject_Z w)%Q -> 0 <= py_round x <= w.
Proof.
  intros x w [H0 Hw]. pose proof (py_round_near x) as [Hl Hu].
  split.
  - destruct (Z_le_gt_dec 0 (py_round x)) as [|Hn]; [assumption|exfalso].
    assert (inject_Z (py_round x) + 1 <= 0)%Q.
    { change 1%Q with (inject_Z 1). rewrite <- inject_Z_plus. change 0%Q with (inject_Z 0).
      rewrite <- Zle_Qle. lia. }
    lra.
  - destruct (Z_le_gt_dec (py_round x) w) as [|Hn]; [assumption|exfalso].
    assert (inject_Z w + 1 <= inject_Z (py_round x))%Q.
    { change 1%Q with (inject_Z 1). rewrite <- inject_Z_plus, <- Zle_Qle. lia. }
    lra.
Qed.

Lemma scale_bounds : forall p w, (0 <= p <= 100)%Q -> 0 <= w ->
  (0 <= p / 100 * inject_Z w <= inject_Z w)%Q.
Proof.
  intros p w [H0 H1] Hw.
  assert (Hw' : (0 <= inject_Z w)%Q) by (change 0%Q with (inject_Z 0); rewrite <- Zle_Qle; exact Hw).
  assert (Hp : (0 <= p / 100 <= 1)%Q).
  { split; [apply Qle_shift_div_l; [reflexivity|lra]|apply Qle_shift_div_r; [reflexivity|lra]]. }
  split.
  - apply Qmult_le_0_compat; lra.
  - rewrite <- (Qmult_1_l (inject_Z w)) at 2. apply Qmult_le_compat_r; lra.
Qed.

Lemma full_cells_bar : forall n m,
  full_cells (repeat FullBlock n ++ repeat LightShade m) = n.
Proof.
  intros n m; unfold full_cells; rewrite filter_app.
  induction n as [|n IH]; simpl.
  - induction m; simpl; auto.
  - rewrite IH; reflexivity.
Qed.

(** X18.  For a percentage between 0 and 100 and a non-negative width,
    _make_bar returns exactly width cells: a run of full blocks followed
    by light shades. 0% gives only light shades and 100% only full blocks,
    and a larger percentage never gives fewer full blocks. *)
Theorem make_bar_shape : forall p w, (0 <= p <= 100)%Q -> 0 <= w ->
  List.length (_make_bar p w) = Z.to_nat w /\
  (exists n, (n <= Z.to_nat w)%nat /\
     _make_bar p w = (repeat FullBlock n ++ repeat LightShade (Z.to_nat w - n))%list) /\
  ((p == 0)%Q -> _make_bar p w = repeat LightShade (Z.to_nat w)) /\
  ((p == 100)%Q -> _make_bar p w = repeat FullBlock (Z.to_nat w)) /\
  (forall p', (p <= p' <= 100)%Q -> (full_cells (_make_bar p w) <= full_cells (_make_bar p' w))%nat).
Proof.
  intros p w Hp Hw.
  pose proof (scale_bounds p w Hp Hw) as Hs.
  pose proof (py_round_bounds _ _ Hs) as Hr.
  set (f := py_round (p / 100 * inject_Z w)) in *.
  assert (Hbar : _make_bar p w =
            (repeat FullBlock (Z.to_nat f) ++ repeat LightShade (Z.to_nat w - Z.to_nat f))%list).
  { unfold _make_bar, str_repeat. fold f. f_equal. f_equal. lia. }
  split; [|split; [|split; [|split]]].
  - rewrite Hbar, length_app, !repeat_length. lia.
  - exists (Z.to_nat f); split; [lia|exact Hbar].
  - intros H0. assert (Hf : f = 0).
    { unfold f. rewrite (py_round_comp _ (inject_Z 0)); [reflexivity|].
      rewrite H0. reflexivity. }
    rewrite Hbar, Hf. simpl. rewrite Nat.sub_0_r. reflexivity.
  - intros H100. assert (Hf : f = w).
    { unfold f. rewrite (py_round_comp _ (inject_Z w)); [apply py_round_int|].
      rewrite H100. field. }
    rewrite Hbar, Hf, Nat.sub_diag, app_nil_r. reflexivity.
  - intros p' [Hle H'].
    assert (Hp' : (0 <= p' <= 100)%Q) by lra.
    pose proof (scale_bounds p' w Hp' Hw) as Hs'.
    pose proof (py_round_bounds _ _ Hs') as Hr'.
    assert (Hbar' : _make_bar p' w =
              (repeat FullBlock (Z.to_nat (py_round (p' / 100 * inject_Z w)))
               ++ repeat LightShade (Z.to_nat w - Z.to_nat (py_round (p' / 100 * inject_Z w))))%list).
    { unfold _make_bar, str_repeat. f_equal. f_equal. lia. }
    rewrite Hbar, Hbar', !full_cells_bar.
    assert (Hm : f <= py_round (p' / 100 * inject_Z w)).
    { apply py_round_mono.
      assert (Hw' : (0 <= inject_Z w)%Q) by (change 0%Q with (inject_Z 0); rewrite <- Zle_Qle; exact Hw).
      apply Qmult_le_compat_r; [|exact Hw'].
      apply Qmult_le_compat_r; [exact Hle|]. apply Qinv_le_0_compat. lra. }
    lia.
Qed.

Lemma make_bar_shape_witness :
  List.length (_make_bar (85 # 2) 20) = 20%nat.
Proof.
  assert (H : (0 <= 85 # 2 <= 100)%Q) by (split; lra).
  exact (proj1 (make_bar_shape (85 # 2) 20 H ltac:(lia))).
Defined.

(** X19.  _make_inline_bar returns an empty bar when max_count is 0. For 0
    <= count <= max_count with max_count > 0 and a non-negative width, it
    returns only full blocks and at most width of them. The count equal to
    max_count gets exactly width blocks, and a larger count never gets
    fewer. *)
Theorem make_inline_bar_shape : forall cnt mx w,
  (mx = 0 -> _make_inline_bar cnt mx w = []) /\
  (0 <= cnt <= mx -> 0 < mx -> 0 <= w ->
     _make_inline_bar cnt mx w = repeat FullBlock (List.length (_make_inline_bar cnt mx w)) /\
     (List.length (_make_inline_bar cnt mx w) <= Z.to_nat w)%nat /\
     (cnt = mx -> List.length (_make_inline_bar cnt mx w) = Z.to_nat w) /\
     (forall cnt', cnt <= cnt' <= mx ->
        (List.length (_make_inline_bar cnt mx w) <= List.length (_make_inline_bar cnt' mx w))%nat)).
Proof.
  intros cnt mx w. split.
  - intros ->; reflexivity.
  - intros Hc Hm Hw. unfold _make_inline_bar, str_repeat.
    destruct (Z.eqb_spec mx 0) as [|_]; [lia|].
    assert (Hq : forall c, 0 <= c <= mx ->
              (0 <= inject_Z c / inject_Z mx * inject_Z w <= inject_Z w)%Q).
    { intros c [H0 H1].
      assert (Hmq : (0 < inject_Z mx)%Q) by (change 0%Q with (inject_Z 0); rewrite <- Zlt_Qlt; exact Hm).
      assert (Hwq : (0 <= inject_Z w)%Q) by (change 0%Q with (inject_Z 0); rewrite <- Zle_Qle; exact Hw).
      assert (H0q : (0 <= inject_Z c)%Q) by (change 0%Q with (inject_Z 0); rewrite <- Zle_Qle; exact H0).
      assert (H1q : (inject_Z c <= inject_Z mx)%Q) by (rewrite <- Zle_Qle; exact H1).
      assert (Hfr : (0 <= inject_Z c / inject_Z mx <= 1)%Q).
      { split; [apply Qle_shift_div_l; lra|apply Qle_shift_div_r; lra]. }
      split; [apply Qmult_le_0_compat; lra|].
      rewrite <- (Qmult_1_l (inject_Z w)) at 2. apply Qmult_le_compat_r; lra. }
    assert (Hlen : forall c, List.length (repeat FullBlock (Z.to_nat
              (py_round (inject_Z c / inject_Z mx * inject_Z w)%Q))) =
              Z.to_nat (py_round (inject_Z c / inject_Z mx * inject_Z w)%Q))
      by (intros; apply repeat_length).
    rewrite !Hlen. split; [reflexivity|]. split; [|split].
    + pose proof (py_round_bounds _ _ (Hq cnt Hc)). lia.
    + intros ->.
      rewrite (py_round_comp _ (inject_Z w)); [rewrite py_round_int; reflexivity|].
      assert (Hmq : ~ (inject_Z mx == 0)%Q).
      { change 0%Q with (inject_Z 0). rewrite inject_Z_injective. lia. }
      field. exact Hmq.
    + intros cnt' Hc'.
      assert (Hmq : (0 < inject_Z mx)%Q) by (change 0%Q with (inject_Z 0); rewrite <- Zlt_Qlt; exact Hm).
      assert (Hwq : (0 <= inject_Z w)%Q) by (change 0%Q with (inject_Z 0); rewrite <- Zle_Qle; exact Hw).
      assert (Hle : (inject_Z cnt <= inject_Z cnt')%Q) by (rewrite <- Zle_Qle; lia).
      assert (Hmono : py_round (inject_Z cnt / inject_Z mx * inject_Z w)%Q <=
                      py_round (inject_Z cnt' / inject_Z mx * inject_Z w)%Q).
      { apply py_round_mono. apply Qmult_le_compat_r; [|exact Hwq].
        apply Qmult_le_compat_r; [exact Hle|]. apply Qinv_le_0_compat. lra. }
      rewrite Hlen. lia.
Qed.

Lemma span_digits_stop : forall p c r, str_forallb is_digit p = true -> is_digit c = false ->
  span_digits (p ++ String c r) = (p, String c r).
Proof.
  induction p as [|c0 p IH]; intros c r Hp Hc; simpl.
  - rewrite Hc; reflexivity.
  - simpl in Hp; apply andb_true_iff in Hp as [H0 Hp]. rewrite H0, IH by assumption. reflexivity.
Qed.

Lemma read_digits_prefix : forall h acc c s v c' rest,
  read_digits h acc c s = (v, c', rest) ->
  exists p, s = p ++ rest /\ str_forallb is_digit p = true /\ c' = (c + String.length p)%nat.
Proof.
  induction h as [|h IH]; intros acc c s v c' rest Hr.
  - simpl in Hr. inversion Hr; subst. exists ""; simpl; split; [reflexivity|split; [reflexivity|lia]].
  - destruct s as [|ch s'].
    + simpl in Hr. inversion Hr; subst. exists ""; simpl; split; [reflexivity|split; [reflexivity|lia]].
    + simpl in Hr. destruct (digit_val ch) as [dv|] eqn:Ed.
      * destruct (IH _ _ _ _ _ _ Hr) as (p & Hs & Hp & Hc).
        exists (String ch p). simpl. rewrite Hs, Hp. unfold is_digit. rewrite Ed.
        split; [reflexivity|split; [reflexivity|lia]].
      * inversion Hr; subst. exists ""; simpl; split; [reflexivity|split; [reflexivity|lia]].
Qed.

Lemma parse_date_not_relative : forall s d, parse_date s = Some d -> match_relative s = None.
Proof.
  intros s d H. unfold parse_date in H.
  destruct (read_digits 4 0 0 s) as [[y n] r] eqn:Er.
  destruct (read_digits_prefix _ _ _ _ _ _ _ Er) as (p & Hs & Hp & Hn).
  destruct n as [|[|[|[|[|n]]]]]; try discriminate.
  destruct r as [|ch r1]; [discriminate|].
  destruct (Ascii.eqb_spec ch "-") as [->|Hne];
    [|destruct ch as [[] [] [] [] [] [] [] []]; try discriminate; congruence].
  unfold match_relative. rewrite Hs, span_digits_stop by (exact Hp || reflexivity).
  destruct p as [|c0 p]; [simpl in Hn; discriminate|]. reflexivity.
Qed.

Lemma unit_not_digit : forall u, is_unit u = true -> is_digit u = false.
Proof.
  intros u Hu. unfold is_unit in Hu.
  repeat (apply orb_true_iff in Hu as [Hu|Hu]); apply Ascii.eqb_eq in Hu; subst; reflexivity.
Qed.

Lemma match_relative_unit : forall ds u tail, ds <> "" -> str_forallb is_digit ds = true ->
  is_unit u = true -> (tail = "" \/ tail = NEWLINE) ->
  match_relative (ds ++ String u tail) = Some (int_of_digits 0 ds, u).
Proof.
  intros ds u tail Hne Hds Hu Ht. unfold match_relative.
  rewrite span_digits_stop by (exact Hds || exact (unit_not_digit u Hu)).
  destruct ds as [|c0 p]; [congruence|]. rewrite Hu.
  destruct Ht as [->| ->]; reflexivity.
Qed.

